(** * vastligo/clustering.py: grouping sky positions into telescope pointings

    A shallow embedding of [src/vastligo/clustering.py].  numpy floats are
    idealised as real numbers ([R]); Python exceptions are an explicit
    error result; Python dicts are [gmap]s keyed by node id; numpy
    integer arrays are lists of [nat].  Sky positions are Cartesian vectors;
    the frame a position is given in (FK5 for the catalogue, ICRS for the
    centres the code computes) enters where astropy compares two
    positions. *)

From Stdlib Require Import Reals Lra Lia.
From stdpp Require Import gmap list sorting strings.

Local Open Scope R_scope.

(** ** Python exceptions *)

Inductive exn := IndexError | KeyError | ValueError | UnboundLocalError.

Inductive result (A : Type) : Type :=
| Ok (a : A)
| Raise (e : exn).
Arguments Ok {A} a.
Arguments Raise {A} e.

#[global] Instance result_ret : MRet result := fun A a => Ok a.

#[global] Instance result_bind : MBind result := fun A B k r =>
  match r with
  | Ok a => k a
  | Raise e => Raise e
  end.

(** Decimal literals are read as [Q2R (n # d)]; this exposes them as
    [n * / d] so that [field] can work with them. *)
Ltac decimals := unfold Q2R in *; cbn [QArith_base.Qnum QArith_base.Qden] in *.

(** ** BeamModel *)

Module Beam.

(** [get_rad(P, fwhm=48.3, nu=5.5)]: radius in degrees at which the beam
    reaches relative sensitivity [P]. *)
Definition get_rad_at (fwhm nu P : R) : R :=
  let rad := 0.5 * fwhm * sqrt (- ln P / ln 2) / nu in
  rad / 60.

(** [beam_fit(x, fwhm=48.3, nu=5.5)]: relative sensitivity at radius [x]. *)
Definition beam_fit_at (fwhm nu x : R) : R :=
  exp (- 4 * ln 2 * (x * nu / fwhm) ^ 2).

Definition default_fwhm : R := 48.3.
Definition default_nu : R := 5.5.

Definition get_rad (P : R) : R := get_rad_at default_fwhm default_nu P.
Definition beam_fit (x : R) : R := beam_fit_at default_fwhm default_nu x.

(** The selector evaluates the beam at [dist_from_centre*60]: a radius in
    degrees converted to the unit [get_rad] divides out. *)
Definition sensitivity_at (radius_deg : R) : R := beam_fit (radius_deg * 60).
Definition radius_for_sensitivity (P : R) : R := get_rad P.

End Beam.

(** ** SphericalPoint: directions as Cartesian vectors *)

Definition vec : Type := R * R * R.

Module Vec.

Definition add (u v : vec) : vec :=
  let '(ux, uy, uz) := u in let '(vx, vy, vz) := v in
  (ux + vx, uy + vy, uz + vz).

Definition sub (u v : vec) : vec :=
  let '(ux, uy, uz) := u in let '(vx, vy, vz) := v in
  (ux - vx, uy - vy, uz - vz).

Definition scale (k : R) (u : vec) : vec :=
  let '(ux, uy, uz) := u in (k * ux, k * uy, k * uz).

Definition dot (u v : vec) : R :=
  let '(ux, uy, uz) := u in let '(vx, vy, vz) := v in
  ux * vx + uy * vy + uz * vz.

Definition cross (u v : vec) : vec :=
  let '(ux, uy, uz) := u in let '(vx, vy, vz) := v in
  (uy * vz - uz * vy, uz * vx - ux * vz, ux * vy - uy * vx).

Definition norm (u : vec) : R := sqrt (dot u u).

Definition zero : vec := (0, 0, 0).

(** [np.sum] over a Cartesian array. *)
Definition sum (vs : list vec) : vec := foldr add zero vs.

End Vec.

Definition to_degrees (x : R) : R := x * 180 / PI.
Definition to_radians (x : R) : R := x * PI / 180.

(** [SkyCoord(ra*u.deg, dec*u.deg)]: the direction with the given right
    ascension and declination (degrees), in its Cartesian form. *)
Definition SkyCoord_deg (ra dec : R) : vec :=
  (cos (to_radians dec) * cos (to_radians ra),
   cos (to_radians dec) * sin (to_radians ra),
   sin (to_radians dec)).

(** astropy's [a.separation(b)] for two positions of one frame: the
    great-circle angle between the two directions, in degrees.  astropy
    evaluates it with the Vincenty formula on longitude and latitude; over
    the reals that is the angle between the two vectors, which only depends
    on their directions.  The value is meaningful for non-zero vectors
    only. *)
Definition separation (u v : vec) : R :=
  to_degrees (acos (Vec.dot u v / (Vec.norm u * Vec.norm v))).

(** ** Coordinate frames

    The catalogue is built with [frame='fk5'] (line 41).  [SkyCoord(centroid)]
    and [SkyCoord(E)] (lines 105 and 129) name no frame and get astropy's
    default, ICRS, with the Cartesian components computed from the FK5
    members.  [a.separation(b)] transforms [b] into the frame of [a] before
    it takes the angle.  From FK5 at its default equinox J2000, where the
    precession matrix is the identity, to ICRS that is a multiplication by
    the transpose of the frame-bias matrix of astropy's
    [icrs_fk5_transforms]. *)

(** A 3 x 3 matrix, by rows. *)
Definition matrix : Type := vec * vec * vec.

Inductive axis := axis_x | axis_y | axis_z.

(** astropy's [rotation_matrix(angle, axis)], the angle in degrees. *)
Definition rotation_matrix (angle : R) (a : axis) : matrix :=
  let c := cos (to_radians angle) in
  let s := sin (to_radians angle) in
  match a with
  | axis_x => ((1, 0, 0), (0, c, s), (0, - s, c))
  | axis_y => ((c, 0, - s), (0, 1, 0), (s, 0, c))
  | axis_z => ((c, s, 0), (- s, c, 0), (0, 0, 1))
  end.

Module Mat.

Definition transpose (m : matrix) : matrix :=
  let '((a, b, c), (d, e, f), (g, h, i)) := m in
  ((a, d, g), (b, e, h), (c, f, i)).

(** [m @ v] *)
Definition apply (m : matrix) (v : vec) : vec :=
  let '(r0, r1, r2) := m in (Vec.dot r0 v, Vec.dot r1 v, Vec.dot r2 v).

(** [m @ n] *)
Definition mul (m n : matrix) : matrix :=
  let '(r0, r1, r2) := m in
  let nt := transpose n in
  (apply nt r0, apply nt r1, apply nt r2).

End Mat.

(** [_icrs_to_fk5_matrix()]: the three angles of the frame bias, in
    degrees, and the product of their rotations. *)
Definition eta0 : R := - 19.9 / 3600000.
Definition xi0 : R := 9.1 / 3600000.
Definition da0 : R := - 22.9 / 3600000.

Definition icrs_to_fk5_matrix : matrix :=
  Mat.mul (Mat.mul (rotation_matrix (- eta0) axis_x) (rotation_matrix xi0 axis_y))
          (rotation_matrix da0 axis_z).

(** The Cartesian components in ICRS of a position given in FK5. *)
Definition fk5_to_icrs (v : vec) : vec :=
  Mat.apply (Mat.transpose icrs_to_fk5_matrix) v.

(** [centre.separation(member)] for a centre made by [SkyCoord(...)] from
    Cartesian components (frame ICRS) and a member of the catalogue (frame
    FK5), as in lines 150 and 194. *)
Definition centre_separation (centre member : vec) : R :=
  separation centre (fk5_to_icrs member).

(** A [SkyCoord] stored in an output record: a scalar, which is a centre
    the code computed (frame ICRS), or an array, which is a slice of the
    catalogue (frame FK5). *)
Inductive SkyCoord :=
| SkyScalar (v : vec)
| SkyArray (vs : list vec).

(** A position computed with a division: a vector, or NaN in every
    component, which is what numpy gives for the zero vector divided by
    zero. *)
Inductive position :=
| Pos (v : vec)
| NaN.

(** ** numpy helpers *)

Fixpoint foldM {A B} (f : A -> B -> result A) (a : A) (l : list B) : result A :=
  match l with
  | [] => Ok a
  | b :: l' => a' ← f a b; foldM f a' l'
  end.

Definition enumerate {A} (l : list A) : list (nat * A) := imap (fun i x => (i, x)) l.

(** [arr[i]] for one index. *)
Definition item {A} (arr : list A) (i : nat) : result A :=
  match arr !! i with
  | Some x => Ok x
  | None => Raise IndexError
  end.

(** [arr[idx]] for an index list (fancy indexing). *)
Fixpoint take_items {A} (arr : list A) (idx : list nat) : result (list A) :=
  match idx with
  | [] => Ok []
  | i :: idx' => x ← item arr i; xs ← take_items arr idx'; Ok (x :: xs)
  end.

(** [arr[idx] = x] for indices already known to be in range. *)
Definition set_items {A} (arr : list A) (idx : list nat) (x : A) : list A :=
  foldl (fun a i => <[i:=x]> a) arr idx.

(** [members[0]] and [members[-1]]. *)
Definition first_item {A} (l : list A) : result A := item l 0.
Definition last_item {A} (l : list A) : result A :=
  match last l with
  | Some x => Ok x
  | None => Raise IndexError
  end.

Fixpoint argmax_from (best : R) (besti i : nat) (l : list R) : nat :=
  match l with
  | [] => besti
  | x :: l' =>
      if Rlt_dec best x then argmax_from x i (S i) l'
      else argmax_from best besti (S i) l'
  end.

(** [np.argmax]: index of the first maximum. *)
Definition np_argmax (l : list R) : result nat :=
  match l with
  | [] => Raise ValueError
  | x :: l' => Ok (argmax_from x 0%nat 1%nat l')
  end.

(** [np.max]. *)
Definition np_max (l : list R) : result R :=
  match l with
  | [] => Raise ValueError
  | x :: l' => Ok (foldl Rmax x l')
  end.

Definition floorZ (x : R) : Z := (up x - 1)%Z.

(** Round to the nearest integer, halves to the even neighbour. *)
Definition rint (x : R) : Z :=
  let f := floorZ x in
  let d := x - IZR f in
  if Rlt_dec d (1 / 2) then f
  else if Rlt_dec (1 / 2) d then (f + 1)%Z
  else if Z.even f then f else (f + 1)%Z.

(** [np.round(x, decimals)]. *)
Definition np_round (x : R) (decimals : nat) : R :=
  IZR (rint (x * 10 ^ decimals)) / 10 ^ decimals.

(** A two-dimensional array: its shape and its cells. *)
Record ndarray := {
  nrows : nat;
  ncols : nat;
  cell : nat -> nat -> R
}.

Definition np_empty (r c : nat) : ndarray :=
  {| nrows := r; ncols := c; cell := fun _ _ => 0 |}.

(** [arr[i,:] = vals] *)
Definition set_row (arr : ndarray) (i : nat) (vals : list R) : ndarray :=
  {| nrows := nrows arr; ncols := ncols arr;
     cell := fun r c => if (r =? i)%nat then nth c vals 0 else cell arr r c |}.

(** [arr[:,idx]] *)
Definition take_cols (arr : ndarray) (idx : list nat) : result ndarray :=
  if forallb (fun j => j <? ncols arr)%nat idx then
    Ok {| nrows := nrows arr; ncols := length idx;
          cell := fun r c => cell arr r (nth c idx 0%nat) |}
  else Raise IndexError.

(** [arr[idx,:]] *)
Definition take_rows (arr : ndarray) (idx : list nat) : result ndarray :=
  if forallb (fun i => i <? nrows arr)%nat idx then
    Ok {| nrows := length idx; ncols := ncols arr;
          cell := fun r c => cell arr (nth r idx 0%nat) c |}
  else Raise IndexError.

(** Python's [d[k]]. *)
Definition dict_get {V} (d : gmap nat V) (k : nat) : result V :=
  match d !! k with
  | Some v => Ok v
  | None => Raise KeyError
  end.

(** [sorted(d.keys(), reverse=True)] *)
Definition sorted_keys_desc {V} (d : gmap nat V) : list nat :=
  merge_sort (H := fun a b => decide (b <= a)%nat) (fun a b => b <= a)%nat
    (fst <$> map_to_list d).

(** ** SeparationMatrix *)

(** [calc_separation(coords)]: row [i] holds the separations from target
    [i] to every target, rounded to 5 decimals. *)
Definition calc_separation (coords : list vec) : ndarray :=
  let seps := np_empty (length coords) (length coords) in
  foldl (fun seps '(i, coord) =>
           let sep := map (separation coord) coords in
           set_row seps i (map (fun s => np_round s 5) sep))
        seps (enumerate coords).

(** ** ClusterTreeDecoder *)

(** One row of scipy's linkage matrix: the two merged node ids, the linkage
    distance and the size of the merged cluster. *)
Record linkage_row := {
  glob1 : nat;
  glob2 : nat;
  linkage_dist : R;
  linkage_count : nat
}.

(** The inner loop body of [extract_levels]: a child that is itself a
    cluster contributes its member list, a leaf contributes itself. *)
Definition add_glob (n_labels : nat) (clusters : gmap nat (list nat))
    (this_clust : list nat) (glob : nat) : result (list nat) :=
  if (Z.of_nat glob >? Z.of_nat n_labels - 1)%Z then
    c ← dict_get clusters glob; Ok (this_clust ++ c)
  else Ok (this_clust ++ [glob]).

Definition extract_row (n_labels : nat) (clusters : gmap nat (list nat))
    (entry : nat * linkage_row) : result (gmap nat (list nat)) :=
  let '(row, r) := entry in
  let cluster_n := (row + n_labels)%nat in
  this_clust ← foldM (add_glob n_labels clusters) [] [glob1 r; glob2 r];
  Ok (<[cluster_n := this_clust]> clusters).

(** [extract_levels(row_clusters, labels)] *)
Definition extract_levels {L} (row_clusters : list linkage_row) (labels : list L)
    : result (gmap nat (list nat)) :=
  foldM (extract_row (length labels)) ∅ (enumerate row_clusters).

(** ** EnclosingCircleEstimator *)

(** [calc_centroid(coords)]: the sum of the Cartesian vectors; as a
    direction it is their normalised mean.  The components are those of the
    members in FK5, and the [SkyCoord] made of them is in ICRS. *)
Definition calc_centroid (coords : list vec) : vec := Vec.sum coords.

(** [calc_circumcentre(coords)]; the result is in ICRS like that of
    [calc_centroid]. *)
Definition calc_circumcentre (coords : list vec) : result position :=
  c0 ← item coords 0; c1 ← item coords 1; c2 ← item coords 2;
  let A := Vec.sub c1 c0 in
  let B := Vec.sub c2 c1 in
  let C := Vec.sub c0 c2 in
  let AB := Vec.cross A B in
  let K := 0.5 * Vec.norm AB in
  if Req_dec_T (8 * K ^ 2) 0 then
    (* K = 0 only if AB = 0: the numerator is the zero vector and numpy
       divides it by zero, without raising *)
    Ok NaN
  else
    let E := Vec.add (Vec.scale 0.5 (Vec.add c0 c2))
               (Vec.scale (Vec.dot A B / (8 * K ^ 2)) (Vec.cross C AB)) in
    Ok (Pos E).

(** [get_centre(members, coords, seps)] *)
Definition get_centre (members : list nat) (coords : list vec) (seps : ndarray)
    : result position :=
  cols ← take_cols seps members;
  subset_seps ← take_rows cols members;
  m0 ← first_item members;
  mlast ← last_item members;
  pair ← take_items coords [m0; mlast];
  let centre := calc_centroid pair in
  coords_members ← take_items coords members;
  let dists := map (centre_separation centre) coords_members in
  max_dist_arg ← np_argmax dists;
  if negb (max_dist_arg =? 0)%nat && negb (max_dist_arg =? length dists - 1)%nat then
    mmax ← item members max_dist_arg;
    coords_3 ← take_items coords [m0; mmax; mlast];
    calc_circumcentre coords_3
  else Ok (Pos centre).

(** ** GreedyPointingSelector *)

(** One entry of [cluster_info]. *)
Record pointing := {
  members : list nat;
  centroid : SkyCoord;
  int_time : R
}.

(** The local variables of [do_clustering]; [loop_members] is the loop
    variable [members], unbound until the first loop has run once. *)
Record state := {
  assigned : list nat;
  clusters : list nat;
  clustering : list nat;
  centroids : gmap nat vec;
  int_time_arr : list R;
  cluster_info : gmap nat pointing;
  loop_members : option (list nat)
}.

Definition initial_state (coords : list vec) : state :=
  {| assigned := [];
     clusters := [];
     clustering := seq 0 (length coords);
     centroids := ∅;
     int_time_arr := replicate (length coords) 1;
     cluster_info := ∅;
     loop_members := None |}.

Definition bind_members (st : state) (ms : list nat) : state :=
  {| assigned := assigned st; clusters := clusters st;
     clustering := clustering st; centroids := centroids st;
     int_time_arr := int_time_arr st; cluster_info := cluster_info st;
     loop_members := Some ms |}.

(** The state after the accepting branch (lines 199-211). *)
Definition accept (st : state) (c_num : nat) (ms : list nat) (centre : vec)
    (rel_int_time : R) : state :=
  {| assigned := assigned st ++ ms;
     clusters := clusters st ++ [c_num];
     clustering := set_items (clustering st) ms c_num;
     centroids := <[c_num := centre]> (centroids st);
     int_time_arr := set_items (int_time_arr st) ms rel_int_time;
     cluster_info :=
       <[c_num := {| members := ms; centroid := SkyScalar centre;
                     int_time := rel_int_time |}]> (cluster_info st);
     loop_members := loop_members st |}.

(** [len(list(set(members).intersection(assigned))) > 0] *)
Definition overlaps (ms assigned : list nat) : bool :=
  existsb (fun m => bool_decide (m ∈ assigned)) ms.

(** The body of the first loop, for one candidate cluster id.  The
    conversion [np.asarray(..., dtype=int)] of line 182 is the identity on
    the member indices a catalogue can have, which are below 2^63. *)
Definition select_cluster (coords : list vec) (all_clusters : gmap nat (list nat))
    (seps : ndarray) (st : state) (c_num : nat) : result state :=
  ms ← dict_get all_clusters c_num;
  let st := bind_members st ms in
  if overlaps ms (assigned st) then Ok st
  else
    let num_targets := length ms in
    centre ← get_centre ms coords seps;
    coords_members ← take_items coords ms;
    let break_even_dist := Beam.get_rad (Rpower (INR num_targets) (- 0.5)) in
    match centre with
    | NaN =>
        (* every separation from a NaN centre is NaN, so is their maximum,
           and [NaN < break_even_dist] is False *)
        Ok st
    | Pos centre =>
        dist_from_centre ← np_max (map (centre_separation centre) coords_members);
        if Rlt_dec dist_from_centre break_even_dist then
          let P := Beam.beam_fit (dist_from_centre * 60) in
          let rel_int_time := / P ^ 2 / INR num_targets in
          Ok (accept st c_num ms centre rel_int_time)
        else Ok st
    end.

(** The body of the second loop: the record's centre is [coords[members]]
    with [members] as the first loop left it. *)
Definition sweep_singleton (coords : list vec) (st : state) (c_num : nat)
    : result state :=
  if bool_decide (c_num ∈ assigned st) then Ok st
  else
    match loop_members st with
    | None => Raise UnboundLocalError
    | Some ms =>
        cs ← take_items coords ms;
        Ok {| assigned := assigned st; clusters := clusters st;
              clustering := clustering st; centroids := centroids st;
              int_time_arr := int_time_arr st;
              cluster_info :=
                <[c_num := {| members := [c_num]; centroid := SkyArray cs;
                              int_time := 1 |}]> (cluster_info st);
              loop_members := loop_members st |}
    end.

(** [do_clustering(coords, all_clusters, seps)] *)
Definition do_clustering (coords : list vec) (all_clusters : gmap nat (list nat))
    (seps : ndarray) : result (gmap nat pointing) :=
  st ← foldM (select_cluster coords all_clusters seps) (initial_state coords)
        (sorted_keys_desc all_clusters);
  st ← foldM (sweep_singleton coords) st (seq 0 (length coords));
  Ok (cluster_info st).

(** Lines 225 and 232-234: the script from the linkage matrix on, for a
    matrix [linked] that scipy's [linkage] has returned. *)
Definition run {L} (coords : list vec) (labellist : list L)
    (linked : list linkage_row) : result (gmap nat pointing) :=
  let seps := calc_separation coords in
  all_clusters ← extract_levels linked labellist;
  do_clustering coords all_clusters seps.

(** ** The catalogue and the script *)

Definition Reqb (x y : R) : bool := if Req_dec_T x y then true else false.

(** scipy's [is_valid_dm] with tolerance 0, for a square matrix: it is
    symmetric and its diagonal is zero. *)
Definition is_valid_dm (X : ndarray) : bool :=
  let idx := seq 0 (nrows X) in
  forallb (fun i => forallb (fun j => Reqb (cell X i j) (cell X j i)) idx) idx
  && forallb (fun i => Reqb (cell X i i) 0) idx.

(** [ssd.squareform(X)] for a two-dimensional [X]: [ValueError] unless [X]
    is a square, valid distance matrix; then the entries above the
    diagonal, row after row, none for a matrix of at most one row. *)
Definition squareform (X : ndarray) : result (list R) :=
  if negb (nrows X =? ncols X)%nat then Raise ValueError
  else if negb (is_valid_dm X) then Raise ValueError
  else
    let d := nrows X in
    Ok (flat_map (fun i => map (cell X i) (seq (S i) (d - S i))) (seq 0 d)).

(** scipy's [linkage(dist, method='complete', optimal_ordering=True)]: for
    an empty condensed matrix the number of observations cannot be
    determined and [ValueError] is raised; for any other the merge rows
    scipy computes, [linked], are taken as given. *)
Definition linkage (dist : list R) (linked : list linkage_row)
    : result (list linkage_row) :=
  match dist with
  | [] => Raise ValueError
  | _ :: _ => Ok linked
  end.

(** Lines 225-234 as a whole. *)
Definition script {L} (coords : list vec) (labellist : list L)
    (linked : list linkage_row) : result (gmap nat pointing) :=
  let seps := calc_separation coords in
  dist ← squareform seps;
  linked ← linkage dist linked;
  all_clusters ← extract_levels linked labellist;
  do_clustering coords all_clusters seps.

(** One row of the table [ascii.read] returns, with the columns the script
    reads. *)
Record target_row := {
  target : string;
  ra : R;
  dec : R
}.

(** astropy accepts a latitude between -90 and 90 degrees. *)
Definition valid_latitude (d : R) : bool :=
  if Rle_dec (- 90) d then (if Rle_dec d 90 then true else false) else false.

(** [load_targets(filename)], from the table read from the file on:
    [targets[:-1]] and the positions of the rows kept, for which
    [SkyCoord] raises [ValueError] when a declination is not a latitude. *)
Definition load_targets (table : list target_row)
    : result (list vec * list target_row) :=
  let targets := take (length table - 1) table in
  if forallb (fun t => valid_latitude (dec t)) targets then
    let coords := map (fun t => SkyCoord_deg (ra t) (dec t)) targets in
    Ok (coords, targets)
  else Raise ValueError.

(** Lines 222-234 as a whole, for the table read from the file. *)
Definition main (table : list target_row) (linked : list linkage_row)
    : result (gmap nat pointing) :=
  '(coords, targets) ← load_targets table;
  let labellist := map target targets in
  script coords labellist linked.

(** ** Well-formed inputs *)

(** The shape of a separation matrix for [n] targets. *)
Definition separation_shape (n : nat) (seps : ndarray) : Prop :=
  nrows seps = n /\ ncols seps = n.

(** scipy's contract for the output of [linkage] on [n] observations: row
    [i] creates node [n+i] from two distinct existing nodes, and no node is
    merged twice. [used] lists the nodes merged by earlier rows. *)
Fixpoint valid_rows (n : nat) (used : list nat) (row : nat)
    (rows : list linkage_row) : bool :=
  match rows with
  | [] => true
  | r :: rows' =>
      (glob1 r <? n + row)%nat && (glob2 r <? n + row)%nat
      && negb (glob1 r =? glob2 r)%nat
      && negb (bool_decide (glob1 r ∈ used))
      && negb (bool_decide (glob2 r ∈ used))
      && valid_rows n (glob1 r :: glob2 r :: used) (S row) rows'
  end.

Definition valid_linkage (n : nat) (rows : list linkage_row) : bool :=
  (length rows =? n - 1)%nat && valid_rows n [] 0 rows.

(** ** Properties of the output *)

(** Every target index below [n], and nothing else, is a member of some
    record. *)
Definition covers (info : gmap nat pointing) (n : nat) : Prop :=
  forall i : nat, (i < n)%nat <-> exists k p, info !! k = Some p /\ i ∈ members p.

(** No target is a member of two records. *)
Definition pairwise_disjoint (info : gmap nat pointing) : Prop :=
  forall k1 k2 p1 p2 i,
    info !! k1 = Some p1 -> info !! k2 = Some p2 ->
    i ∈ members p1 -> i ∈ members p2 -> k1 = k2.

(** [d] is the largest element of [l]. *)
Definition is_max (d : R) (l : list R) : Prop :=
  d ∈ l /\ forall x, x ∈ l -> x <= d.

(** [d] is the largest member distance from [centre] as the selector
    computes it: a number, or NaN ([None]) when the centre is NaN. *)
Definition max_distance (centre : position) (cs : list vec) (d : option R) : Prop :=
  match centre, d with
  | Pos c, Some r => is_max r (map (centre_separation c) cs)
  | NaN, None => True
  | _, _ => False
  end.

(** [d < x] on floats: false when [d] is NaN. *)
Definition below (d : option R) (x : R) : Prop :=
  match d with
  | Some r => r < x
  | None => False
  end.

(** A record written by the second loop for target [k]: the target alone,
    at the cost of one pointing, with an array for a centre. *)
Definition singleton_record (n k : nat) (p : pointing) : Prop :=
  members p = [k] /\ int_time p = 1 /\ (k < n)%nat /\
  exists cs, centroid p = SkyArray cs.

(** A record written by the first loop for the candidate [k]: its members
    are those of the candidate, [d] is their largest distance from the
    recorded centre, it is below the break-even radius, and the multiplier
    is computed from [d]. *)
Definition accepted_record (coords : list vec) (all_clusters : gmap nat (list nat))
    (k : nat) (p : pointing) : Prop :=
  exists centre cs d,
    all_clusters !! k = Some (members p) /\
    centroid p = SkyScalar centre /\
    take_items coords (members p) = Ok cs /\
    is_max d (map (centre_separation centre) cs) /\
    d < Beam.get_rad (Rpower (INR (length (members p))) (- 0.5)) /\
    int_time p = / Beam.beam_fit (d * 60) ^ 2 / INR (length (members p)).

(** ** The decoder's loop invariant *)

(** The members of node [g] as [extract_levels] resolves them: a stored
    list for a merge node, the index itself for a leaf. *)
Definition node_members (n : nat) (clusters : gmap nat (list nat)) (g : nat)
    : option (list nat) :=
  if (Z.of_nat g >? Z.of_nat n - 1)%Z then clusters !! g else Some [g].

(** After [k] rows: [act] lists the nodes not merged yet, each with its
    members; together they hold every leaf exactly once. *)
Record decode_inv (n k : nat) (used : list nat) (clusters : gmap nat (list nat))
    (act : list (nat * list nat)) : Prop := {
  inv_nodup : NoDup (fst <$> act);
  inv_act : forall g m, (g, m) ∈ act ->
      (g < n + k)%nat /\ m <> [] /\ node_members n clusters g = Some m;
  inv_unused : forall g, (g < n + k)%nat -> g ∉ used -> g ∈ (fst <$> act);
  inv_leaves : concat (snd <$> act) ≡ₚ seq 0 n;
  inv_count : (length act + k = n)%nat;
  inv_keys : forall g, is_Some (clusters !! g) <-> (n <= g < n + k)%nat;
  inv_size : size clusters = k;
  inv_members : forall g m, clusters !! g = Some m ->
      m <> [] /\ NoDup m /\ Forall (fun i => (i < n)%nat) m;
  inv_newest : k = 0%nat \/ exists m, (n + k - 1, m)%nat ∈ act
}.

(** Two member lists with one inside the other, or with nothing in
    common. *)
Definition nested_or_disjoint (m1 m2 : list nat) : Prop :=
  (forall x, x ∈ m1 -> x ∈ m2) \/ (forall x, x ∈ m2 -> x ∈ m1) \/
  (forall x, x ∈ m1 -> x ∉ m2).

(** Every stored cluster lies inside one unmerged node, any two stored
    clusters are nested or disjoint, and a cluster inside another has the
    smaller id. *)
Record nested_inv (clusters : gmap nat (list nat)) (act : list (nat * list nat))
    : Prop := {
  nest_pairs : forall g1 g2 m1 m2,
      clusters !! g1 = Some m1 -> clusters !! g2 = Some m2 -> nested_or_disjoint m1 m2;
  nest_order : forall g1 g2 m1 m2,
      clusters !! g1 = Some m1 -> clusters !! g2 = Some m2 ->
      (forall x, x ∈ m1 -> x ∈ m2) -> (g1 <= g2)%nat;
  nest_active : forall g m, clusters !! g = Some m ->
      exists a ma, (a, ma) ∈ act /\ forall x, x ∈ m -> x ∈ ma
}.

(** ** The selector's loop invariants *)

(** During the first loop: every record lies at a merge-node id and holds
    assigned targets only, every assigned target is in some record, and no
    target is in two records. *)
Record sel_inv (n : nat) (st : state) : Prop := {
  sel_keys : forall k p, cluster_info st !! k = Some p -> (n <= k)%nat;
  sel_records : forall k p i,
      cluster_info st !! k = Some p -> i ∈ members p -> i ∈ assigned st;
  sel_assigned : forall i, i ∈ assigned st ->
      (i < n)%nat /\ exists k p, cluster_info st !! k = Some p /\ i ∈ members p;
  sel_disjoint : pairwise_disjoint (cluster_info st);
  sel_bound : forall ms, loop_members st = Some ms ->
      Forall (fun i => (i < n)%nat) ms
}.

(** During the second loop, after the indices below [j]: the records are
    those of the first loop plus one singleton for every unassigned index
    below [j]. *)
Record sweep_inv (n j : nat) (st : state) : Prop := {
  sw_keys : forall k p, cluster_info st !! k = Some p -> (n <= k)%nat \/ (k < j)%nat;
  sw_records : forall k p i,
      cluster_info st !! k = Some p -> i ∈ members p ->
      ((n <= k)%nat /\ i ∈ assigned st) \/ (i = k /\ (k < j)%nat /\ i ∉ assigned st);
  sw_assigned : forall i, i ∈ assigned st ->
      (i < n)%nat /\
      exists k p, (n <= k)%nat /\ cluster_info st !! k = Some p /\ i ∈ members p;
  sw_single : forall i, (i < j)%nat -> i ∉ assigned st ->
      exists p, cluster_info st !! i = Some p /\ members p = [i];
  sw_disjoint : pairwise_disjoint (cluster_info st);
  sw_bound : exists ms, loop_members st = Some ms /\
      Forall (fun i => (i < n)%nat) ms
}.

(** ** The selection on nested candidates *)

(** The test of lines 188-198 on a member list: a centre is found, and
    the largest distance of a member from it is below the break-even radius
    of the list's size. *)
Definition fits (coords : list vec) (seps : ndarray) (ms : list nat) : Prop :=
  exists centre cs d,
    get_centre ms coords seps = Ok (Pos centre) /\
    take_items coords ms = Ok cs /\
    np_max (map (centre_separation centre) cs) = Ok d /\
    d < Beam.get_rad (Rpower (INR (length ms)) (- 0.5)).

(** Candidate [g] passes the test and no other candidate that contains it
    does. *)
Definition outermost_fit (coords : list vec) (seps : ndarray)
    (all_clusters : gmap nat (list nat)) (g : nat) : Prop :=
  exists ms, all_clusters !! g = Some ms /\ fits coords seps ms /\
    forall h mh, all_clusters !! h = Some mh -> h <> g ->
      (forall x, x ∈ ms -> x ∈ mh) -> ~ fits coords seps mh.

(** Candidates as the decoder returns them for [n] targets: non-empty
    lists of valid indices at merge-node ids, nested or disjoint, the
    larger cluster at the larger id. *)
Record well_nested (n : nat) (all_clusters : gmap nat (list nat)) : Prop := {
  wn_keys : forall g m, all_clusters !! g = Some m ->
      (n <= g)%nat /\ m <> [] /\ Forall (fun i => (i < n)%nat) m;
  wn_nested : forall g1 g2 m1 m2,
      all_clusters !! g1 = Some m1 -> all_clusters !! g2 = Some m2 ->
      nested_or_disjoint m1 m2;
  wn_order : forall g1 g2 m1 m2,
      all_clusters !! g1 = Some m1 -> all_clusters !! g2 = Some m2 ->
      (forall x, x ∈ m1 -> x ∈ m2) -> (g1 <= g2)%nat
}.

(** The selector's invariant after the candidates [vis]: the records
    are those of the outermost fitting candidates among them, and the
    assigned targets are their members. *)
Record greedy_inv (coords : list vec) (seps : ndarray)
    (all_clusters : gmap nat (list nat)) (vis : list nat) (st : state) : Prop := {
  gr_records : forall g, is_Some (cluster_info st !! g) <->
      g ∈ vis /\ outermost_fit coords seps all_clusters g;
  gr_assigned : forall i, i ∈ assigned st <->
      exists g ms, is_Some (cluster_info st !! g) /\
                   all_clusters !! g = Some ms /\ i ∈ ms
}.

(** ** Example catalogues *)

Module Examples.

(** Two tight pairs, 0.01 degrees wide, 5 degrees apart on the equator. *)
Definition pairs_coords : list vec :=
  [SkyCoord_deg 0 0; SkyCoord_deg 0.01 0; SkyCoord_deg 5 0; SkyCoord_deg 5.01 0].

Definition pairs_labels : list string := ["a"; "b"; "c"; "d"]%string.

Definition pairs_linked : list linkage_row :=
  [ {| glob1 := 0; glob2 := 1; linkage_dist := 0.01; linkage_count := 2 |};
    {| glob1 := 2; glob2 := 3; linkage_dist := 0.01; linkage_count := 2 |};
    {| glob1 := 4; glob2 := 5; linkage_dist := 5.01; linkage_count := 4 |} ].

Definition pairs_clusters : gmap nat (list nat) :=
  <[6%nat := [0; 1; 2; 3]%nat]> (<[5%nat := [2; 3]%nat]> (<[4%nat := [0; 1]%nat]> ∅)).

(** A tight pair and one target 5 degrees away. *)
Definition lone_coords : list vec :=
  [SkyCoord_deg 0 0; SkyCoord_deg 0.01 0; SkyCoord_deg 5 0].

Definition lone_labels : list string := ["a"; "b"; "c"]%string.

Definition lone_linked : list linkage_row :=
  [ {| glob1 := 0; glob2 := 1; linkage_dist := 0.01; linkage_count := 2 |};
    {| glob1 := 3; glob2 := 2; linkage_dist := 5; linkage_count := 3 |} ].

Definition lone_clusters : gmap nat (list nat) :=
  <[4%nat := [0; 1; 2]%nat]> (<[3%nat := [0; 1]%nat]> ∅).

(** The record of an accepted pair of equatorial members [i], [j] at right
    ascensions [a] and [b]: the centre is their vector sum, and the
    multiplier comes from the larger of the two distances measured from
    it. *)
Definition pair_record (i j : nat) (a b : R) : pointing :=
  let centre := Vec.add (SkyCoord_deg a 0) (SkyCoord_deg b 0) in
  let d := Rmax (centre_separation centre (SkyCoord_deg a 0))
                (centre_separation centre (SkyCoord_deg b 0)) in
  {| members := [i; j];
     centroid := SkyScalar centre;
     int_time := / Beam.beam_fit (d * 60) ^ 2 / INR 2 |}.

Definition pairs_expected : gmap nat pointing :=
  <[4%nat := pair_record 0 1 0 0.01]> (<[5%nat := pair_record 2 3 5 5.01]> ∅).

(** What the code records for the lone target 2: the coordinates of
    targets 0 and 1, left in [members] by the first loop. *)
Definition lone_record : pointing :=
  {| members := [2%nat];
     centroid := SkyArray [SkyCoord_deg 0 0; SkyCoord_deg 0.01 0];
     int_time := 1 |}.

Definition lone_expected : gmap nat pointing :=
  <[2%nat := lone_record]> (<[3%nat := pair_record 0 1 0 0.01]> ∅).

(** Target 0 entered twice, as first and last member of a candidate
    cluster around its neighbour 0.01 degrees away. *)
Definition dup_coords : list vec :=
  [SkyCoord_deg 0 0; SkyCoord_deg 0.01 0; SkyCoord_deg 0 0].

Definition dup_clusters : gmap nat (list nat) :=
  <[4%nat := [0; 1; 2]%nat]> (<[3%nat := [0; 1]%nat]> ∅).

(** The two-pairs catalogue as a table; the row after the last target is
    the one [load_targets] leaves out. *)
Definition pairs_table : list target_row :=
  [ {| target := "a"; ra := 0; dec := 0 |};
    {| target := "b"; ra := 0.01; dec := 0 |};
    {| target := "c"; ra := 5; dec := 0 |};
    {| target := "d"; ra := 5.01; dec := 0 |};
    {| target := "e"; ra := 40; dec := 10 |} ]%string.

(** Two positions a quarter turn apart on the equator. *)
Definition quarter_coords : list vec :=
  [SkyCoord_deg 0 0; SkyCoord_deg 90 0].

End Examples.

(** * Facts *)

(** One step of evaluation through the error monad. *)
Ltac run_bind := cbn [mbind result_bind take_items].
Tactic Notation "run_bind" "in" hyp(H) := cbn [mbind result_bind take_items] in H.

(** ** Beam model *)

Section BeamFacts.
Import Beam.

Lemma ln2_pos : 0 < ln 2.
Proof. rewrite <- ln_1. apply ln_increasing; lra. Qed.

Lemma ln_nonpos (P : R) : 0 < P <= 1 -> ln P <= 0.
Proof.
  intros [Hp [Hlt | ->]].
  - left. rewrite <- ln_1. now apply ln_increasing.
  - rewrite ln_1. lra.
Qed.

Lemma neg_log2_nonneg (P : R) : 0 < P <= 1 -> 0 <= - ln P / ln 2.
Proof.
  intros HP. pose proof (ln_nonpos P HP). pose proof ln2_pos.
  apply Rmult_le_pos; [lra |]. left. now apply Rinv_0_lt_compat.
Qed.

Lemma beam_fit_at_get_rad_at (fwhm nu P : R) :
  fwhm <> 0 -> nu <> 0 -> 0 < P <= 1 ->
  beam_fit_at fwhm nu (get_rad_at fwhm nu P * 60) = P.
Proof.
  intros Hf Hn HP. unfold beam_fit_at, get_rad_at.
  pose proof (neg_log2_nonneg P HP) as Hs. pose proof ln2_pos as H2.
  replace (0.5 * fwhm * sqrt (- ln P / ln 2) / nu / 60 * 60 * nu / fwhm)
    with (0.5 * sqrt (- ln P / ln 2)) by (decimals; field; lra).
  replace ((0.5 * sqrt (- ln P / ln 2)) ^ 2)
    with (0.25 * (sqrt (- ln P / ln 2) * sqrt (- ln P / ln 2)))
    by (decimals; field).
  rewrite sqrt_sqrt by assumption.
  replace (- 4 * ln 2 * (0.25 * (- ln P / ln 2))) with (ln P)
    by (decimals; field; lra).
  apply exp_ln. lra.
Qed.

Lemma beam_fit_pos (x : R) : 0 < beam_fit x.
Proof. apply exp_pos. Qed.

End BeamFacts.

(** C5. For every [P] in (0, 1], the beam's forward map applied to its
    inverse map gives [P] back: [sensitivity_at (radius_for_sensitivity P)
    = P], the radius being handed over in degrees and converted as the
    selector does.  Over the reals the round trip is exact. *)
Theorem beam_round_trip (P : R) :
  0 < P <= 1 ->
  Beam.sensitivity_at (Beam.radius_for_sensitivity P) = P.
Proof.
  intros HP.
  unfold Beam.sensitivity_at, Beam.radius_for_sensitivity, Beam.beam_fit, Beam.get_rad.
  apply beam_fit_at_get_rad_at; [| | exact HP];
    unfold Beam.default_fwhm, Beam.default_nu; lra.
Qed.

Lemma beam_round_trip_half :
  0 < 0.5 <= 1 /\ Beam.sensitivity_at (Beam.radius_for_sensitivity 0.5) = 0.5.
Proof. split; [lra | apply (beam_round_trip 0.5); lra]. Defined.

(** ** Error results and array indexing *)

Lemma bind_Ok {A B} (r : result A) (k : A -> result B) (b : B) :
  r ≫= k = Ok b <-> exists a, r = Ok a /\ k a = Ok b.
Proof.
  destruct r as [a | e]; simpl.
  - split; [eauto | intros (a' & [= <-] & Hk); exact Hk].
  - split; [discriminate | intros (a' & [=] & _)].
Qed.

Lemma item_Ok {A} (arr : list A) (i : nat) :
  (i < length arr)%nat -> exists x, item arr i = Ok x /\ arr !! i = Some x.
Proof.
  intros Hi. unfold item.
  destruct (lookup_lt_is_Some_2 arr i Hi) as [x Hx]. rewrite Hx. eauto.
Qed.

Lemma item_Raise {A} (arr : list A) (i : nat) :
  (length arr <= i)%nat -> item arr i = Raise IndexError.
Proof. intros Hi. unfold item. now rewrite lookup_ge_None_2. Qed.

Lemma take_items_Ok {A} (arr : list A) (idx : list nat) :
  Forall (fun i => (i < length arr)%nat) idx ->
  exists xs, take_items arr idx = Ok xs /\ length xs = length idx.
Proof.
  induction 1 as [| i idx Hi _ (xs & Hxs & Hlen)]; simpl.
  - exists []. auto.
  - destruct (item_Ok arr i Hi) as (x & -> & _). simpl. rewrite Hxs. simpl.
    exists (x :: xs). simpl. auto.
Qed.

Lemma take_items_length {A} (arr : list A) (idx : list nat) (xs : list A) :
  take_items arr idx = Ok xs -> length xs = length idx.
Proof.
  revert xs. induction idx as [| i idx IH]; simpl; intros xs H.
  - now inversion H.
  - apply bind_Ok in H as (x & _ & H). apply bind_Ok in H as (ys & Hys & H).
    inversion H; subst. simpl. f_equal. now apply IH.
Qed.

Lemma take_items_in_range {A} (arr : list A) (idx : list nat) (xs : list A) :
  take_items arr idx = Ok xs -> Forall (fun i => (i < length arr)%nat) idx.
Proof.
  revert xs. induction idx as [| i idx IH]; simpl; intros xs H; [constructor |].
  apply bind_Ok in H as (x & Hx & H). apply bind_Ok in H as (ys & Hys & _).
  constructor; [| eauto].
  unfold item in Hx. destruct (arr !! i) eqn:E; [| discriminate].
  eapply lookup_lt_Some; eauto.
Qed.

Lemma forallb_lt (n : nat) (idx : list nat) :
  forallb (fun j => j <? n)%nat idx = true <-> Forall (fun i => (i < n)%nat) idx.
Proof.
  rewrite forallb_forall, Forall_forall. split; intros H x Hx.
  - apply Nat.ltb_lt, H. now apply list_elem_of_In.
  - apply Nat.ltb_lt, H. now apply list_elem_of_In.
Qed.

Lemma argmax_from_bound (l : list R) (best : R) (besti i : nat) :
  (besti < i)%nat -> (argmax_from best besti i l < i + length l)%nat.
Proof.
  revert best besti i. induction l as [| x l IH]; simpl; intros best besti i Hi.
  - lia.
  - destruct (Rlt_dec best x).
    + specialize (IH x i (S i)). lia.
    + specialize (IH best besti (S i)). lia.
Qed.

Lemma np_argmax_Ok (l : list R) :
  l <> [] -> exists k, np_argmax l = Ok k /\ (k < length l)%nat.
Proof.
  destruct l as [| x l]; [congruence | intros _]. simpl.
  eexists; split; [reflexivity |].
  pose proof (argmax_from_bound l x 0 1). lia.
Qed.

(** [np.argmax] gives the position of the first largest entry. *)
Lemma argmax_from_spec (l pre : list R) (best : R) (besti : nat) :
  pre !! besti = Some best ->
  (forall y, y ∈ pre -> y <= best) ->
  (forall j y, (j < besti)%nat -> pre !! j = Some y -> y < best) ->
  let k := argmax_from best besti (length pre) l in
  exists m, (pre ++ l) !! k = Some m /\
    (forall y, y ∈ pre ++ l -> y <= m) /\
    (forall j y, (j < k)%nat -> (pre ++ l) !! j = Some y -> y < m).
Proof.
  cbn zeta. revert pre best besti.
  induction l as [| x l IH]; intros pre best besti Hb Hle Hlt.
  - simpl. rewrite app_nil_r. eauto.
  - cbn [argmax_from]. destruct (Rlt_dec best x) as [Hx | Hx].
    + specialize (IH (pre ++ [x]) x (length pre)).
      rewrite length_app, Nat.add_1_r, <- app_assoc in IH. apply IH.
      * now rewrite list_lookup_middle.
      * intros y Hy. apply elem_of_app in Hy as [Hy | Hy].
        -- specialize (Hle y Hy). lra.
        -- apply list_elem_of_singleton in Hy. subst. lra.
      * intros j y Hj Hy. rewrite lookup_app_l in Hy by exact Hj.
        assert (y ∈ pre) by (eapply list_elem_of_lookup_2; eauto).
        specialize (Hle y H). lra.
    + specialize (IH (pre ++ [x]) best besti).
      rewrite length_app, Nat.add_1_r, <- app_assoc in IH. apply IH.
      * apply lookup_app_l_Some. exact Hb.
      * intros y Hy. apply elem_of_app in Hy as [Hy | Hy]; [now apply Hle |].
        apply list_elem_of_singleton in Hy. subst. lra.
      * intros j y Hj Hy. apply (Hlt j y Hj).
        rewrite lookup_app_l in Hy; [exact Hy |].
        apply lookup_lt_Some in Hb. lia.
Qed.

Lemma np_argmax_spec (l : list R) (k : nat) :
  np_argmax l = Ok k ->
  exists m, l !! k = Some m /\
    (forall y, y ∈ l -> y <= m) /\
    (forall j y, (j < k)%nat -> l !! j = Some y -> y < m).
Proof.
  destruct l as [| x l]; [discriminate |]. simpl. intros [= <-].
  apply (argmax_from_spec l [x] x 0).
  - reflexivity.
  - intros y Hy. apply list_elem_of_singleton in Hy. subst. lra.
  - intros j y Hj. lia.
Qed.

Lemma foldl_Rmax_ge (l : list R) (x : R) : x <= foldl Rmax x l.
Proof.
  revert x. induction l as [| y l IH]; simpl; intros x; [lra |].
  eapply Rle_trans; [apply (Rmax_l x y) | apply IH].
Qed.

Lemma foldl_Rmax_upper (l : list R) (x y : R) : y ∈ l -> y <= foldl Rmax x l.
Proof.
  revert x. induction l as [| z l IH]; simpl; intros x Hy.
  - inversion Hy.
  - apply elem_of_cons in Hy as [-> | Hy]; [| now apply IH].
    eapply Rle_trans; [apply (Rmax_r x z) | apply foldl_Rmax_ge].
Qed.

Lemma foldl_Rmax_elem (l : list R) (x : R) : foldl Rmax x l ∈ x :: l.
Proof.
  revert x. induction l as [| z l IH]; simpl; intros x; [left |].
  specialize (IH (Rmax x z)).
  apply elem_of_cons in IH as [IH | IH].
  - rewrite IH. unfold Rmax. destruct (Rle_dec x z); [right; left | left].
  - right. now right.
Qed.

Lemma np_max_is_max (l : list R) (d : R) : np_max l = Ok d -> is_max d l.
Proof.
  destruct l as [| x l]; simpl; [discriminate | intros [= <-]]. split.
  - apply foldl_Rmax_elem.
  - intros y Hy. apply elem_of_cons in Hy as [-> | Hy].
    + apply foldl_Rmax_ge.
    + now apply foldl_Rmax_upper.
Qed.

Lemma np_max_Ok (l : list R) : l <> [] -> exists d, np_max l = Ok d.
Proof. destruct l; [congruence | simpl; eauto]. Qed.

Lemma is_max_unique (l : list R) (d d' : R) : is_max d l -> is_max d' l -> d = d'.
Proof. intros [H1 H2] [H3 H4]. apply Rle_antisym; auto. Qed.

(** ** The enclosing-circle estimator *)

Lemma Vec_add_zero_r (v : vec) : Vec.add v Vec.zero = v.
Proof. destruct v as [[x y] z]. unfold Vec.add, Vec.zero. f_equal; [f_equal |]; ring. Qed.

Lemma calc_centroid_pair (u v : vec) : calc_centroid [u; v] = Vec.add u v.
Proof. unfold calc_centroid, Vec.sum. simpl. now rewrite Vec_add_zero_r. Qed.

Lemma take_subset_Ok (seps : ndarray) (n : nat) (ms : list nat) :
  separation_shape n seps -> Forall (fun i => (i < n)%nat) ms ->
  exists sub, (cols ← take_cols seps ms; take_rows cols ms) = Ok sub.
Proof.
  intros [Hr Hc] Hms. apply forallb_lt in Hms.
  unfold take_cols. rewrite Hc, Hms. simpl.
  unfold take_rows. simpl. rewrite Hr, Hms. eauto.
Qed.

Lemma take_subset_Raise (seps : ndarray) (n : nat) (ms : list nat) :
  separation_shape n seps -> ~ Forall (fun i => (i < n)%nat) ms ->
  (cols ← take_cols seps ms; take_rows cols ms) = Raise IndexError.
Proof.
  intros [Hr Hc] Hms. rewrite <- forallb_lt in Hms.
  apply not_true_is_false in Hms.
  unfold take_cols. rewrite Hc, Hms. reflexivity.
Qed.

(** With a matrix of the right shape and members in range, [get_centre]
    is the two-point centroid unless the farthest member lies strictly
    inside the member list, in which case it is the circumcentre. *)
Lemma get_centre_unfold (ms : list nat) (coords : list vec) (seps : ndarray)
    (m0 mlast k : nat) (u v : vec) (cs : list vec) :
  separation_shape (length coords) seps ->
  take_items coords ms = Ok cs ->
  first_item ms = Ok m0 -> last_item ms = Ok mlast ->
  item coords m0 = Ok u -> item coords mlast = Ok v ->
  np_argmax (map (centre_separation (Vec.add u v)) cs) = Ok k ->
  get_centre ms coords seps =
    if negb (k =? 0)%nat && negb (k =? length cs - 1)%nat then
      mmax ← item ms k;
      coords_3 ← take_items coords [m0; mmax; mlast];
      calc_circumcentre coords_3
    else Ok (Pos (Vec.add u v)).
Proof.
  intros Hshape Hcs Hm0 Hml Hu Hv Hk.
  pose proof (take_items_in_range _ _ _ Hcs) as Hrange.
  destruct (take_subset_Ok seps _ ms Hshape Hrange) as [sub Hsub].
  unfold get_centre.
  destruct (take_cols seps ms) as [cols |]; run_bind in Hsub; run_bind;
    [| discriminate].
  rewrite Hsub. run_bind. rewrite Hm0, Hml. run_bind. rewrite Hu, Hv. run_bind.
  rewrite Hcs. run_bind. rewrite calc_centroid_pair, Hk. run_bind.
  now rewrite length_map.
Qed.

Lemma last_item_Ok {A} (l : list A) :
  l <> [] -> exists x, last_item l = Ok x /\ x ∈ l.
Proof.
  intros Hl. unfold last_item.
  destruct (last l) as [x |] eqn:E.
  - exists x. split; [reflexivity |].
    apply last_Some in E as [l' ->]. apply elem_of_app. right. left.
  - apply last_None in E. contradiction.
Qed.

Lemma first_item_Ok {A} (l : list A) :
  l <> [] -> exists x, first_item l = Ok x /\ x ∈ l.
Proof.
  destruct l as [| x l]; [congruence | intros _].
  exists x. split; [reflexivity | left].
Qed.

Lemma calc_circumcentre_Ok (a b c : vec) : exists E, calc_circumcentre [a; b; c] = Ok E.
Proof.
  unfold calc_circumcentre. cbn [item lookup list_lookup]. run_bind.
  destruct (Req_dec_T _ _); eauto.
Qed.

(** [get_centre] returns a centre for every non-empty member list whose
    indices are in range. *)
Lemma get_centre_Ok (ms : list nat) (coords : list vec) (seps : ndarray) :
  separation_shape (length coords) seps ->
  ms <> [] -> Forall (fun i => (i < length coords)%nat) ms ->
  exists centre, get_centre ms coords seps = Ok centre.
Proof.
  intros Hshape Hne Hrange.
  destruct (take_items_Ok coords ms Hrange) as (cs & Hcs & Hlen).
  destruct (first_item_Ok ms Hne) as (m0 & Hm0 & Hin0).
  destruct (last_item_Ok ms Hne) as (ml & Hml & Hinl).
  rewrite Forall_forall in Hrange.
  destruct (item_Ok coords m0 (Hrange _ Hin0)) as (u & Hu & Hu').
  destruct (item_Ok coords ml (Hrange _ Hinl)) as (v & Hv & Hv').
  destruct (np_argmax_Ok (map (centre_separation (Vec.add u v)) cs)) as (k & Hk & Hklt).
  { destruct cs; [destruct ms; [congruence | discriminate] | discriminate]. }
  rewrite (get_centre_unfold ms coords seps m0 ml k u v cs) by assumption.
  destruct (negb (k =? 0)%nat && negb (k =? length cs - 1)%nat); [| eauto].
  rewrite length_map, Hlen in Hklt.
  destruct (item_Ok ms k Hklt) as (mm & Hmm & Hmm').
  rewrite Hmm. simpl. rewrite Hu. simpl.
  assert (Hin : mm ∈ ms) by (apply list_elem_of_lookup; eauto).
  destruct (item_Ok coords mm (Hrange _ Hin)) as (w & Hw & _).
  rewrite Hw. simpl. rewrite Hv. simpl.
  apply calc_circumcentre_Ok.
Qed.

(** C10. For every member list and coordinate set, any two separation
    matrices of that coordinate set (N x N arrays) give the same outcome of
    [get_centre]: the member-subset separations are computed and never
    used, so the cells of the matrix do not matter. *)
Theorem get_centre_ignores_seps (ms : list nat) (coords : list vec)
    (seps1 seps2 : ndarray) :
  separation_shape (length coords) seps1 ->
  separation_shape (length coords) seps2 ->
  get_centre ms coords seps1 = get_centre ms coords seps2.
Proof.
  intros [Hr1 Hc1] [Hr2 Hc2]. unfold get_centre, take_cols.
  rewrite Hc1, Hc2.
  destruct (forallb (fun j => j <? length coords)%nat ms) eqn:E; run_bind;
    [| reflexivity].
  unfold take_rows. cbn [nrows]. rewrite Hr1, Hr2, E. reflexivity.
Qed.

Lemma get_centre_witness :
  separation_shape 2 (np_empty 2 2) /\
  separation_shape 2 (set_row (np_empty 2 2) 0 [0; 90]) /\
  get_centre [0; 1]%nat [SkyCoord_deg 0 0; SkyCoord_deg 90 0] (np_empty 2 2) =
  get_centre [0; 1]%nat [SkyCoord_deg 0 0; SkyCoord_deg 90 0]
    (set_row (np_empty 2 2) 0 [0; 90]).
Proof.
  assert (H1 : separation_shape 2 (np_empty 2 2)) by (split; reflexivity).
  assert (H2 : separation_shape 2 (set_row (np_empty 2 2) 0 [0; 90]))
    by (split; reflexivity).
  split; [exact H1 | split; [exact H2 |]].
  exact (get_centre_ignores_seps [0; 1]%nat
           [SkyCoord_deg 0 0; SkyCoord_deg 90 0] _ _ H1 H2).
Defined.

(** ** The separation matrix *)

Lemma calc_separation_shape (coords : list vec) :
  separation_shape (length coords) (calc_separation coords).
Proof.
  unfold calc_separation.
  generalize (enumerate coords) as l.
  assert (H0 : separation_shape (length coords)
                 (np_empty (length coords) (length coords))) by (split; reflexivity).
  revert H0. generalize (np_empty (length coords) (length coords)) as seps.
  intros seps H0 l. revert seps H0.
  induction l as [| [i c] l IH]; intros seps H0; simpl; [exact H0 |].
  apply IH. destruct H0 as [Hr Hc]. split; simpl; assumption.
Qed.

(** ** One step of the greedy selector *)

Lemma overlaps_false (ms assigned : list nat) :
  overlaps ms assigned = false <-> (forall m, m ∈ ms -> m ∉ assigned).
Proof.
  unfold overlaps. split.
  - intros H m Hm Hin.
    assert (E : existsb (fun m => bool_decide (m ∈ assigned)) ms = true).
    { apply existsb_exists. exists m. split; [now apply list_elem_of_In |].
      now apply bool_decide_eq_true. }
    congruence.
  - intros H. apply not_true_is_false. intros E.
    apply existsb_exists in E as (m & Hm & Hb).
    apply bool_decide_eq_true in Hb. apply list_elem_of_In in Hm.
    exact (H m Hm Hb).
Qed.

Lemma overlaps_true (ms assigned : list nat) :
  overlaps ms assigned = true <-> (exists m, m ∈ ms /\ m ∈ assigned).
Proof.
  unfold overlaps. rewrite existsb_exists. split.
  - intros (m & Hm & Hb). exists m. split; [now apply list_elem_of_In |].
    now apply bool_decide_eq_true in Hb.
  - intros (m & Hm & Hb). exists m. split; [now apply list_elem_of_In |].
    now apply bool_decide_eq_true.
Qed.

(** What [select_cluster] does with a candidate none of whose members is
    assigned, in terms of the centre and the distances it computes. *)
Lemma select_cluster_unassigned (coords : list vec)
    (all_clusters : gmap nat (list nat)) (seps : ndarray) (st : state)
    (c_num : nat) (ms : list nat) (centre : vec) (cs : list vec) (d : R) :
  all_clusters !! c_num = Some ms ->
  overlaps ms (assigned st) = false ->
  get_centre ms coords seps = Ok (Pos centre) ->
  take_items coords ms = Ok cs ->
  np_max (map (centre_separation centre) cs) = Ok d ->
  select_cluster coords all_clusters seps st c_num =
    if Rlt_dec d (Beam.get_rad (Rpower (INR (length ms)) (- 0.5))) then
      Ok (accept (bind_members st ms) c_num ms centre
            (/ Beam.beam_fit (d * 60) ^ 2 / INR (length ms)))
    else Ok (bind_members st ms).
Proof.
  intros Hms Hov Hc Hcs Hd. unfold select_cluster, dict_get.
  rewrite Hms. run_bind. cbn [assigned bind_members].
  rewrite Hov, Hc. run_bind. rewrite Hcs. run_bind. rewrite Hd. run_bind.
  reflexivity.
Qed.

(** A NaN centre: the comparison with the break-even radius is false and
    the loop body ends like an ordinary rejection. *)
Lemma select_cluster_nan (coords : list vec)
    (all_clusters : gmap nat (list nat)) (seps : ndarray) (st : state)
    (c_num : nat) (ms : list nat) (cs : list vec) :
  all_clusters !! c_num = Some ms ->
  overlaps ms (assigned st) = false ->
  get_centre ms coords seps = Ok NaN ->
  take_items coords ms = Ok cs ->
  select_cluster coords all_clusters seps st c_num = Ok (bind_members st ms).
Proof.
  intros Hms Hov Hc Hcs. unfold select_cluster, dict_get.
  rewrite Hms. run_bind. cbn [assigned bind_members].
  rewrite Hov, Hc. run_bind. rewrite Hcs. run_bind. reflexivity.
Qed.

Lemma select_cluster_overlap (coords : list vec)
    (all_clusters : gmap nat (list nat)) (seps : ndarray) (st : state)
    (c_num : nat) (ms : list nat) :
  all_clusters !! c_num = Some ms ->
  overlaps ms (assigned st) = true ->
  select_cluster coords all_clusters seps st c_num = Ok (bind_members st ms).
Proof.
  intros Hms Hov. unfold select_cluster, dict_get.
  rewrite Hms. run_bind. cbn [assigned bind_members]. now rewrite Hov.
Qed.

(** C3. A candidate cluster whose members are all unassigned is accepted
    if and only if the largest member distance [d] from the estimated
    centre is strictly below the break-even radius
    [radius_for_sensitivity (num_members ^ -0.5)] (which a NaN distance
    never is); on acceptance all its members are appended to the assigned
    list and the record holds the multiplier
    [sensitivity_at d ^ -2 / num_members]; otherwise nothing is assigned or
    recorded. *)
Theorem select_cluster_accept_iff (coords : list vec)
    (all_clusters : gmap nat (list nat)) (seps : ndarray) (st : state)
    (c_num : nat) (ms : list nat) :
  separation_shape (length coords) seps ->
  all_clusters !! c_num = Some ms ->
  ms <> [] ->
  Forall (fun i => (i < length coords)%nat) ms ->
  (forall m, m ∈ ms -> m ∉ assigned st) ->
  exists (centre : position) (cs : list vec) (d : option R) (st' : state),
    get_centre ms coords seps = Ok centre /\
    take_items coords ms = Ok cs /\
    max_distance centre cs d /\
    select_cluster coords all_clusters seps st c_num = Ok st' /\
    let break_even :=
      Beam.radius_for_sensitivity (Rpower (INR (length ms)) (- 0.5)) in
    (clusters st' = clusters st ++ [c_num] <-> below d break_even) /\
    (below d break_even ->
       exists c r, centre = Pos c /\ d = Some r /\
       assigned st' = assigned st ++ ms /\
       (forall m, m ∈ ms -> m ∈ assigned st') /\
       cluster_info st' =
         <[c_num := {| members := ms; centroid := SkyScalar c;
                       int_time := / Beam.sensitivity_at r ^ 2 / INR (length ms) |}]>
           (cluster_info st)) /\
    (~ below d break_even ->
       assigned st' = assigned st /\ cluster_info st' = cluster_info st).
Proof.
  intros Hshape Hms Hne Hrange Hfree.
  destruct (get_centre_Ok ms coords seps Hshape Hne Hrange) as [centre Hc].
  destruct (take_items_Ok coords ms Hrange) as (cs & Hcs & Hlen).
  apply overlaps_false in Hfree.
  assert (Hgrow : clusters st ++ [c_num] <> clusters st).
  { intros E. apply (f_equal length) in E. rewrite length_app in E. simpl in E. lia. }
  unfold Beam.radius_for_sensitivity, Beam.sensitivity_at.
  destruct centre as [c |].
  - destruct (np_max_Ok (map (centre_separation c) cs)) as [d Hd].
    { destruct cs; [destruct ms; [congruence | discriminate] | discriminate]. }
    pose proof (select_cluster_unassigned coords all_clusters seps st c_num ms
                  c cs d Hms Hfree Hc Hcs Hd) as Hstep.
    destruct (Rlt_dec d (Beam.get_rad (Rpower (INR (length ms)) (- 0.5))))
      as [Hlt | Hge].
    + exists (Pos c), cs, (Some d), (accept (bind_members st ms) c_num ms c
              (/ Beam.beam_fit (d * 60) ^ 2 / INR (length ms))).
      split; [exact Hc |]. split; [exact Hcs |].
      split; [exact (np_max_is_max _ _ Hd) |]. split; [exact Hstep |].
      cbn zeta. split; [| split].
      * split; [intros _; exact Hlt | intros _; reflexivity].
      * intros _. exists c, d. split; [reflexivity |]. split; [reflexivity |].
        split; [reflexivity | split; [| reflexivity]].
        intros m Hm. simpl. apply elem_of_app. now right.
      * intros Hn. contradiction.
    + exists (Pos c), cs, (Some d), (bind_members st ms).
      split; [exact Hc |]. split; [exact Hcs |].
      split; [exact (np_max_is_max _ _ Hd) |]. split; [exact Hstep |].
      cbn zeta. split; [| split].
      * split; [| intros Hlt; contradiction].
        simpl. intros E. exfalso. now apply Hgrow.
      * intros Hlt. contradiction.
      * intros _. split; reflexivity.
  - exists NaN, cs, None, (bind_members st ms).
    split; [exact Hc |]. split; [exact Hcs |]. split; [exact I |].
    split; [now apply (select_cluster_nan coords all_clusters seps st c_num ms cs) |].
    cbn zeta. split; [| split].
    + split; [| intros []]. simpl. intros E. exfalso. now apply Hgrow.
    + intros [].
    + intros _. split; reflexivity.
Qed.

(** ** The cluster-tree decoder *)

Lemma add_glob_node (n : nat) (clusters : gmap nat (list nat)) (acc : list nat)
    (g : nat) (m : list nat) :
  node_members n clusters g = Some m ->
  add_glob n clusters acc g = Ok (acc ++ m).
Proof.
  unfold node_members, add_glob, dict_get.
  destruct (Z.of_nat g >? Z.of_nat n - 1)%Z.
  - intros ->. reflexivity.
  - intros [= <-]. reflexivity.
Qed.

Lemma extract_row_Ok (n k : nat) (clusters : gmap nat (list nat)) (r : linkage_row)
    (ma mb : list nat) :
  node_members n clusters (glob1 r) = Some ma ->
  node_members n clusters (glob2 r) = Some mb ->
  extract_row n clusters (k, r) = Ok (<[(k + n)%nat := ma ++ mb]> clusters).
Proof.
  intros Ha Hb. unfold extract_row. cbn [foldM].
  rewrite (add_glob_node _ _ _ _ _ Ha). run_bind.
  rewrite (add_glob_node _ _ _ _ _ Hb). run_bind. reflexivity.
Qed.

Lemma node_members_leaf (n : nat) (clusters : gmap nat (list nat)) (g : nat) :
  (g < n)%nat -> node_members n clusters g = Some [g].
Proof.
  intros Hg. unfold node_members.
  destruct (Z.gtb_spec (Z.of_nat g) (Z.of_nat n - 1)); [lia | reflexivity].
Qed.

Lemma node_members_merge (n : nat) (clusters : gmap nat (list nat)) (g : nat) :
  (n <= g)%nat -> node_members n clusters g = clusters !! g.
Proof.
  intros Hg. unfold node_members.
  destruct (Z.gtb_spec (Z.of_nat g) (Z.of_nat n - 1)); [reflexivity | lia].
Qed.

Lemma node_members_insert_ne (n : nat) (clusters : gmap nat (list nat))
    (g key : nat) (m : list nat) :
  g <> key -> node_members n (<[key := m]> clusters) g = node_members n clusters g.
Proof.
  intros Hne. unfold node_members.
  destruct (Z.of_nat g >? Z.of_nat n - 1)%Z; [| reflexivity].
  now apply lookup_insert_ne.
Qed.

Lemma concat_singletons (l : list nat) : concat ((fun i => [i]) <$> l) = l.
Proof. induction l as [| x l IH]; simpl; [reflexivity | f_equal; exact IH]. Qed.

Lemma fst_leaves (l : list nat) : fst <$> ((fun i => (i, [i])) <$> l) = l.
Proof. induction l as [| x l IH]; simpl; [reflexivity | f_equal; exact IH]. Qed.

Lemma snd_leaves (l : list nat) :
  snd <$> ((fun i => (i, [i])) <$> l) = (fun i => [i]) <$> l.
Proof. induction l as [| x l IH]; simpl; [reflexivity | f_equal; exact IH]. Qed.

Lemma decode_inv_init (n : nat) :
  decode_inv n 0 [] ∅ ((fun i => (i, [i])) <$> seq 0 n).
Proof.
  split.
  - rewrite fst_leaves. apply NoDup_seq.
  - intros g m Hin. apply list_elem_of_fmap in Hin as (i & [= -> ->] & Hi).
    apply elem_of_seq in Hi. split; [lia |]. split; [discriminate |].
    apply node_members_leaf. lia.
  - intros g Hg _. rewrite fst_leaves. apply elem_of_seq. lia.
  - now rewrite snd_leaves, concat_singletons.
  - rewrite length_fmap, length_seq. lia.
  - intros g. rewrite lookup_empty. split; [intros [x Hx]; discriminate | lia].
  - apply map_size_empty.
  - intros g m Hg. rewrite lookup_empty in Hg. discriminate.
  - now left.
Qed.

(** Two distinct unmerged nodes can be taken out of the active list. *)
Lemma active_pair (n k : nat) (used : list nat) (clusters : gmap nat (list nat))
    (act : list (nat * list nat)) (a b : nat) :
  decode_inv n k used clusters act ->
  (a < n + k)%nat -> (b < n + k)%nat -> a <> b -> a ∉ used -> b ∉ used ->
  exists ma mb rest, act ≡ₚ (a, ma) :: (b, mb) :: rest.
Proof.
  intros Inv Ha Hb Hab Hua Hub.
  pose proof (inv_unused _ _ _ _ _ Inv a Ha Hua) as Hina.
  pose proof (inv_unused _ _ _ _ _ Inv b Hb Hub) as Hinb.
  apply list_elem_of_fmap in Hina as ([a' ma] & Ea & Hina). simpl in Ea. subst a'.
  apply list_elem_of_fmap in Hinb as ([b' mb] & Eb & Hinb). simpl in Eb. subst b'.
  apply elem_of_Permutation in Hina as [act1 Hact1].
  rewrite Hact1 in Hinb. apply elem_of_cons in Hinb as [E | Hinb]; [congruence |].
  apply elem_of_Permutation in Hinb as [rest Hrest].
  exists ma, mb, rest. now rewrite Hact1, Hrest.
Qed.

(** One valid row: the two children are taken out of the active list and
    their node, holding the members of both, is put in. *)
Lemma decode_inv_step_explicit (n k : nat) (used : list nat)
    (clusters : gmap nat (list nat)) (act : list (nat * list nat)) (r : linkage_row) :
  decode_inv n k used clusters act ->
  (glob1 r < n + k)%nat -> (glob2 r < n + k)%nat -> glob1 r <> glob2 r ->
  glob1 r ∉ used -> glob2 r ∉ used ->
  exists ma mb rest,
    act ≡ₚ (glob1 r, ma) :: (glob2 r, mb) :: rest /\
    clusters !! (k + n)%nat = None /\
    extract_row n clusters (k, r) = Ok (<[(k + n)%nat := ma ++ mb]> clusters) /\
    decode_inv n (S k) (glob1 r :: glob2 r :: used)
      (<[(k + n)%nat := ma ++ mb]> clusters) ((n + k, ma ++ mb)%nat :: rest).
Proof.
  intros Inv Ha Hb Hab Hua Hub.
  destruct (active_pair n k used clusters act _ _ Inv Ha Hb Hab Hua Hub)
    as (ma & mb & rest & Hperm).
  assert (Hrest : forall g m, (g, m) ∈ rest -> (g, m) ∈ act).
  { intros g m Hg. rewrite Hperm. now do 2 right. }
  assert (Hina : (glob1 r, ma) ∈ act) by (rewrite Hperm; left).
  assert (Hinb : (glob2 r, mb) ∈ act) by (rewrite Hperm; right; left).
  destruct (inv_act _ _ _ _ _ Inv _ _ Hina) as (_ & Hnea & Hma).
  destruct (inv_act _ _ _ _ _ Inv _ _ Hinb) as (_ & Hneb & Hmb).
  pose proof (inv_nodup _ _ _ _ _ Inv) as Hnd.
  rewrite Hperm in Hnd. simpl in Hnd.
  apply NoDup_cons in Hnd as [Hna Hnd]. apply NoDup_cons in Hnd as [Hnb Hnd].
  pose proof (inv_leaves _ _ _ _ _ Inv) as Hleaves.
  rewrite Hperm in Hleaves. simpl in Hleaves.
  assert (Hfresh : clusters !! (k + n)%nat = None).
  { destruct (clusters !! (k + n)%nat) eqn:E; [| reflexivity].
    assert (Hs : is_Some (clusters !! (k + n)%nat)) by eauto.
    apply (inv_keys _ _ _ _ _ Inv) in Hs. lia. }
  exists ma, mb, rest.
  split; [exact Hperm |]. split; [exact Hfresh |].
  split; [now apply extract_row_Ok |].
  split.
  - simpl. apply NoDup_cons. split; [| exact Hnd].
    intros Hin. apply list_elem_of_fmap in Hin as ([g m] & Eg & Hg). simpl in Eg.
    subst g. apply Hrest in Hg.
    destruct (inv_act _ _ _ _ _ Inv _ _ Hg) as (Hlt & _). lia.
  - intros g m Hin. apply elem_of_cons in Hin as [[= -> ->] | Hin].
    + split; [lia |]. split.
      * destruct ma; [congruence | discriminate].
      * rewrite node_members_merge by lia.
        replace (n + k)%nat with (k + n)%nat by lia. apply lookup_insert_eq.
    + apply Hrest in Hin.
      destruct (inv_act _ _ _ _ _ Inv _ _ Hin) as (Hlt & Hne & Hm).
      split; [lia |]. split; [exact Hne |].
      rewrite node_members_insert_ne by lia. exact Hm.
  - intros g Hg Hnu. simpl.
    destruct (decide (g = n + k)%nat) as [-> | Hne]; [left |]. right.
    assert (Hg1 : g <> glob1 r) by (intros ->; apply Hnu; left).
    assert (Hg2 : g <> glob2 r) by (intros ->; apply Hnu; right; left).
    assert (Hgu : g ∉ used) by (intros Hu; apply Hnu; now do 2 right).
    assert (Hlt : (g < n + k)%nat) by lia.
    pose proof (inv_unused _ _ _ _ _ Inv g Hlt Hgu) as Hin.
    rewrite Hperm in Hin. simpl in Hin.
    apply elem_of_cons in Hin as [E | Hin]; [congruence |].
    apply elem_of_cons in Hin as [E | Hin]; [congruence | exact Hin].
  - simpl. rewrite <- Hleaves. now rewrite <- app_assoc.
  - pose proof (inv_count _ _ _ _ _ Inv) as Hc.
    apply Permutation_length in Hperm. simpl in Hperm |- *. lia.
  - intros g. destruct (decide (g = k + n)%nat) as [-> | Hne].
    + rewrite lookup_insert_eq. split; [lia | eauto].
    + rewrite lookup_insert_ne by congruence.
      rewrite (inv_keys _ _ _ _ _ Inv). lia.
  - rewrite map_size_insert_None by exact Hfresh.
    now rewrite (inv_size _ _ _ _ _ Inv).
  - assert (Hnew : ma ++ mb <> [] /\ NoDup (ma ++ mb) /\
                   Forall (fun i => (i < n)%nat) (ma ++ mb)).
    { split; [destruct ma; [congruence | discriminate] |].
      assert (Hsub : forall i, i ∈ ma ++ mb -> i ∈ seq 0 n).
      { intros i Hi. rewrite <- Hleaves.
        apply elem_of_app in Hi as [Hi | Hi]; apply elem_of_app; [now left |].
        right. apply elem_of_app. now left. }
      split.
      - assert (Hnd' : NoDup (ma ++ mb ++ concat (snd <$> rest))).
        { rewrite Hleaves. apply NoDup_seq. }
        rewrite app_assoc in Hnd'. now apply NoDup_app in Hnd' as (Hnd' & _).
      - apply Forall_forall. intros i Hi. apply Hsub, elem_of_seq in Hi. lia. }
    intros g m Hg. destruct (decide (g = k + n)%nat) as [-> | Hne].
    + rewrite lookup_insert_eq in Hg. injection Hg as <-. exact Hnew.
    + rewrite lookup_insert_ne in Hg by congruence.
      exact (inv_members _ _ _ _ _ Inv g m Hg).
  - right. exists (ma ++ mb). replace (n + S k - 1)%nat with (n + k)%nat by lia. left.
Qed.

Lemma decode_inv_step (n k : nat) (used : list nat) (clusters : gmap nat (list nat))
    (act : list (nat * list nat)) (r : linkage_row) :
  decode_inv n k used clusters act ->
  (glob1 r < n + k)%nat -> (glob2 r < n + k)%nat -> glob1 r <> glob2 r ->
  glob1 r ∉ used -> glob2 r ∉ used ->
  exists clusters' act',
    extract_row n clusters (k, r) = Ok clusters' /\
    decode_inv n (S k) (glob1 r :: glob2 r :: used) clusters' act'.
Proof.
  intros Inv Ha Hb Hab Hua Hub.
  destruct (decode_inv_step_explicit n k used clusters act r Inv Ha Hb Hab Hua Hub)
    as (ma & mb & rest & _ & _ & Hstep & Inv1).
  eauto.
Qed.

Lemma decode_rows (n : nat) (rows : list linkage_row) :
  forall (k : nat) (used : list nat) (clusters : gmap nat (list nat))
         (act : list (nat * list nat)),
    decode_inv n k used clusters act ->
    valid_rows n used k rows = true ->
    exists used' clusters' act',
      foldM (extract_row n) clusters (imap (fun i r => ((k + i)%nat, r)) rows)
        = Ok clusters' /\
      decode_inv n (k + length rows) used' clusters' act'.
Proof.
  induction rows as [| r rows IH]; intros k used clusters act Inv Hvalid.
  - exists used, clusters, act. simpl. rewrite Nat.add_0_r. auto.
  - cbn [valid_rows] in Hvalid.
    repeat (apply andb_prop in Hvalid as [Hvalid ?]).
    repeat match goal with
           | H : negb _ = true |- _ => apply negb_true_iff in H
           end.
    match goal with H : valid_rows _ _ _ _ = true |- _ => rename H into Hrest end.
    assert (Ha : (glob1 r < n + k)%nat) by now apply Nat.ltb_lt.
    assert (Hb : (glob2 r < n + k)%nat) by now apply Nat.ltb_lt.
    assert (Hab : glob1 r <> glob2 r) by now apply Nat.eqb_neq.
    assert (Hua : glob1 r ∉ used) by (eapply bool_decide_eq_false_1; eassumption).
    assert (Hub : glob2 r ∉ used) by (eapply bool_decide_eq_false_1; eassumption).
    destruct (decode_inv_step n k used clusters act r Inv Ha Hb Hab Hua Hub)
      as (clusters1 & act1 & Hstep & Inv1).
    destruct (IH (S k) _ clusters1 act1 Inv1 Hrest) as (used' & clusters' & act' & Hfold & Inv').
    exists used', clusters', act'. split.
    + rewrite imap_cons. cbn [foldM]. rewrite Nat.add_0_r, Hstep. run_bind.
      rewrite <- Hfold. f_equal. apply imap_ext. intros i x _. simpl.
      f_equal. lia.
    + simpl. replace (k + S (length rows))%nat with (S k + length rows)%nat by lia.
      exact Inv'.
Qed.

(** For a well-formed linkage matrix the decoder returns, and the final
    state satisfies the invariant. *)
Lemma extract_levels_inv {L} (rows : list linkage_row) (labels : list L) :
  valid_linkage (length labels) rows = true ->
  exists used clusters act,
    extract_levels rows labels = Ok clusters /\
    decode_inv (length labels) (length rows) used clusters act.
Proof.
  intros Hvalid. unfold valid_linkage in Hvalid.
  apply andb_prop in Hvalid as [_ Hvalid].
  destruct (decode_rows (length labels) rows 0 [] ∅ _
              (decode_inv_init (length labels)) Hvalid)
    as (used & clusters & act & Hfold & Inv).
  exists used, clusters, act. split; [| exact Inv].
  unfold extract_levels, enumerate. exact Hfold.
Qed.



(** ** The greedy selector as a whole *)

Lemma select_cluster_cases (coords : list vec) (all_clusters : gmap nat (list nat))
    (seps : ndarray) (st : state) (c_num : nat) (ms : list nat) :
  separation_shape (length coords) seps ->
  all_clusters !! c_num = Some ms ->
  ms <> [] -> Forall (fun i => (i < length coords)%nat) ms ->
  select_cluster coords all_clusters seps st c_num = Ok (bind_members st ms) \/
  (overlaps ms (assigned st) = false /\
   exists centre t,
     select_cluster coords all_clusters seps st c_num =
       Ok (accept (bind_members st ms) c_num ms centre t)).
Proof.
  intros Hshape Hms Hne Hrange.
  destruct (overlaps ms (assigned st)) eqn:Hov.
  - left. now apply select_cluster_overlap.
  - destruct (get_centre_Ok ms coords seps Hshape Hne Hrange) as [[centre |] Hc];
      destruct (take_items_Ok coords ms Hrange) as (cs & Hcs & Hlen).
    + destruct (np_max_Ok (map (centre_separation centre) cs)) as [d Hd].
      { destruct cs; [destruct ms; [congruence | discriminate] | discriminate]. }
      rewrite (select_cluster_unassigned coords all_clusters seps st c_num ms
                 centre cs d Hms Hov Hc Hcs Hd).
      destruct (Rlt_dec d _); [right | left; reflexivity].
      split; [reflexivity |]. eauto.
    + left. now apply (select_cluster_nan coords all_clusters seps st c_num ms cs).
Qed.

Lemma sel_inv_initial (coords : list vec) : sel_inv (length coords) (initial_state coords).
Proof.
  split; simpl.
  - intros k p H. rewrite lookup_empty in H. discriminate.
  - intros k p i H. rewrite lookup_empty in H. discriminate.
  - intros i H. inversion H.
  - intros k1 k2 p1 p2 i H. rewrite lookup_empty in H. discriminate.
  - discriminate.
Qed.

Lemma sel_inv_bind (n : nat) (st : state) (ms : list nat) :
  sel_inv n st -> Forall (fun i => (i < n)%nat) ms -> sel_inv n (bind_members st ms).
Proof.
  intros [H1 H2 H3 H4 H5] Hms. split; simpl; auto.
  intros ms' [= <-]. exact Hms.
Qed.

Lemma sel_inv_accept (n : nat) (st : state) (c_num : nat) (ms : list nat)
    (centre : vec) (t : R) :
  sel_inv n st -> (n <= c_num)%nat -> cluster_info st !! c_num = None ->
  Forall (fun i => (i < n)%nat) ms -> overlaps ms (assigned st) = false ->
  sel_inv n (accept (bind_members st ms) c_num ms centre t).
Proof.
  intros [H1 H2 H3 H4 H5] Hc Hfresh Hms Hov.
  rewrite overlaps_false in Hov. split; simpl.
  - intros k p. destruct (decide (k = c_num)) as [-> | Hne].
    + intros _. exact Hc.
    + rewrite lookup_insert_ne by congruence. apply H1.
  - intros k p i. destruct (decide (k = c_num)) as [-> | Hne].
    + rewrite lookup_insert_eq. intros [= <-]. simpl. intros Hi.
      apply elem_of_app. now right.
    + rewrite lookup_insert_ne by congruence. intros Hk Hi.
      apply elem_of_app. left. eapply H2; eauto.
  - intros i Hi. apply elem_of_app in Hi as [Hi | Hi].
    + destruct (H3 i Hi) as (Hlt & k & p & Hk & Hin). split; [exact Hlt |].
      exists k, p. split; [| exact Hin].
      rewrite lookup_insert_ne; [exact Hk | congruence].
    + rewrite Forall_forall in Hms. split; [now apply Hms |].
      eexists c_num, _. rewrite lookup_insert_eq. split; [reflexivity | exact Hi].
  - intros k1 k2 p1 p2 i.
    destruct (decide (k1 = c_num)) as [-> | Hn1];
      destruct (decide (k2 = c_num)) as [-> | Hn2]; [reflexivity | | |].
    + rewrite lookup_insert_eq, lookup_insert_ne by congruence.
      intros [= <-] Hk2. simpl. intros Hi1 Hi2. exfalso.
      exact (Hov i Hi1 (H2 _ _ _ Hk2 Hi2)).
    + rewrite lookup_insert_eq, lookup_insert_ne by congruence.
      intros Hk1 [= <-]. simpl. intros Hi1 Hi2. exfalso.
      exact (Hov i Hi2 (H2 _ _ _ Hk1 Hi1)).
    + rewrite !lookup_insert_ne by congruence. apply H4.
  - intros ms' [= <-]. exact Hms.
Qed.

Lemma cluster_info_accept_ne (st : state) (c_num k : nat) (ms : list nat)
    (centre : vec) (t : R) :
  k <> c_num ->
  cluster_info (accept (bind_members st ms) c_num ms centre t) !! k
    = cluster_info st !! k.
Proof. intros Hne. simpl. apply lookup_insert_ne. congruence. Qed.

(** The first loop, over any list of distinct candidate ids not yet
    recorded. *)
Lemma select_loop (coords : list vec) (all_clusters : gmap nat (list nat))
    (seps : ndarray) (keys : list nat) :
  separation_shape (length coords) seps ->
  (forall k ms, all_clusters !! k = Some ms ->
     (length coords <= k)%nat /\ ms <> [] /\
     Forall (fun i => (i < length coords)%nat) ms) ->
  forall st,
    NoDup keys ->
    (forall k, k ∈ keys -> is_Some (all_clusters !! k) /\ cluster_info st !! k = None) ->
    sel_inv (length coords) st ->
    exists st',
      foldM (select_cluster coords all_clusters seps) st keys = Ok st' /\
      sel_inv (length coords) st' /\
      (keys <> [] -> is_Some (loop_members st')).
Proof.
  intros Hshape Hall.
  induction keys as [| c keys IH]; intros st Hnd Hkeys Inv.
  - exists st. simpl. split; [reflexivity |]. split; [exact Inv | congruence].
  - apply NoDup_cons in Hnd as [Hc Hnd].
    destruct (Hkeys c ltac:(left)) as ([ms Hms] & Hfresh).
    destruct (Hall c ms Hms) as (Hge & Hne & Hrange).
    assert (Hstep : exists st1,
               select_cluster coords all_clusters seps st c = Ok st1 /\
               sel_inv (length coords) st1 /\ is_Some (loop_members st1) /\
               forall k, k <> c -> cluster_info st1 !! k = cluster_info st !! k).
    { destruct (select_cluster_cases coords all_clusters seps st c ms
                  Hshape Hms Hne Hrange) as [E | (Hov & centre & t & E)].
      - exists (bind_members st ms). split; [exact E |].
        split; [now apply sel_inv_bind |]. split; [simpl; eauto | reflexivity].
      - exists (accept (bind_members st ms) c ms centre t). split; [exact E |].
        split; [now apply sel_inv_accept |]. split; [simpl; eauto |].
        intros k Hk. now apply cluster_info_accept_ne. }
    destruct Hstep as (st1 & E1 & Inv1 & Hsome & Hsame).
    destruct (IH st1 Hnd) as (st' & E' & Inv' & Hsome'); [| exact Inv1 |].
    { intros k Hk. destruct (Hkeys k ltac:(now right)) as [Hk1 Hk2].
      split; [exact Hk1 |]. rewrite Hsame; [exact Hk2 |]. intros ->. contradiction. }
    exists st'. cbn [foldM]. rewrite E1. run_bind. split; [exact E' |].
    split; [exact Inv' |]. intros _.
    destruct keys as [| c' keys'].
    + simpl in E'. injection E' as <-. exact Hsome.
    + apply Hsome'. discriminate.
Qed.

Lemma sorted_keys_desc_elem {V} (d : gmap nat V) (k : nat) :
  k ∈ sorted_keys_desc d <-> is_Some (d !! k).
Proof.
  unfold sorted_keys_desc. rewrite merge_sort_Permutation.
  rewrite list_elem_of_fmap. split.
  - intros ([k' v] & -> & Hin). apply elem_of_map_to_list in Hin. simpl. eauto.
  - intros [v Hv]. exists (k, v). split; [reflexivity |].
    now apply elem_of_map_to_list.
Qed.

Lemma sorted_keys_desc_NoDup {V} (d : gmap nat V) : NoDup (sorted_keys_desc d).
Proof.
  unfold sorted_keys_desc. rewrite merge_sort_Permutation.
  apply NoDup_fst_map_to_list.
Qed.

Lemma sweep_inv_start (n : nat) (st : state) :
  sel_inv n st -> is_Some (loop_members st) -> sweep_inv n 0 st.
Proof.
  intros [H1 H2 H3 H4 H5] [ms Hms]. split.
  - intros k p Hk. left. eauto.
  - intros k p i Hk Hi. left. eauto.
  - intros i Hi. destruct (H3 i Hi) as (Hlt & k & p & Hk & Hin).
    split; [exact Hlt |]. exists k, p. eauto.
  - intros i Hi. lia.
  - exact H4.
  - exists ms. eauto.
Qed.

Lemma sweep_singleton_step (coords : list vec) (st : state) (j : nat) :
  (j < length coords)%nat ->
  sweep_inv (length coords) j st ->
  exists st', sweep_singleton coords st j = Ok st' /\
              sweep_inv (length coords) (S j) st'.
Proof.
  intros Hj [H1 H2 H3 H4 H5 H6]. unfold sweep_singleton.
  destruct (decide (j ∈ assigned st)) as [Hin | Hnin].
  - rewrite bool_decide_eq_true_2 by exact Hin. exists st. split; [reflexivity |].
    split; auto.
    + intros k p Hk. destruct (H1 k p Hk); [left | right]; lia.
    + intros k p i Hk Hi. destruct (H2 k p i Hk Hi) as [? | (? & ? & ?)];
        [left; assumption | right; repeat split; auto; lia].
    + intros i Hi Hni. apply H4; [| exact Hni].
      assert (i <> j) by (intros ->; contradiction). lia.
  - rewrite bool_decide_eq_false_2 by exact Hnin.
    destruct H6 as (ms & Hms & Hrange). rewrite Hms.
    destruct (take_items_Ok coords ms Hrange) as (cs & Hcs & _).
    rewrite Hcs. run_bind. eexists. split; [reflexivity |].
    split; simpl.
    + intros k p. destruct (decide (k = j)) as [-> | Hne]; [right; lia |].
      rewrite lookup_insert_ne by congruence. intros Hk.
      destruct (H1 k p Hk); [left | right]; lia.
    + intros k p i. destruct (decide (k = j)) as [-> | Hne].
      * rewrite lookup_insert_eq. intros [= <-]. simpl. intros Hi.
        apply list_elem_of_singleton in Hi. subst i. right. repeat split; auto.
      * rewrite lookup_insert_ne by congruence. intros Hk Hi.
        destruct (H2 k p i Hk Hi) as [? | (? & ? & ?)];
          [left; assumption | right; repeat split; auto; lia].
    + intros i Hi. destruct (H3 i Hi) as (Hlt & k & p & Hge & Hk & Hin).
      split; [exact Hlt |]. exists k, p. split; [exact Hge |].
      split; [| exact Hin]. rewrite lookup_insert_ne; [exact Hk | lia].
    + intros i Hi Hni. destruct (decide (i = j)) as [-> | Hne].
      * eexists. rewrite lookup_insert_eq. split; reflexivity.
      * rewrite lookup_insert_ne by congruence. apply H4; [lia | exact Hni].
    + intros k1 k2 p1 p2 i.
      destruct (decide (k1 = j)) as [-> | Hn1];
        destruct (decide (k2 = j)) as [-> | Hn2]; [reflexivity | | |].
      * rewrite lookup_insert_eq, lookup_insert_ne by congruence.
        intros [= <-] Hk2. simpl. intros Hi1 Hi2.
        apply list_elem_of_singleton in Hi1. subst i. exfalso.
        destruct (H2 k2 p2 j Hk2 Hi2) as [[_ ?] | (? & _)]; [contradiction | congruence].
      * rewrite lookup_insert_eq, lookup_insert_ne by congruence.
        intros Hk1 [= <-]. simpl. intros Hi1 Hi2.
        apply list_elem_of_singleton in Hi2. subst i. exfalso.
        destruct (H2 k1 p1 j Hk1 Hi1) as [[_ ?] | (? & _)]; [contradiction | congruence].
      * rewrite !lookup_insert_ne by congruence. apply H5.
    + exists ms. auto.
Qed.

Lemma sweep_loop (coords : list vec) (m : nat) :
  forall (j : nat) (st : state),
    (j + m = length coords)%nat ->
    sweep_inv (length coords) j st ->
    exists st', foldM (sweep_singleton coords) st (seq j m) = Ok st' /\
                sweep_inv (length coords) (length coords) st'.
Proof.
  induction m as [| m IH]; intros j st Hjm Inv.
  - exists st. simpl. split; [reflexivity |].
    replace (length coords) with j at 2 by lia. exact Inv.
  - destruct (sweep_singleton_step coords st j ltac:(lia) Inv) as (st1 & E1 & Inv1).
    destruct (IH (S j) st1 ltac:(lia) Inv1) as (st' & E' & Inv').
    exists st'. cbn [seq foldM]. rewrite E1. run_bind. auto.
Qed.

Lemma sweep_inv_partition (n : nat) (st : state) :
  sweep_inv n n st ->
  pairwise_disjoint (cluster_info st) /\ covers (cluster_info st) n.
Proof.
  intros [H1 H2 H3 H4 H5 H6]. split; [exact H5 |].
  intros i. split.
  - intros Hi. destruct (decide (i ∈ assigned st)) as [Hin | Hnin].
    + destruct (H3 i Hin) as (_ & k & p & _ & Hk & Hm). eauto.
    + destruct (H4 i Hi Hnin) as (p & Hk & Hm). exists i, p.
      split; [exact Hk |]. rewrite Hm. left.
  - intros (k & p & Hk & Hm).
    destruct (H2 k p i Hk Hm) as [[_ Hin] | (-> & Hlt & _)]; [| exact Hlt].
    now destruct (H3 i Hin).
Qed.

(** The selector returns a partition of the target indices whenever the
    candidate map is non-empty and every candidate is a non-empty list of
    valid indices stored at a merge-node id. *)
Lemma do_clustering_partition (coords : list vec)
    (all_clusters : gmap nat (list nat)) (seps : ndarray) :
  separation_shape (length coords) seps ->
  (exists k, is_Some (all_clusters !! k)) ->
  (forall k ms, all_clusters !! k = Some ms ->
     (length coords <= k)%nat /\ ms <> [] /\
     Forall (fun i => (i < length coords)%nat) ms) ->
  exists info,
    do_clustering coords all_clusters seps = Ok info /\
    pairwise_disjoint info /\ covers info (length coords).
Proof.
  intros Hshape [k0 Hk0] Hall.
  destruct (select_loop coords all_clusters seps (sorted_keys_desc all_clusters)
              Hshape Hall (initial_state coords))
    as (st1 & E1 & Inv1 & Hsome).
  - apply sorted_keys_desc_NoDup.
  - intros k Hk. apply sorted_keys_desc_elem in Hk. split; [exact Hk |].
    apply lookup_empty.
  - apply sel_inv_initial.
  - assert (Hne : sorted_keys_desc all_clusters <> []).
    { apply sorted_keys_desc_elem in Hk0. intros E. rewrite E in Hk0. inversion Hk0. }
    pose proof (sweep_inv_start _ _ Inv1 (Hsome Hne)) as Inv2.
    destruct (sweep_loop coords (length coords) 0 st1 ltac:(lia) Inv2)
      as (st2 & E2 & Inv3).
    exists (cluster_info st2). unfold do_clustering.
    rewrite E1. run_bind. rewrite E2. run_bind.
    split; [reflexivity |]. now apply sweep_inv_partition.
Qed.

(** C4. For every target list with at least 2 targets, run through the
    pipeline with a linkage matrix as scipy produces it, the member sets of
    the returned PointingRecords are pairwise disjoint and their union is
    exactly the set of input indices 0 .. N-1. *)
Theorem run_partition {L} (coords : list vec) (labels : list L)
    (linked : list linkage_row) :
  length labels = length coords ->
  (2 <= length coords)%nat ->
  valid_linkage (length coords) linked = true ->
  exists info,
    run coords labels linked = Ok info /\
    pairwise_disjoint info /\ covers info (length coords).
Proof.
  intros Hlen Hn Hvalid. rewrite <- Hlen in Hvalid.
  destruct (extract_levels_inv linked labels Hvalid)
    as (used & clusters & act & Hrun & Inv).
  unfold valid_linkage in Hvalid. apply andb_prop in Hvalid as [Hrows _].
  apply Nat.eqb_eq in Hrows.
  destruct (do_clustering_partition coords clusters (calc_separation coords))
    as (info & E & Hd & Hc).
  - apply calc_separation_shape.
  - exists (length labels). apply (inv_keys _ _ _ _ _ Inv). lia.
  - intros k ms Hk. rewrite <- Hlen. split.
    + assert (Hs : is_Some (clusters !! k)) by eauto.
      apply (inv_keys _ _ _ _ _ Inv) in Hs. lia.
    + destruct (inv_members _ _ _ _ _ Inv k ms Hk) as (? & _ & ?). auto.
  - exists info. unfold run. rewrite Hrun. run_bind. auto.
Qed.

Lemma run_partition_witness :
  exists info,
    run Examples.pairs_coords Examples.pairs_labels Examples.pairs_linked = Ok info /\
    pairwise_disjoint info /\ covers info 4.
Proof.
  apply (run_partition Examples.pairs_coords Examples.pairs_labels
           Examples.pairs_linked); [reflexivity | simpl; lia | reflexivity].
Defined.

(** ** Spherical geometry of two members *)

Lemma norm_unit_dot (u : vec) : Vec.norm u = 1 -> Vec.dot u u = 1.
Proof.
  unfold Vec.norm. intros H.
  assert (Hnn : 0 <= Vec.dot u u).
  { destruct u as [[x y] z]. simpl. nra. }
  rewrite <- (sqrt_sqrt (Vec.dot u u) Hnn), H. ring.
Qed.

Lemma dot_add_l (u v w : vec) :
  Vec.dot (Vec.add u v) w = Vec.dot u w + Vec.dot v w.
Proof.
  destruct u as [[ux uy] uz], v as [[vx vy] vz], w as [[wx wy] wz]. simpl. ring.
Qed.

Lemma dot_comm (u v : vec) : Vec.dot u v = Vec.dot v u.
Proof. destruct u as [[ux uy] uz], v as [[vx vy] vz]. simpl. ring. Qed.

Lemma dot_add_add (u v : vec) :
  Vec.dot (Vec.add u v) (Vec.add u v) = Vec.dot u u + 2 * Vec.dot u v + Vec.dot v v.
Proof. destruct u as [[ux uy] uz], v as [[vx vy] vz]. simpl. ring. Qed.

Lemma dot_self_zero (w : vec) : Vec.dot w w = 0 -> w = Vec.zero.
Proof.
  destruct w as [[x y] z]. simpl. intros H. unfold Vec.zero.
  assert (x = 0) by nra. assert (y = 0) by nra. assert (z = 0) by nra.
  now subst.
Qed.

(** The cosine between two unit vectors lies in (-1, 1] unless they are
    antipodal. *)
Lemma unit_dot_bounds (u v : vec) :
  Vec.norm u = 1 -> Vec.norm v = 1 -> Vec.add u v <> Vec.zero ->
  -1 < Vec.dot u v <= 1.
Proof.
  intros Hu Hv Hne. apply norm_unit_dot in Hu. apply norm_unit_dot in Hv.
  split.
  - assert (H : 0 <= Vec.dot (Vec.add u v) (Vec.add u v)).
    { destruct (Vec.add u v) as [[x y] z]. simpl. nra. }
    destruct H as [H | H].
    + rewrite dot_add_add in H. lra.
    + symmetry in H. apply dot_self_zero in H. contradiction.
  - assert (H : 0 <= Vec.dot u u - 2 * Vec.dot u v + Vec.dot v v).
    { clear. destruct u as [[ux uy] uz], v as [[vx vy] vz]. simpl.
      pose proof (Rle_0_sqr (ux - vx)). pose proof (Rle_0_sqr (uy - vy)).
      pose proof (Rle_0_sqr (uz - vz)). unfold Rsqr in *. lra. }
    lra.
Qed.

(** Half-angle formula in the form the centroid needs. *)
Lemma acos_half (c : R) :
  -1 < c <= 1 -> acos ((1 + c) / sqrt (2 + 2 * c)) = acos c / 2.
Proof.
  intros Hc.
  pose proof (acos_bound c) as Hb.
  assert (Hcos : cos (acos c) = c) by (apply cos_acos; lra).
  assert (Hpos : 0 < 2 + 2 * c) by lra.
  pose proof (sqrt_lt_R0 _ Hpos) as Hs.
  pose proof (sqrt_sqrt (2 + 2 * c) ltac:(lra)) as Hss.
  assert (Hhalf : 0 <= cos (acos c / 2)).
  { pose proof PI_RGT_0. apply cos_ge_0; lra. }
  assert (Hx : 0 <= (1 + c) / sqrt (2 + 2 * c)).
  { apply Rmult_le_pos; [lra |]. left. now apply Rinv_0_lt_compat. }
  assert (E : (1 + c) / sqrt (2 + 2 * c) = cos (acos c / 2)).
  { apply Rsqr_inj; [exact Hx | exact Hhalf |]. unfold Rsqr.
    pose proof (cos_2a_cos (acos c / 2)) as H2.
    replace (2 * (acos c / 2)) with (acos c) in H2 by field.
    rewrite Hcos in H2.
    assert (Hsq : (1 + c) / sqrt (2 + 2 * c) * ((1 + c) / sqrt (2 + 2 * c))
                  = (1 + c) * (1 + c) / (sqrt (2 + 2 * c) * sqrt (2 + 2 * c))).
    { field. lra. }
    rewrite Hsq, Hss. apply (Rmult_eq_reg_l 2); [| lra].
    replace (2 * ((1 + c) * (1 + c) / (2 + 2 * c))) with (1 + c) by (field; lra).
    lra. }
  rewrite E. apply acos_cos. pose proof PI_RGT_0. lra.
Qed.

(** The sum of two non-antipodal unit vectors points half-way between
    them. *)
Lemma separation_centroid_l (u v : vec) :
  Vec.norm u = 1 -> Vec.norm v = 1 -> Vec.add u v <> Vec.zero ->
  separation (Vec.add u v) u = separation u v / 2.
Proof.
  intros Hu Hv Hne.
  pose proof (unit_dot_bounds u v Hu Hv Hne) as Hc.
  unfold separation. rewrite Hu, Hv.
  unfold Vec.norm at 1. rewrite dot_add_add, dot_add_l.
  rewrite (norm_unit_dot u Hu), (norm_unit_dot v Hv), (dot_comm v u).
  replace (Vec.dot u v / (1 * 1)) with (Vec.dot u v) by field.
  replace (1 + 2 * Vec.dot u v + 1) with (2 + 2 * Vec.dot u v) by ring.
  replace ((1 + Vec.dot u v) / (sqrt (2 + 2 * Vec.dot u v) * 1))
    with ((1 + Vec.dot u v) / sqrt (2 + 2 * Vec.dot u v)).
  - rewrite acos_half by exact Hc. unfold to_degrees. pose proof PI_RGT_0. field. lra.
  - field. apply Rgt_not_eq. apply sqrt_lt_R0. lra.
Qed.

Lemma add_comm (u v : vec) : Vec.add u v = Vec.add v u.
Proof.
  destruct u as [[ux uy] uz], v as [[vx vy] vz]. unfold Vec.add.
  f_equal; [f_equal |]; ring.
Qed.

Lemma separation_sym (u v : vec) : separation u v = separation v u.
Proof. unfold separation. now rewrite dot_comm, (Rmult_comm (Vec.norm u)). Qed.

Lemma separation_centroid_r (u v : vec) :
  Vec.norm u = 1 -> Vec.norm v = 1 -> Vec.add u v <> Vec.zero ->
  separation (Vec.add u v) v = separation u v / 2.
Proof.
  intros Hu Hv Hne. rewrite add_comm, (separation_sym u v).
  apply separation_centroid_l; [exact Hv | exact Hu |]. now rewrite add_comm.
Qed.

Lemma SkyCoord_deg_unit (ra dec : R) : Vec.norm (SkyCoord_deg ra dec) = 1.
Proof.
  unfold Vec.norm, SkyCoord_deg. simpl.
  pose proof (sin2_cos2 (to_radians ra)) as Hr.
  pose proof (sin2_cos2 (to_radians dec)) as Hd. unfold Rsqr in Hr, Hd.
  replace (cos (to_radians dec) * cos (to_radians ra) *
             (cos (to_radians dec) * cos (to_radians ra)) +
           cos (to_radians dec) * sin (to_radians ra) *
             (cos (to_radians dec) * sin (to_radians ra)) +
           sin (to_radians dec) * sin (to_radians dec))
    with (cos (to_radians dec) * cos (to_radians dec) *
            (sin (to_radians ra) * sin (to_radians ra) +
             cos (to_radians ra) * cos (to_radians ra)) +
          sin (to_radians dec) * sin (to_radians dec)) by ring.
  rewrite Hr, Rmult_1_r, Rplus_comm, Hd. apply sqrt_1.
Qed.

Lemma take_items_pair {A} (arr : list A) (a b : nat) (x y : A) :
  arr !! a = Some x -> arr !! b = Some y -> take_items arr [a; b] = Ok [x; y].
Proof. intros Ha Hb. simpl. unfold item. now rewrite Ha, Hb. Qed.

Lemma item_lookup {A} (arr : list A) (i : nat) (x : A) :
  arr !! i = Some x -> item arr i = Ok x.
Proof. intros H. unfold item. now rewrite H. Qed.

Lemma dot_self_nonneg (w : vec) : 0 <= Vec.dot w w.
Proof. destruct w as [[x y] z]. simpl. nra. Qed.

Lemma norm_sq (w : vec) : Vec.norm w ^ 2 = Vec.dot w w.
Proof.
  unfold Vec.norm. simpl. rewrite Rmult_1_r. apply sqrt_sqrt, dot_self_nonneg.
Qed.

Lemma separation_nonneg (u v : vec) : 0 <= separation u v.
Proof.
  unfold separation, to_degrees. pose proof PI_RGT_0 as Hpi.
  pose proof (acos_bound (Vec.dot u v / (Vec.norm u * Vec.norm v))) as [H _].
  apply Rmult_le_pos; [nra |]. left. now apply Rinv_0_lt_compat.
Qed.

(** A cluster of two members: whichever of the two distances is the
    larger, the centre is the sum of the two positions. *)
Lemma get_centre_two (coords : list vec) (seps : ndarray) (a b : nat) (u v : vec) :
  separation_shape (length coords) seps ->
  coords !! a = Some u -> coords !! b = Some v ->
  get_centre [a; b] coords seps = Ok (Pos (Vec.add u v)).
Proof.
  intros Hshape Ha Hb.
  destruct (np_argmax_Ok (map (centre_separation (Vec.add u v)) [u; v]))
    as (k & Hk & Hklt); [discriminate |].
  rewrite (get_centre_unfold [a; b] coords seps a b k u v [u; v] Hshape
             (take_items_pair _ _ _ _ _ Ha Hb) eq_refl eq_refl
             (item_lookup _ _ _ Ha) (item_lookup _ _ _ Hb) Hk).
  simpl in Hklt. destruct k as [| [| k]]; [reflexivity | reflexivity | lia].
Qed.

(** When every member strictly between the first and the last is nearer
    to the sum of these two than some other member, the sum is the
    centre. *)
Lemma get_centre_ends (ms : list nat) (coords : list vec) (seps : ndarray)
    (m0 mlast : nat) (u v : vec) (cs : list vec) :
  separation_shape (length coords) seps ->
  take_items coords ms = Ok cs -> cs <> [] ->
  first_item ms = Ok m0 -> last_item ms = Ok mlast ->
  item coords m0 = Ok u -> item coords mlast = Ok v ->
  (forall k x, (0 < k < length cs - 1)%nat -> cs !! k = Some x ->
     exists y, y ∈ cs /\
       centre_separation (Vec.add u v) x < centre_separation (Vec.add u v) y) ->
  get_centre ms coords seps = Ok (Pos (Vec.add u v)).
Proof.
  intros Hshape Hcs Hne Hm0 Hml Hu Hv Hin.
  destruct (np_argmax_Ok (map (centre_separation (Vec.add u v)) cs))
    as (k & Hk & Hklt); [now destruct cs |].
  rewrite (get_centre_unfold ms coords seps m0 mlast k u v cs Hshape Hcs Hm0 Hml
             Hu Hv Hk).
  destruct (negb (k =? 0)%nat && negb (k =? length cs - 1)%nat) eqn:Eb;
    [exfalso | reflexivity].
  apply andb_prop in Eb as [E0 E1].
  apply negb_true_iff, Nat.eqb_neq in E0, E1.
  rewrite length_map in Hklt.
  destruct (lookup_lt_is_Some_2 cs k Hklt) as [x Hx].
  destruct (Hin k x ltac:(lia) Hx) as (y & Hy & Hlt).
  destruct (np_argmax_spec _ _ Hk) as (m & Hm & Hmax & _).
  rewrite list_lookup_fmap, Hx in Hm. injection Hm as <-.
  assert (Hle : centre_separation (Vec.add u v) y <= centre_separation (Vec.add u v) x).
  { apply Hmax. apply list_elem_of_fmap. eauto. }
  lra.
Qed.

(** ** Degenerate catalogues *)

Lemma sorted_keys_desc_empty {V} : sorted_keys_desc (∅ : gmap nat V) = [].
Proof. unfold sorted_keys_desc. now rewrite map_to_list_empty. Qed.



(** ** Positions on the celestial equator *)

Lemma to_radians_0 : to_radians 0 = 0.
Proof. unfold to_radians. field. Qed.

Lemma SkyCoord_deg_equator (a : R) :
  SkyCoord_deg a 0 = (cos (to_radians a), sin (to_radians a), 0).
Proof.
  unfold SkyCoord_deg. rewrite to_radians_0, cos_0, sin_0.
  f_equal. f_equal; ring.
Qed.

Lemma to_degrees_to_radians (x : R) : to_degrees (to_radians x) = x.
Proof. unfold to_degrees, to_radians. pose proof PI_RGT_0. field. lra. Qed.

(** The cosine of the angle between the sum of two equatorial positions
    less than 180 degrees apart and a third equatorial position. *)
Lemma equator_cosine (a b c : R) :
  -180 < a - b < 180 ->
  Vec.dot (Vec.add (SkyCoord_deg a 0) (SkyCoord_deg b 0)) (SkyCoord_deg c 0)
    / (Vec.norm (Vec.add (SkyCoord_deg a 0) (SkyCoord_deg b 0))
       * Vec.norm (SkyCoord_deg c 0))
  = cos (to_radians ((a + b) / 2 - c)).
Proof.
  intros Hab. rewrite (SkyCoord_deg_unit c 0), Rmult_1_r.
  rewrite !SkyCoord_deg_equator. unfold Vec.norm. simpl.
  set (A := to_radians a). set (B := to_radians b). set (C := to_radians c).
  assert (Hh : 0 < cos ((A - B) / 2)).
  { pose proof PI_RGT_0. unfold A, B, to_radians.
    apply cos_gt_0; apply (Rmult_lt_reg_r 360); try lra.
    - replace (- (PI / 2) * 360) with (- 180 * PI) by field.
      replace ((a * PI / 180 - b * PI / 180) / 2 * 360) with ((a - b) * PI) by field.
      nra.
    - replace (PI / 2 * 360) with (180 * PI) by field.
      replace ((a * PI / 180 - b * PI / 180) / 2 * 360) with ((a - b) * PI) by field.
      nra. }
  assert (Hdot : (cos A + cos B) * cos C + (sin A + sin B) * sin C + (0 + 0) * 0
                 = 2 * cos ((A - B) / 2) * cos (to_radians ((a + b) / 2 - c))).
  { replace (to_radians ((a + b) / 2 - c)) with (((A - C) + (B - C)) / 2)
      by (unfold A, B, C, to_radians; field).
    replace ((A - B) / 2) with (((A - C) - (B - C)) / 2) by field.
    rewrite <- form1, !cos_minus. ring. }
  assert (Hnorm : sqrt ((cos A + cos B) * (cos A + cos B)
                        + (sin A + sin B) * (sin A + sin B) + (0 + 0) * (0 + 0))
                  = 2 * cos ((A - B) / 2)).
  { apply sqrt_lem_1; [| lra |].
    - pose proof (Rle_0_sqr (cos A + cos B)). pose proof (Rle_0_sqr (sin A + sin B)).
      unfold Rsqr in *. lra.
    - pose proof (cos_2a_cos ((A - B) / 2)) as H2.
      replace (2 * ((A - B) / 2)) with (A - B) in H2 by field.
      rewrite cos_minus in H2.
      pose proof (sin2_cos2 A) as HA. pose proof (sin2_cos2 B) as HB.
      unfold Rsqr in HA, HB. nra. }
  rewrite Hdot, Hnorm. field. lra.
Qed.

Lemma separation_equator_below (a b c : R) :
  -180 < a - b < 180 -> 0 <= (a + b) / 2 - c <= 180 ->
  separation (Vec.add (SkyCoord_deg a 0) (SkyCoord_deg b 0)) (SkyCoord_deg c 0)
  = (a + b) / 2 - c.
Proof.
  intros Hab Hc. unfold separation. rewrite equator_cosine by exact Hab.
  rewrite acos_cos; [apply to_degrees_to_radians |].
  pose proof PI_RGT_0. unfold to_radians. split.
  - apply Rmult_le_pos; [apply Rmult_le_pos |]; lra.
  - apply (Rmult_le_reg_r 180); [lra |].
    replace (((a + b) / 2 - c) * PI / 180 * 180) with (((a + b) / 2 - c) * PI) by field.
    nra.
Qed.

Lemma separation_equator_above (a b c : R) :
  -180 < a - b < 180 -> 0 <= c - (a + b) / 2 <= 180 ->
  separation (Vec.add (SkyCoord_deg a 0) (SkyCoord_deg b 0)) (SkyCoord_deg c 0)
  = c - (a + b) / 2.
Proof.
  intros Hab Hc. unfold separation. rewrite equator_cosine by exact Hab.
  replace (to_radians ((a + b) / 2 - c)) with (- to_radians (c - (a + b) / 2))
    by (unfold to_radians; field).
  rewrite cos_neg, acos_cos; [apply to_degrees_to_radians |].
  pose proof PI_RGT_0. unfold to_radians. split.
  - apply Rmult_le_pos; [apply Rmult_le_pos |]; lra.
  - apply (Rmult_le_reg_r 180); [lra |].
    replace ((c - (a + b) / 2) * PI / 180 * 180) with ((c - (a + b) / 2) * PI) by field.
    nra.
Qed.

(** ** The frame of the centre *)

Lemma sin_abs_le (x : R) : Rabs (sin x) <= Rabs x.
Proof.
  destruct (Rle_dec 1 (Rabs x)) as [H1 | H1].
  - eapply Rle_trans; [| exact H1]. pose proof (SIN_bound x).
    unfold Rabs. destruct (Rcase_abs (sin x)); lra.
  - assert (Hx : -1 < x < 1).
    { unfold Rabs in H1. destruct (Rcase_abs x); lra. }
    pose proof PI2_1 as Hpi.
    destruct (Rtotal_order x 0) as [Hn | [-> | Hp]].
    + pose proof (sin_lt_x (- x) ltac:(lra)) as H. rewrite sin_neg in H.
      assert (sin x < 0) by (apply sin_lt_0_var; lra).
      unfold Rabs. destruct (Rcase_abs (sin x)), (Rcase_abs x); lra.
    + rewrite sin_0. lra.
    + pose proof (sin_lt_x x Hp) as H.
      assert (0 < sin x) by (apply sin_gt_0; lra).
      unfold Rabs. destruct (Rcase_abs (sin x)), (Rcase_abs x); lra.
Qed.

Lemma cos_ge_quad (x : R) : 1 - x ^ 2 / 2 <= cos x.
Proof.
  pose proof (cos_2a_sin (x / 2)) as H.
  replace (2 * (x / 2)) with x in H by field. rewrite H.
  pose proof (sin_abs_le (x / 2)) as Hs.
  assert (Hsq : sin (x / 2) * sin (x / 2) <= (x / 2) * (x / 2)).
  { apply Rsqr_le_abs_1 in Hs. exact Hs. }
  nra.
Qed.

Lemma sin_ge_lin (x : R) : 0 <= x <= 1 -> 5 / 6 * x <= sin x.
Proof.
  intros Hx. pose proof PI2_1.
  destruct (SIN x ltac:(lra) ltac:(lra)) as [Hlb _].
  unfold sin_lb, sin_approx in Hlb. cbn [sum_f_R0] in Hlb. unfold sin_term in Hlb.
  assert (F1 : INR (fact (2 * 0 + 1)) = 1) by (simpl; lra).
  assert (F3 : INR (fact (2 * 1 + 1)) = 6) by (simpl; lra).
  assert (F5 : INR (fact (2 * 2 + 1)) = 120).
  { rewrite INR_IZR_INZ. f_equal. }
  assert (F7 : INR (fact (2 * 3 + 1)) = 5040).
  { rewrite INR_IZR_INZ. f_equal. }
  rewrite F1, F3, F5, F7 in Hlb. simpl in Hlb.
  assert (H2 : x * x <= 1) by nra.
  assert (H3 : x * (x * (x * 1)) <= x) by nra.
  assert (H5 : 0 <= x * (x * (x * (x * (x * 1))))).
  { repeat apply Rmult_le_pos; lra. }
  assert (H7 : x * (x * (x * (x * (x * (x * (x * 1)))))) <= x * (x * (x * (x * (x * 1))))).
  { replace (x * (x * (x * (x * (x * (x * (x * 1)))))))
      with ((x * x) * (x * (x * (x * (x * (x * 1)))))) by ring.
    rewrite <- (Rmult_1_l (x * (x * (x * (x * (x * 1)))))) at 2.
    apply Rmult_le_compat_r; assumption. }
  lra.
Qed.

Lemma cauchy_schwarz (a b : vec) :
  Vec.dot a b * Vec.dot a b <= Vec.dot a a * Vec.dot b b.
Proof.
  pose proof (dot_self_nonneg (Vec.cross a b)) as H.
  destruct a as [[ax ay] az], b as [[bx by'] bz]. simpl in *. nra.
Qed.

Lemma norm_nonneg (a : vec) : 0 <= Vec.norm a.
Proof. apply sqrt_pos. Qed.

Lemma dot_le_norms (a b : vec) : Vec.dot a b <= Vec.norm a * Vec.norm b.
Proof.
  unfold Vec.norm. rewrite <- sqrt_mult by apply dot_self_nonneg.
  destruct (Rle_dec (Vec.dot a b) 0) as [Hn | Hp].
  - eapply Rle_trans; [exact Hn | apply sqrt_pos].
  - rewrite <- (sqrt_square (Vec.dot a b)) by lra.
    apply sqrt_le_1_alt, cauchy_schwarz.
Qed.

Lemma norm_triangle (a b : vec) : Vec.norm (Vec.add a b) <= Vec.norm a + Vec.norm b.
Proof.
  pose proof (norm_nonneg a) as Ha. pose proof (norm_nonneg b) as Hb.
  pose proof (dot_le_norms a b) as Hab.
  pose proof (norm_sq a) as Sa. pose proof (norm_sq b) as Sb.
  rewrite <- (sqrt_square (Vec.norm a + Vec.norm b)) by lra.
  unfold Vec.norm at 1. apply sqrt_le_1_alt.
  rewrite dot_add_add. simpl in Sa, Sb. nra.
Qed.

Lemma sub_add_sub (a b c : vec) : Vec.sub a c = Vec.add (Vec.sub a b) (Vec.sub b c).
Proof.
  destruct a as [[ax ay] az], b as [[bx by'] bz], c as [[cx cy] cz].
  unfold Vec.sub, Vec.add. f_equal; [f_equal |]; ring.
Qed.

(** The straight-line distance between two positions obeys the triangle
    inequality. *)
Lemma chord_triangle (a b c : vec) :
  Vec.norm (Vec.sub a c) <= Vec.norm (Vec.sub a b) + Vec.norm (Vec.sub b c).
Proof. rewrite (sub_add_sub a b c). apply norm_triangle. Qed.

Lemma norm_sub_comm (a b : vec) : Vec.norm (Vec.sub a b) = Vec.norm (Vec.sub b a).
Proof.
  unfold Vec.norm. f_equal.
  destruct a as [[ax ay] az], b as [[bx by'] bz]. simpl. ring.
Qed.

Lemma apply_transpose_mul (m n : matrix) (v : vec) :
  Mat.apply (Mat.transpose (Mat.mul m n)) v
  = Mat.apply (Mat.transpose n) (Mat.apply (Mat.transpose m) v).
Proof.
  destruct m as [[[[a b] c] [[d e] f]] [[g h] i]].
  destruct n as [[[[a' b'] c'] [[d' e'] f']] [[g' h'] i']].
  destruct v as [[x y] z].
  unfold Mat.mul, Mat.transpose, Mat.apply, Vec.dot. f_equal; [f_equal |]; ring.
Qed.

(** A rotation keeps the length of a vector. *)
Lemma rotation_dot (angle : R) (a : axis) (v : vec) :
  let w := Mat.apply (Mat.transpose (rotation_matrix angle a)) v in
  Vec.dot w w = Vec.dot v v.
Proof.
  cbn zeta. pose proof (sin2_cos2 (to_radians angle)) as H. unfold Rsqr in H.
  destruct v as [[x y] z].
  destruct a; unfold rotation_matrix, Mat.transpose, Mat.apply, Vec.dot; nra.
Qed.

(** A rotation moves a vector by no more than its angle times the length
    of the vector. *)
Lemma rotation_shift (angle : R) (a : axis) (v : vec) :
  Vec.norm (Vec.sub (Mat.apply (Mat.transpose (rotation_matrix angle a)) v) v)
  <= Rabs (to_radians angle) * Vec.norm v.
Proof.
  set (t := to_radians angle).
  pose proof (norm_nonneg v) as Hv. pose proof (Rabs_pos t) as Ht.
  rewrite <- (sqrt_square (Rabs t * Vec.norm v)) by nra.
  unfold Vec.norm at 1. apply sqrt_le_1_alt.
  pose proof (norm_sq v) as Sv. simpl in Sv.
  replace (Rabs t * Vec.norm v * (Rabs t * Vec.norm v))
    with (t * t * Vec.dot v v).
  2:{ assert (Hsq : Rabs t * Rabs t = t * t)
        by (unfold Rabs; destruct (Rcase_abs t); ring).
      rewrite <- Sv, <- Hsq. ring. }
  pose proof (sin2_cos2 t) as H. unfold Rsqr in H.
  pose proof (cos_ge_quad t) as Hc. simpl in Hc.
  pose proof (COS_bound t) as Hb.
  destruct v as [[x y] z].
  destruct a; unfold rotation_matrix, Mat.transpose, Mat.apply, Vec.sub, Vec.dot;
    fold t; simpl in *.
  - assert (E : (1 * x + 0 * y + 0 * z - x) * (1 * x + 0 * y + 0 * z - x) +
                (0 * x + cos t * y + - sin t * z - y) * (0 * x + cos t * y + - sin t * z - y) +
                (0 * x + sin t * y + cos t * z - z) * (0 * x + sin t * y + cos t * z - z)
                = 2 * (1 - cos t) * (y * y + z * z)) by nra.
    rewrite E. nra.
  - assert (E : (cos t * x + 0 * y + sin t * z - x) * (cos t * x + 0 * y + sin t * z - x) +
                (0 * x + 1 * y + 0 * z - y) * (0 * x + 1 * y + 0 * z - y) +
                (- sin t * x + 0 * y + cos t * z - z) * (- sin t * x + 0 * y + cos t * z - z)
                = 2 * (1 - cos t) * (x * x + z * z)) by nra.
    rewrite E. nra.
  - assert (E : (cos t * x + - sin t * y + 0 * z - x) * (cos t * x + - sin t * y + 0 * z - x) +
                (sin t * x + cos t * y + 0 * z - y) * (sin t * x + cos t * y + 0 * z - y) +
                (0 * x + 0 * y + 1 * z - z) * (0 * x + 0 * y + 1 * z - z)
                = 2 * (1 - cos t) * (x * x + y * y)) by nra.
    rewrite E. nra.
Qed.

(** The change of frame is three rotations in a row. *)
Lemma fk5_to_icrs_rotations (v : vec) :
  fk5_to_icrs v =
  Mat.apply (Mat.transpose (rotation_matrix da0 axis_z))
    (Mat.apply (Mat.transpose (rotation_matrix xi0 axis_y))
       (Mat.apply (Mat.transpose (rotation_matrix (- eta0) axis_x)) v)).
Proof.
  unfold fk5_to_icrs, icrs_to_fk5_matrix. now rewrite !apply_transpose_mul.
Qed.

Lemma norm_of_dot (u v : vec) : Vec.dot u u = Vec.dot v v -> Vec.norm u = Vec.norm v.
Proof. unfold Vec.norm. now intros ->. Qed.

Lemma fk5_to_icrs_norm (v : vec) : Vec.norm (fk5_to_icrs v) = Vec.norm v.
Proof.
  rewrite fk5_to_icrs_rotations. apply norm_of_dot.
  now rewrite !rotation_dot.
Qed.

(** The change of frame moves a direction by at most the three angles of
    the frame bias together, 51.9 milliarcseconds. *)
Lemma fk5_to_icrs_shift (v : vec) :
  Vec.norm (Vec.sub (fk5_to_icrs v) v) <= to_radians (51.9 / 3600000) * Vec.norm v.
Proof.
  rewrite fk5_to_icrs_rotations.
  set (v1 := Mat.apply (Mat.transpose (rotation_matrix (- eta0) axis_x)) v).
  set (v2 := Mat.apply (Mat.transpose (rotation_matrix xi0 axis_y)) v1).
  set (v3 := Mat.apply (Mat.transpose (rotation_matrix da0 axis_z)) v2).
  assert (N1 : Vec.norm v1 = Vec.norm v) by (apply norm_of_dot, rotation_dot).
  assert (N2 : Vec.norm v2 = Vec.norm v).
  { rewrite <- N1. apply norm_of_dot, rotation_dot. }
  pose proof (rotation_shift (- eta0) axis_x v) as S1. fold v1 in S1.
  pose proof (rotation_shift xi0 axis_y v1) as S2. fold v2 in S2. rewrite N1 in S2.
  pose proof (rotation_shift da0 axis_z v2) as S3. fold v3 in S3. rewrite N2 in S3.
  pose proof (chord_triangle v3 v2 v) as T1.
  pose proof (chord_triangle v2 v1 v) as T2.
  pose proof (norm_nonneg v) as Hv. pose proof PI_RGT_0 as Hpi.
  assert (A1 : Rabs (to_radians (- eta0)) = to_radians (19.9 / 3600000)).
  { unfold eta0, to_radians. rewrite Rabs_right; [decimals; field | decimals; nra]. }
  assert (A2 : Rabs (to_radians xi0) = to_radians (9.1 / 3600000)).
  { unfold xi0, to_radians. rewrite Rabs_right; [reflexivity | decimals; nra]. }
  assert (A3 : Rabs (to_radians da0) = to_radians (22.9 / 3600000)).
  { unfold da0, to_radians. rewrite Rabs_left; [decimals; field | decimals; nra]. }
  rewrite A1 in S1. rewrite A2 in S2. rewrite A3 in S3.
  replace (to_radians (51.9 / 3600000))
    with (to_radians (19.9 / 3600000) + to_radians (9.1 / 3600000)
          + to_radians (22.9 / 3600000))
    by (unfold to_radians; decimals; field).
  lra.
Qed.

Lemma centre_separation_nonneg (centre member : vec) :
  0 <= centre_separation centre member.
Proof. apply separation_nonneg. Qed.

(** *** Angles and chords *)

Lemma unit_dot_chord (a b : vec) :
  Vec.norm a = 1 -> Vec.norm b = 1 ->
  Vec.dot a b = 1 - Vec.norm (Vec.sub a b) ^ 2 / 2.
Proof.
  intros Ha Hb. apply norm_unit_dot in Ha, Hb. rewrite norm_sq.
  destruct a as [[ax ay] az], b as [[bx by'] bz]. simpl in *. nra.
Qed.

Lemma acos_le (x t : R) :
  -1 <= x <= 1 -> 0 <= t <= PI -> cos t <= x -> acos x <= t.
Proof.
  intros Hx Ht Hc. pose proof (acos_bound x) as Hb.
  destruct (Rle_dec (acos x) t) as [H | H]; [exact H | exfalso].
  pose proof (cos_decreasing_1 t (acos x) ltac:(lra) ltac:(lra) ltac:(lra)
                ltac:(lra) ltac:(lra)) as Hlt.
  rewrite cos_acos in Hlt by exact Hx. lra.
Qed.

Lemma acos_ge (x t : R) :
  -1 <= x <= 1 -> 0 <= t <= PI -> x <= cos t -> t <= acos x.
Proof.
  intros Hx Ht Hc. pose proof (acos_bound x) as Hb.
  destruct (Rle_dec t (acos x)) as [H | H]; [exact H | exfalso].
  pose proof (cos_decreasing_1 (acos x) t ltac:(lra) ltac:(lra) ltac:(lra)
                ltac:(lra) ltac:(lra)) as Hlt.
  rewrite cos_acos in Hlt by exact Hx. lra.
Qed.

Lemma acos_gt (x t : R) :
  -1 <= x <= 1 -> 0 <= t <= PI -> x < cos t -> t < acos x.
Proof.
  intros Hx Ht Hc. pose proof (acos_bound x) as Hb.
  destruct (Rlt_dec t (acos x)) as [H | H]; [exact H | exfalso].
  pose proof (cos_decr_1 (acos x) t ltac:(lra) ltac:(lra) ltac:(lra)
                ltac:(lra) ltac:(lra)) as Hle.
  rewrite cos_acos in Hle by exact Hx. lra.
Qed.

Lemma unit_dot_range (a b : vec) :
  Vec.norm a = 1 -> Vec.norm b = 1 -> -1 <= Vec.dot a b <= 1.
Proof.
  intros Ha Hb. apply norm_unit_dot in Ha, Hb.
  pose proof (dot_self_nonneg (Vec.add a b)) as H1.
  pose proof (dot_self_nonneg (Vec.sub a b)) as H2.
  destruct a as [[ax ay] az], b as [[bx by'] bz]. simpl in *. nra.
Qed.

(** For unit vectors, a chord no longer than that of the angle [t] means
    an angle no larger than [t], and conversely. *)
Lemma chord_angle_le (a b : vec) (t : R) :
  Vec.norm a = 1 -> Vec.norm b = 1 -> 0 <= t <= PI ->
  Vec.norm (Vec.sub a b) <= 2 * sin (t / 2) ->
  acos (Vec.dot a b) <= t.
Proof.
  intros Ha Hb Ht Hch.
  apply acos_le; [now apply unit_dot_range | exact Ht |].
  rewrite (unit_dot_chord a b Ha Hb).
  pose proof (cos_2a_sin (t / 2)) as H. replace (2 * (t / 2)) with t in H by field.
  rewrite H. pose proof (norm_nonneg (Vec.sub a b)). simpl. nra.
Qed.

Lemma chord_angle_ge (a b : vec) (t : R) :
  Vec.norm a = 1 -> Vec.norm b = 1 -> 0 <= t <= PI ->
  2 * sin (t / 2) <= Vec.norm (Vec.sub a b) ->
  t <= acos (Vec.dot a b).
Proof.
  intros Ha Hb Ht Hch.
  apply acos_ge; [now apply unit_dot_range | exact Ht |].
  rewrite (unit_dot_chord a b Ha Hb).
  pose proof (cos_2a_sin (t / 2)) as H. replace (2 * (t / 2)) with t in H by field.
  rewrite H.
  assert (0 <= sin (t / 2)) by (apply sin_ge_0; lra).
  simpl. nra.
Qed.

(** The separation depends on the direction of the centre only. *)
Lemma separation_scale_l (k : R) (c w : vec) :
  0 < k -> separation (Vec.scale k c) w = separation c w.
Proof.
  intros Hk. unfold separation. f_equal. f_equal.
  assert (Hn : Vec.norm (Vec.scale k c) = k * Vec.norm c).
  { pose proof (norm_nonneg c) as Hc. pose proof (norm_sq c) as Sc. simpl in Sc.
    unfold Vec.norm at 1. apply sqrt_lem_1; [apply dot_self_nonneg | nra |].
    replace (k * Vec.norm c * (k * Vec.norm c))
      with (k * k * (Vec.norm c * (Vec.norm c * 1))) by ring.
    rewrite Sc. destruct c as [[x y] z]. simpl. ring. }
  rewrite Hn.
  replace (Vec.dot (Vec.scale k c) w) with (k * Vec.dot c w)
    by (destruct c as [[x y] z], w as [[wx wy] wz]; simpl; ring).
  destruct (Req_dec (Vec.norm c * Vec.norm w) 0) as [E | E].
  - replace (k * Vec.norm c * Vec.norm w) with (k * (Vec.norm c * Vec.norm w)) by ring.
    rewrite E, Rmult_0_r. unfold Rdiv. rewrite Rinv_0. ring.
  - assert (Hc : Vec.norm c <> 0) by (intros E'; apply E; rewrite E'; ring).
    assert (Hw : Vec.norm w <> 0) by (intros E'; apply E; rewrite E'; ring).
    field. repeat split; try assumption; lra.
Qed.

Lemma separation_unit (a b : vec) :
  Vec.norm a = 1 -> Vec.norm b = 1 -> separation a b = to_degrees (acos (Vec.dot a b)).
Proof.
  intros Ha Hb. unfold separation. rewrite Ha, Hb. do 2 f_equal. field.
Qed.

(** *** Equatorial members, seen from a centre in the other frame *)

Lemma equator_sum (a b : R) :
  -180 < a - b < 180 ->
  0 < 2 * cos (to_radians ((a - b) / 2)) /\
  Vec.add (SkyCoord_deg a 0) (SkyCoord_deg b 0)
  = Vec.scale (2 * cos (to_radians ((a - b) / 2))) (SkyCoord_deg ((a + b) / 2) 0).
Proof.
  intros Hab. split.
  - pose proof PI_RGT_0. apply Rmult_lt_0_compat; [lra |].
    unfold to_radians. apply cos_gt_0; apply (Rmult_lt_reg_r 360); try lra.
    + replace (- (PI / 2) * 360) with (- 180 * PI) by field.
      replace ((a - b) / 2 * PI / 180 * 360) with ((a - b) * PI) by field.
      nra.
    + replace (PI / 2 * 360) with (180 * PI) by field.
      replace ((a - b) / 2 * PI / 180 * 360) with ((a - b) * PI) by field.
      nra.
  - rewrite !SkyCoord_deg_equator. unfold Vec.add, Vec.scale.
    replace (to_radians ((a - b) / 2)) with ((to_radians a - to_radians b) / 2)
      by (unfold to_radians; field).
    replace (to_radians ((a + b) / 2)) with ((to_radians a + to_radians b) / 2)
      by (unfold to_radians; field).
    rewrite <- form1, <- form3. f_equal. ring.
Qed.

Lemma equator_chord (g c : R) :
  Rabs (g - c) <= 360 ->
  Vec.norm (Vec.sub (SkyCoord_deg g 0) (SkyCoord_deg c 0))
  = 2 * sin (to_radians (Rabs (g - c)) / 2).
Proof.
  intros Hgc. pose proof PI_RGT_0 as Hpi. pose proof (Rabs_pos (g - c)) as H0.
  assert (Hs : 0 <= sin (to_radians (Rabs (g - c)) / 2)).
  { unfold to_radians. apply sin_ge_0.
    - apply Rmult_le_pos; [| lra]. apply Rmult_le_pos; [| lra]. nra.
    - apply (Rmult_le_reg_r 360); [lra |].
      replace (Rabs (g - c) * PI / 180 / 2 * 360) with (Rabs (g - c) * PI) by field.
      nra. }
  rewrite !SkyCoord_deg_equator. unfold Vec.norm, Vec.sub, Vec.dot.
  set (G := to_radians g). set (C := to_radians c).
  apply sqrt_lem_1; [| lra |].
  { pose proof (Rle_0_sqr (cos G - cos C)). pose proof (Rle_0_sqr (sin G - sin C)).
    unfold Rsqr in *. lra. }
  assert (E : sin (to_radians (Rabs (g - c)) / 2) * sin (to_radians (Rabs (g - c)) / 2)
              = sin ((G - C) / 2) * sin ((G - C) / 2)).
  { unfold Rabs. destruct (Rcase_abs (g - c)).
    - replace (to_radians (- (g - c)) / 2) with (- ((G - C) / 2))
        by (unfold G, C, to_radians; field).
      rewrite sin_neg. ring.
    - replace (to_radians (g - c) / 2) with ((G - C) / 2)
        by (unfold G, C, to_radians; field).
      reflexivity. }
  pose proof (cos_2a_sin ((G - C) / 2)) as H2.
  replace (2 * ((G - C) / 2)) with (G - C) in H2 by field.
  rewrite cos_minus in H2.
  pose proof (sin2_cos2 G) as HG. pose proof (sin2_cos2 C) as HC.
  unfold Rsqr in HG, HC. nra.
Qed.

(** A step of 0.00002 degrees in the angle changes the chord by more than
    the frame bias can, for angles up to 10 degrees. *)
Lemma chord_step (p : R) :
  0 <= p <= to_radians 10 ->
  to_radians (51.9 / 3600000)
  <= 2 * sin ((p + to_radians 0.00002) / 2) - 2 * sin (p / 2).
Proof.
  intros Hp. pose proof PI_RGT_0 as Hpi. pose proof PI_4 as Hpi4.
  set (d := to_radians 0.00002) in *.
  assert (Hd : d = 0.00002 * PI / 180) by reflexivity.
  assert (Hd0 : 0 < d) by (rewrite Hd; decimals; nra).
  assert (Hd1 : d <= 0.000001) by (rewrite Hd; decimals; nra).
  assert (Hp1 : p <= 0.23) by (unfold to_radians in Hp; decimals; nra).
  rewrite <- Rmult_minus_distr_l, form4.
  replace (((p + d) / 2 + p / 2) / 2) with (p / 2 + d / 4) by field.
  replace (((p + d) / 2 - p / 2) / 2) with (d / 4) by field.
  pose proof (cos_ge_quad (p / 2 + d / 4)) as Hc.
  pose proof (sin_ge_lin (d / 4) ltac:(lra)) as Hs.
  assert (Hc' : 0.99 <= cos (p / 2 + d / 4)) by (simpl in Hc; decimals; nra).
  assert (Hs0 : 0 <= 5 / 6 * (d / 4)) by lra.
  assert (Hprod : 0.99 * (5 / 6 * (d / 4)) <= cos (p / 2 + d / 4) * sin (d / 4)).
  { apply Rmult_le_compat; lra. }
  unfold to_radians. rewrite Hd in Hprod |- *. decimals. nra.
Qed.

Lemma to_degrees_le (x y : R) : x <= y -> to_degrees x <= to_degrees y.
Proof.
  intros H. unfold to_degrees. pose proof PI_RGT_0.
  apply Rmult_le_compat_r; [left; now apply Rinv_0_lt_compat | lra].
Qed.

(** The distance the code measures from the sum of two equatorial members
    to an equatorial member [c]: the difference in right ascension, within
    0.00002 degrees. *)
Lemma centre_separation_equator (a b c : R) :
  -180 < a - b < 180 -> Rabs ((a + b) / 2 - c) <= 10 ->
  Rabs (centre_separation (Vec.add (SkyCoord_deg a 0) (SkyCoord_deg b 0))
          (SkyCoord_deg c 0) - Rabs ((a + b) / 2 - c)) <= 0.00002.
Proof.
  intros Hab Hc. pose proof PI_RGT_0 as Hpi. pose proof PI_4 as Hpi4.
  pose proof PI2_1 as Hpi2.
  destruct (equator_sum a b Hab) as [Hk Hsum].
  unfold centre_separation. rewrite Hsum, separation_scale_l by exact Hk.
  set (g := (a + b) / 2) in *. set (t := Rabs (g - c)) in *.
  set (u := SkyCoord_deg g 0). set (w := SkyCoord_deg c 0).
  set (w' := fk5_to_icrs w).
  assert (Hu : Vec.norm u = 1) by apply SkyCoord_deg_unit.
  assert (Hw : Vec.norm w = 1) by apply SkyCoord_deg_unit.
  assert (Hw' : Vec.norm w' = 1) by (unfold w'; now rewrite fk5_to_icrs_norm).
  rewrite (separation_unit u w' Hu Hw').
  pose proof (fk5_to_icrs_shift w) as Hshift. fold w' in Hshift.
  rewrite Hw, Rmult_1_r in Hshift.
  pose proof (chord_triangle u w w') as T1. pose proof (chord_triangle u w' w) as T2.
  rewrite (norm_sub_comm w w') in T1.
  pose proof (equator_chord g c ltac:(fold t; lra)) as Hch. fold t u w in Hch.
  pose proof (Rabs_pos (g - c)) as Ht0. fold t in Ht0.
  assert (Htr : 0 <= to_radians t <= to_radians 10).
  { unfold to_radians. split; [| nra]. apply Rmult_le_pos; [nra | lra]. }
  assert (Hd : to_radians 0.00002 <= 0.000001).
  { unfold to_radians. decimals. nra. }
  assert (Hd0 : 0 < to_radians 0.00002) by (unfold to_radians; decimals; nra).
  assert (H10 : to_radians 10 <= 0.23) by (unfold to_radians; nra).
  assert (Hupper : to_degrees (acos (Vec.dot u w')) <= t + 0.00002).
  { rewrite <- (to_degrees_to_radians (t + 0.00002)). apply to_degrees_le.
    replace (to_radians (t + 0.00002)) with (to_radians t + to_radians 0.00002)
      by (unfold to_radians; field).
    apply chord_angle_le; [exact Hu | exact Hw' | lra |].
    pose proof (chord_step (to_radians t) Htr). lra. }
  assert (Hlower : t - 0.00002 <= to_degrees (acos (Vec.dot u w'))).
  { destruct (Rle_dec t 0.00002) as [Hsmall | Hbig].
    - pose proof (acos_bound (Vec.dot u w')) as Hb.
      pose proof (to_degrees_le 0 _ (proj1 Hb)) as H0.
      unfold to_degrees at 1 in H0. lra.
    - rewrite <- (to_degrees_to_radians (t - 0.00002)). apply to_degrees_le.
      replace (to_radians (t - 0.00002)) with (to_radians t - to_radians 0.00002)
        by (unfold to_radians; field).
      assert (Hpos : 0 <= to_radians t - to_radians 0.00002).
      { unfold to_radians. decimals. nra. }
      apply chord_angle_ge; [exact Hu | exact Hw' | lra |].
      pose proof (chord_step (to_radians t - to_radians 0.00002) ltac:(lra)) as Hs.
      replace (to_radians t - to_radians 0.00002 + to_radians 0.00002)
        with (to_radians t) in Hs by ring.
      lra. }
  unfold Rabs at 1. destruct (Rcase_abs _); lra.
Qed.

(** The same, with the difference in right ascension given as a number
    [t]. *)
Lemma equator_distance (a b c t : R) :
  -180 < a - b < 180 -> 0 <= t <= 10 ->
  (a + b) / 2 - c = t \/ c - (a + b) / 2 = t ->
  t - 0.00002
  <= centre_separation (Vec.add (SkyCoord_deg a 0) (SkyCoord_deg b 0)) (SkyCoord_deg c 0)
  <= t + 0.00002.
Proof.
  intros Hab Ht Hc.
  assert (E : Rabs ((a + b) / 2 - c) = t).
  { unfold Rabs. destruct (Rcase_abs _); lra. }
  pose proof (centre_separation_equator a b c Hab ltac:(lra)) as H.
  rewrite E in H. unfold Rabs in H. destruct (Rcase_abs _); lra.
Qed.

(** The catalogue position at right ascension 0 on the equator, in ICRS. *)
Lemma fk5_to_icrs_origin :
  fk5_to_icrs (SkyCoord_deg 0 0)
  = (cos (to_radians xi0) * cos (to_radians da0),
     cos (to_radians xi0) * sin (to_radians da0),
     - sin (to_radians xi0)).
Proof.
  rewrite SkyCoord_deg_equator, to_radians_0, cos_0, sin_0.
  unfold fk5_to_icrs, icrs_to_fk5_matrix, rotation_matrix, Mat.mul, Mat.transpose,
    Mat.apply, Vec.dot.
  f_equal; [f_equal |]; ring.
Qed.

(** Seen from the sum of the positions at right ascension 0 and 90 on the
    equator, the first lies farther than 45 degrees away. *)
Lemma quarter_pair_bias :
  45 < centre_separation (Vec.add (SkyCoord_deg 0 0) (SkyCoord_deg 90 0))
         (SkyCoord_deg 0 0).
Proof.
  pose proof PI_RGT_0 as Hpi. pose proof PI2_1 as Hpi2. pose proof PI_4 as Hpi4.
  destruct (equator_sum 0 90 ltac:(lra)) as [Hk Hsum].
  unfold centre_separation. rewrite Hsum, separation_scale_l by exact Hk.
  replace ((0 + 90) / 2) with 45 by field.
  assert (Hu : Vec.norm (SkyCoord_deg 45 0) = 1) by apply SkyCoord_deg_unit.
  assert (Hw : Vec.norm (fk5_to_icrs (SkyCoord_deg 0 0)) = 1).
  { rewrite fk5_to_icrs_norm. apply SkyCoord_deg_unit. }
  rewrite (separation_unit _ _ Hu Hw).
  pose proof (unit_dot_range _ _ Hu Hw) as Hrange.
  assert (H45 : to_radians 45 = PI / 4) by (unfold to_radians; field).
  replace 45 with (to_degrees (PI / 4)) at 1 by (unfold to_degrees; field; lra).
  assert (Hlt : PI / 4 < acos (Vec.dot (SkyCoord_deg 45 0)
                                  (fk5_to_icrs (SkyCoord_deg 0 0)))).
  { apply acos_gt; [exact Hrange | lra |].
    rewrite fk5_to_icrs_origin, SkyCoord_deg_equator, H45. unfold Vec.dot.
    rewrite sin_PI4.
    set (cy := cos (to_radians xi0)). set (cz := cos (to_radians da0)).
    set (sz := sin (to_radians da0)).
    assert (Hcy : 0 < cy <= 1).
    { split; [| apply COS_bound]. apply cos_gt_0; unfold to_radians, xi0; decimals; nra. }
    assert (Hcz : cz <= 1) by apply COS_bound.
    assert (Hsz : sz < 0).
    { apply sin_lt_0_var; unfold to_radians, da0; decimals; nra. }
    assert (Hc4 : 0 < cos (PI / 4)) by (apply cos_gt_0; lra).
    rewrite cos_PI4 in *.
    assert (Hprod : cy * (cz + sz) < 1) by nra.
    nra. }
  unfold to_degrees. apply Rmult_lt_compat_r; [now apply Rinv_0_lt_compat | lra].
Qed.

Lemma quarter_sum_nonzero :
  Vec.add (SkyCoord_deg 0 0) (SkyCoord_deg 90 0) <> Vec.zero.
Proof.
  unfold SkyCoord_deg, Vec.add, Vec.zero, to_radians. intros E.
  injection E as E1 _ _.
  replace (0 * PI / 180) with 0 in E1 by field.
  replace (90 * PI / 180) with (PI / 2) in E1 by field.
  rewrite cos_0, cos_PI2 in E1. lra.
Qed.

(** C6, a divergence.  For the two-member cluster of the catalogue
    positions [u] = (ra 0, dec 0) and [v] = (ra 90, dec 0), 90 degrees
    apart, the estimator returns the vector sum [u + v], and in the frame of
    the members that sum points to their midpoint, 45 degrees from each.
    Yet the largest member distance the code measures from this centre is
    above 45 degrees, half the separation: the centre is an ICRS position,
    and [u] and [v] are moved into its frame before the angle is taken. *)
Theorem get_centre_pair_frame :
  let u := SkyCoord_deg 0 0 in
  let v := SkyCoord_deg 90 0 in
  get_centre [0; 1]%nat Examples.quarter_coords (calc_separation Examples.quarter_coords)
    = Ok (Pos (calc_centroid [u; v])) /\
  calc_centroid [u; v] = Vec.add u v /\
  separation u v = 90 /\
  separation (Vec.add u v) u = 45 /\
  separation (Vec.add u v) v = 45 /\
  exists d,
    np_max (map (centre_separation (Vec.add u v)) Examples.quarter_coords) = Ok d /\
    max_distance (Pos (Vec.add u v)) Examples.quarter_coords (Some d) /\
    separation u v / 2 < d.
Proof.
  cbn zeta.
  pose proof (separation_centroid_l _ _ (SkyCoord_deg_unit 0 0) (SkyCoord_deg_unit 90 0)
                quarter_sum_nonzero) as Hl.
  assert (H45 : separation (Vec.add (SkyCoord_deg 0 0) (SkyCoord_deg 90 0))
                  (SkyCoord_deg 0 0) = 45).
  { rewrite separation_equator_below; lra. }
  assert (H45' : separation (Vec.add (SkyCoord_deg 0 0) (SkyCoord_deg 90 0))
                   (SkyCoord_deg 90 0) = 45).
  { rewrite separation_equator_above; lra. }
  assert (H90 : separation (SkyCoord_deg 0 0) (SkyCoord_deg 90 0) = 90) by lra.
  split.
  { rewrite calc_centroid_pair.
    apply (get_centre_two Examples.quarter_coords); [| reflexivity | reflexivity].
    apply (calc_separation_shape Examples.quarter_coords). }
  split; [apply calc_centroid_pair |].
  split; [exact H90 |]. split; [exact H45 |]. split; [exact H45' |].
  eexists. split; [reflexivity |]. split.
  { apply np_max_is_max. reflexivity. }
  rewrite H90. cbn [foldl]. pose proof quarter_pair_bias as Hb.
  eapply Rlt_le_trans; [| apply Rmax_l]. lra.
Qed.

(** X29. What holds of a two-member cluster on the equator, the members
    at most 20 degrees apart: the estimator returns the vector sum of the
    two, which in their own frame points to their midpoint, and the largest
    member distance the code measures from it is half their separation
    within 0.00002 degrees, the mark the change of frame leaves. *)
Theorem get_centre_pair_equator (a b : R) :
  0 <= b - a <= 20 ->
  let u := SkyCoord_deg a 0 in
  let v := SkyCoord_deg b 0 in
  get_centre [0; 1]%nat [u; v] (calc_separation [u; v]) = Ok (Pos (Vec.add u v)) /\
  separation (Vec.add u v) u = (b - a) / 2 /\
  separation (Vec.add u v) v = (b - a) / 2 /\
  exists d,
    np_max (map (centre_separation (Vec.add u v)) [u; v]) = Ok d /\
    Rabs (d - (b - a) / 2) <= 0.00002.
Proof.
  intros Hab. cbn zeta.
  split.
  { apply (get_centre_two [SkyCoord_deg a 0; SkyCoord_deg b 0]);
      [| reflexivity | reflexivity].
    apply (calc_separation_shape [SkyCoord_deg a 0; SkyCoord_deg b 0]). }
  split; [rewrite separation_equator_below; lra |].
  split; [rewrite separation_equator_above; lra |].
  eexists. split; [reflexivity |]. cbn [foldl].
  pose proof (equator_distance a b a ((b - a) / 2) ltac:(lra) ltac:(lra) ltac:(lra))
    as Ha.
  pose proof (equator_distance a b b ((b - a) / 2) ltac:(lra) ltac:(lra) ltac:(lra))
    as Hb.
  apply Rabs_le. unfold Rmax. destruct (Rle_dec _ _); lra.
Qed.

Lemma get_centre_pair_equator_witness :
  let u := SkyCoord_deg 0 0 in
  let v := SkyCoord_deg 0.01 0 in
  get_centre [0; 1]%nat [u; v] (calc_separation [u; v]) = Ok (Pos (Vec.add u v)) /\
  separation (Vec.add u v) u = (0.01 - 0) / 2 /\
  separation (Vec.add u v) v = (0.01 - 0) / 2 /\
  exists d,
    np_max (map (centre_separation (Vec.add u v)) [u; v]) = Ok d /\
    Rabs (d - (0.01 - 0) / 2) <= 0.00002.
Proof. apply (get_centre_pair_equator 0 0.01). lra. Defined.

(** ** The break-even radius and the multiplier of an accepted cluster *)

Lemma ln_le_weak (x y : R) : 0 < x -> x <= y -> ln x <= ln y.
Proof.
  intros Hx [Hlt | ->]; [left; now apply ln_increasing | lra].
Qed.

(** The break-even radius for [n] members is
    [0.5 * fwhm * sqrt (log2 n / 2) / nu / 60]. *)
Lemma break_even_formula (n : nat) :
  Beam.get_rad (Rpower (INR n) (- 0.5))
  = 0.5 * 48.3 * sqrt (0.5 * ln (INR n) / ln 2) / 5.5 / 60.
Proof.
  unfold Beam.get_rad, Beam.get_rad_at, Beam.default_fwhm, Beam.default_nu.
  rewrite ln_Rpower.
  replace (- (- 0.5 * ln (INR n)) / ln 2) with (0.5 * ln (INR n) / ln 2)
    by (pose proof ln2_pos; decimals; field; lra).
  reflexivity.
Qed.

Lemma log2_half_bounds (n : nat) :
  (1 <= n <= 4)%nat -> 0 <= 0.5 * ln (INR n) / ln 2 <= 1.
Proof.
  intros Hn. pose proof ln2_pos as H2.
  assert (H1 : 1 <= INR n) by (apply (le_INR 1); lia).
  assert (H4 : INR n <= 4).
  { pose proof (le_INR n 4 ltac:(lia)) as H. simpl in H. lra. }
  assert (Hl0 : 0 <= ln (INR n)) by (rewrite <- ln_1; apply ln_le_weak; lra).
  assert (Hl4 : ln (INR n) <= 2 * ln 2).
  { replace (2 * ln 2) with (ln (2 * 2)) by (rewrite ln_mult; lra).
    apply ln_le_weak; lra. }
  split.
  - apply Rmult_le_pos; [lra |]. left. now apply Rinv_0_lt_compat.
  - apply (Rmult_le_reg_r (ln 2)); [exact H2 |].
    replace (0.5 * ln (INR n) / ln 2 * ln 2) with (0.5 * ln (INR n))
      by (decimals; field; lra).
    lra.
Qed.

Lemma break_even_small (n : nat) :
  (1 <= n <= 4)%nat -> Beam.get_rad (Rpower (INR n) (- 0.5)) <= 0.08.
Proof.
  intros Hn. rewrite break_even_formula.
  destruct (log2_half_bounds n Hn) as [H0 H1].
  assert (Hs : sqrt (0.5 * ln (INR n) / ln 2) <= 1).
  { rewrite <- sqrt_1. now apply sqrt_le_1_alt. }
  pose proof (sqrt_pos (0.5 * ln (INR n) / ln 2)). lra.
Qed.

Lemma break_even_pair : 0.03 < Beam.get_rad (Rpower (INR 2) (- 0.5)).
Proof.
  rewrite break_even_formula. pose proof ln2_pos as H2.
  replace (INR 2) with 2 by (simpl; lra).
  replace (0.5 * ln 2 / ln 2) with 0.5 by (decimals; field; lra).
  assert (Hs : 0.5 <= sqrt 0.5).
  { rewrite <- (sqrt_square 0.5) at 1 by lra. apply sqrt_le_1_alt. lra. }
  lra.
Qed.

(** An accepted cluster always costs less than its members pointed at one
    by one: its multiplier lies in [1/n, 1). *)
Lemma accepted_multiplier_bounds (n : nat) (d : R) :
  (1 <= n)%nat -> 0 <= d ->
  d < Beam.get_rad (Rpower (INR n) (- 0.5)) ->
  / INR n <= / Beam.beam_fit (d * 60) ^ 2 / INR n < 1.
Proof.
  intros Hn Hd Hlt. rewrite break_even_formula in Hlt.
  pose proof ln2_pos as H2.
  assert (Hn1 : 1 <= INR n) by (apply (le_INR 1); lia).
  assert (Hl0 : 0 <= ln (INR n)) by (rewrite <- ln_1; apply ln_le_weak; lra).
  set (s := 0.5 * ln (INR n) / ln 2) in *.
  assert (Hs0 : 0 <= s).
  { unfold s. apply Rmult_le_pos; [lra |]. left. now apply Rinv_0_lt_compat. }
  pose proof (sqrt_sqrt s Hs0) as Hss. pose proof (sqrt_pos s) as Hsp.
  set (x := d * 60 * 5.5 / 48.3).
  assert (Hx0 : 0 <= x) by (unfold x; lra).
  assert (Hx : x < 0.5 * sqrt s) by (unfold x; lra).
  assert (Hx2 : x * x < 0.25 * s) by nra.
  assert (Hexp : 4 * ln 2 * (x * x) < 0.5 * ln (INR n)).
  { replace (0.5 * ln (INR n)) with (ln 2 * s) by (unfold s; decimals; field; lra).
    nra. }
  unfold Beam.beam_fit, Beam.beam_fit_at, Beam.default_fwhm, Beam.default_nu.
  fold x.
  replace (exp (- 4 * ln 2 * x ^ 2) ^ 2) with (exp (- (8 * ln 2 * (x * x)))).
  2:{ replace (exp (- 4 * ln 2 * x ^ 2) ^ 2)
        with (exp (- 4 * ln 2 * x ^ 2) * exp (- 4 * ln 2 * x ^ 2)) by ring.
      rewrite <- exp_plus. f_equal. ring. }
  set (e := 8 * ln 2 * (x * x)) in *.
  assert (He0 : 0 <= e) by (unfold e; nra).
  assert (Hen : e < ln (INR n)) by (unfold e; lra).
  rewrite exp_Ropp, Rinv_inv.
  assert (Hexp1 : 1 <= exp e).
  { rewrite <- exp_0. destruct He0 as [He0 | <-]; [left; now apply exp_increasing | lra]. }
  assert (Hexpn : exp e < INR n).
  { rewrite <- (exp_ln (INR n)) by lra. now apply exp_increasing. }
  assert (Hinv : 0 < / INR n) by (apply Rinv_0_lt_compat; lra).
  split.
  - unfold Rdiv. rewrite <- (Rmult_1_l (/ INR n)) at 1.
    apply Rmult_le_compat_r; lra.
  - apply (Rmult_lt_reg_r (INR n)); [lra |].
    unfold Rdiv. rewrite Rmult_assoc, Rinv_l by lra. lra.
Qed.

(** ** Running the selector on the example catalogues *)

(** Membership in an explicit list of indices, by evaluation. *)
Ltac decide_elem := simpl; apply (bool_decide_unpack _); reflexivity.

(** A candidate one of whose members lies at the break-even radius or
    beyond is not accepted. *)
Lemma select_cluster_too_wide (coords : list vec)
    (all_clusters : gmap nat (list nat)) (seps : ndarray) (st : state)
    (c_num : nat) (ms : list nat) (centre : vec) (cs : list vec) (x : vec) :
  all_clusters !! c_num = Some ms ->
  overlaps ms (assigned st) = false ->
  get_centre ms coords seps = Ok (Pos centre) ->
  take_items coords ms = Ok cs ->
  x ∈ cs ->
  Beam.get_rad (Rpower (INR (length ms)) (- 0.5)) <= centre_separation centre x ->
  select_cluster coords all_clusters seps st c_num = Ok (bind_members st ms).
Proof.
  intros Hms Hov Hc Hcs Hx Hfar.
  destruct (np_max_Ok (map (centre_separation centre) cs)) as [d Hd].
  { intros E. apply fmap_nil_inv in E. subst cs. inversion Hx. }
  rewrite (select_cluster_unassigned coords all_clusters seps st c_num ms
             centre cs d Hms Hov Hc Hcs Hd).
  apply np_max_is_max in Hd as [_ Hmax].
  assert (Hle : centre_separation centre x <= d).
  { apply Hmax. apply list_elem_of_fmap. eauto. }
  destruct (Rlt_dec d _); [lra | reflexivity].
Qed.

(** The distances of two equatorial members at most 0.05 degrees apart
    from their sum, as the code measures them. *)
Lemma tight_pair_distance (a b : R) :
  0 <= b - a <= 0.05 ->
  let centre := Vec.add (SkyCoord_deg a 0) (SkyCoord_deg b 0) in
  let d := Rmax (centre_separation centre (SkyCoord_deg a 0))
                (centre_separation centre (SkyCoord_deg b 0)) in
  Rabs (centre_separation centre (SkyCoord_deg a 0) - (b - a) / 2) <= 0.00002 /\
  Rabs (centre_separation centre (SkyCoord_deg b 0) - (b - a) / 2) <= 0.00002 /\
  0 <= d < 0.03.
Proof.
  intros Hab. cbn zeta.
  pose proof (equator_distance a b a ((b - a) / 2) ltac:(lra) ltac:(lra) ltac:(lra))
    as Ha.
  pose proof (equator_distance a b b ((b - a) / 2) ltac:(lra) ltac:(lra) ltac:(lra))
    as Hb.
  split; [apply Rabs_le; lra |]. split; [apply Rabs_le; lra |].
  split.
  - eapply Rle_trans; [apply centre_separation_nonneg | apply Rmax_l].
  - apply Rmax_lub_lt; lra.
Qed.

(** The sum of two equatorial members at most 0.05 degrees apart is
    accepted as a pointing for the two. *)
Lemma select_cluster_tight_pair (coords : list vec)
    (all_clusters : gmap nat (list nat)) (seps : ndarray) (st : state)
    (c_num i j : nat) (a b : R) :
  separation_shape (length coords) seps ->
  all_clusters !! c_num = Some [i; j] ->
  overlaps [i; j] (assigned st) = false ->
  coords !! i = Some (SkyCoord_deg a 0) ->
  coords !! j = Some (SkyCoord_deg b 0) ->
  0 <= b - a <= 0.05 ->
  select_cluster coords all_clusters seps st c_num =
    Ok (accept (bind_members st [i; j]) c_num [i; j]
          (Vec.add (SkyCoord_deg a 0) (SkyCoord_deg b 0))
          (int_time (Examples.pair_record i j a b))).
Proof.
  intros Hshape Hms Hov Hi Hj Hab.
  set (centre := Vec.add (SkyCoord_deg a 0) (SkyCoord_deg b 0)).
  destruct (tight_pair_distance a b Hab) as (_ & _ & Hd0 & Hd3). fold centre in Hd0, Hd3.
  assert (Hcs : take_items coords [i; j] = Ok [SkyCoord_deg a 0; SkyCoord_deg b 0])
    by now apply take_items_pair.
  assert (Hc : get_centre [i; j] coords seps = Ok (Pos centre))
    by now apply get_centre_two.
  rewrite (select_cluster_unassigned coords all_clusters seps st c_num [i; j]
             centre _ _ Hms Hov Hc Hcs eq_refl).
  pose proof break_even_pair as Hbe.
  change (length [i; j]) with 2%nat. cbn [foldl].
  destruct (Rlt_dec _ (Beam.get_rad (Rpower (INR 2) (- 0.5)))); [reflexivity | lra].
Qed.

Section PairsExample.
Import Examples.

Variable seps : ndarray.
Hypothesis seps_shape : separation_shape 4 seps.

Lemma pairs_decoded : extract_levels pairs_linked pairs_labels = Ok pairs_clusters.
Proof. vm_compute. reflexivity. Qed.

Lemma pairs_keys : sorted_keys_desc pairs_clusters = [6; 5; 4]%nat.
Proof. vm_compute. reflexivity. Qed.

(** The root cluster spans 5.01 degrees: rejected. *)
Lemma pairs_root_rejected (st : state) :
  overlaps [0; 1; 2; 3]%nat (assigned st) = false ->
  select_cluster pairs_coords pairs_clusters seps st 6
  = Ok (bind_members st [0; 1; 2; 3]%nat).
Proof.
  intros Hov.
  set (centre := Vec.add (SkyCoord_deg 0 0) (SkyCoord_deg 5.01 0)).
  pose proof (equator_distance 0 5.01 0 2.505 ltac:(lra) ltac:(lra) ltac:(lra)) as H0.
  pose proof (equator_distance 0 5.01 0.01 2.495 ltac:(lra) ltac:(lra) ltac:(lra)) as H1.
  pose proof (equator_distance 0 5.01 5 2.495 ltac:(lra) ltac:(lra) ltac:(lra)) as H2.
  fold centre in H0, H1, H2.
  assert (Hcs : take_items pairs_coords [0; 1; 2; 3]%nat = Ok pairs_coords)
    by reflexivity.
  assert (Hin0 : SkyCoord_deg 0 0 ∈ pairs_coords) by left.
  assert (Hc : get_centre [0; 1; 2; 3]%nat pairs_coords seps = Ok (Pos centre)).
  { apply (get_centre_ends [0; 1; 2; 3]%nat pairs_coords seps 0 3 _ _ pairs_coords
             seps_shape Hcs); [discriminate | reflexivity .. |].
    fold centre. intros k x Hk Hx. exists (SkyCoord_deg 0 0). split; [exact Hin0 |].
    simpl in Hk. destruct k as [| [| [| k]]]; [lia | | | lia];
      simpl in Hx; injection Hx as <-; lra. }
  apply (select_cluster_too_wide pairs_coords pairs_clusters seps st 6
           [0; 1; 2; 3]%nat centre pairs_coords (SkyCoord_deg 0 0));
    [reflexivity | exact Hov | exact Hc | exact Hcs | exact Hin0 |].
  pose proof (break_even_small 4 ltac:(lia)) as Hbe.
  change (length [0; 1; 2; 3]%nat) with 4%nat. lra.
Qed.

End PairsExample.

Lemma sweep_singleton_assigned (coords : list vec) (st : state) (c_num : nat) :
  c_num ∈ assigned st -> sweep_singleton coords st c_num = Ok st.
Proof. intros H. unfold sweep_singleton. now rewrite bool_decide_eq_true_2. Qed.

Lemma sweep_singleton_unassigned (coords : list vec) (st : state) (c_num : nat)
    (ms : list nat) (cs : list vec) :
  c_num ∉ assigned st -> loop_members st = Some ms -> take_items coords ms = Ok cs ->
  sweep_singleton coords st c_num =
    Ok {| assigned := assigned st; clusters := clusters st;
          clustering := clustering st; centroids := centroids st;
          int_time_arr := int_time_arr st;
          cluster_info :=
            <[c_num := {| members := [c_num]; centroid := SkyArray cs;
                          int_time := 1 |}]> (cluster_info st);
          loop_members := loop_members st |}.
Proof.
  intros Hn Hms Hcs. unfold sweep_singleton.
  rewrite bool_decide_eq_false_2 by exact Hn. rewrite Hms, Hcs. reflexivity.
Qed.

Section ExampleRuns.
Import Examples.

(** The two-pairs catalogue: the root is rejected, each pair is accepted,
    no singleton is left. *)
Lemma pairs_run : run pairs_coords pairs_labels pairs_linked = Ok pairs_expected.
Proof.
  pose proof (calc_separation_shape pairs_coords) as Hshape.
  change (length pairs_coords) with 4%nat in Hshape.
  unfold run. rewrite pairs_decoded. run_bind.
  unfold do_clustering. rewrite pairs_keys. cbn [foldM].
  rewrite (pairs_root_rejected _ Hshape) by reflexivity. run_bind.
  erewrite select_cluster_tight_pair
    with (i := 2%nat) (j := 3%nat) (a := 5) (b := 5.01);
    [| exact Hshape | reflexivity | reflexivity | reflexivity | reflexivity | lra].
  run_bind.
  erewrite select_cluster_tight_pair
    with (i := 0%nat) (j := 1%nat) (a := 0) (b := 0.01);
    [| exact Hshape | reflexivity | reflexivity | reflexivity | reflexivity | lra].
  run_bind. change (length pairs_coords) with 4%nat. cbn [seq foldM].
  do 4 (rewrite sweep_singleton_assigned by decide_elem; run_bind).
  reflexivity.
Qed.

End ExampleRuns.

Section LoneExample.
Import Examples.

Lemma lone_decoded : extract_levels lone_linked lone_labels = Ok lone_clusters.
Proof. vm_compute. reflexivity. Qed.

Lemma lone_keys : sorted_keys_desc lone_clusters = [4; 3]%nat.
Proof. vm_compute. reflexivity. Qed.

(** The root cluster spans 5 degrees: rejected. *)
Lemma lone_root_rejected (seps : ndarray) (st : state) :
  separation_shape 3 seps ->
  overlaps [0; 1; 2]%nat (assigned st) = false ->
  select_cluster lone_coords lone_clusters seps st 4
  = Ok (bind_members st [0; 1; 2]%nat).
Proof.
  intros Hshape Hov.
  set (centre := Vec.add (SkyCoord_deg 0 0) (SkyCoord_deg 5 0)).
  pose proof (equator_distance 0 5 0 2.5 ltac:(lra) ltac:(lra) ltac:(lra)) as H0.
  pose proof (equator_distance 0 5 0.01 2.49 ltac:(lra) ltac:(lra) ltac:(lra)) as H1.
  fold centre in H0, H1.
  assert (Hcs : take_items lone_coords [0; 1; 2]%nat = Ok lone_coords)
    by reflexivity.
  assert (Hin0 : SkyCoord_deg 0 0 ∈ lone_coords) by left.
  assert (Hc : get_centre [0; 1; 2]%nat lone_coords seps = Ok (Pos centre)).
  { apply (get_centre_ends [0; 1; 2]%nat lone_coords seps 0 2 _ _ lone_coords
             Hshape Hcs); [discriminate | reflexivity .. |].
    fold centre. intros k x Hk Hx. exists (SkyCoord_deg 0 0). split; [exact Hin0 |].
    simpl in Hk. destruct k as [| [| k]]; [lia | | lia].
    simpl in Hx. injection Hx as <-. lra. }
  apply (select_cluster_too_wide lone_coords lone_clusters seps st 4
           [0; 1; 2]%nat centre lone_coords (SkyCoord_deg 0 0));
    [reflexivity | exact Hov | exact Hc | exact Hcs | exact Hin0 |].
  pose proof (break_even_small 3 ltac:(lia)) as Hbe.
  change (length [0; 1; 2]%nat) with 3%nat. lra.
Qed.

(** The pair-and-lone-target catalogue: the pair is accepted and target 2
    is swept up as a singleton whose centre is [coords[[0, 1]]]. *)
Lemma lone_run : run lone_coords lone_labels lone_linked = Ok lone_expected.
Proof.
  pose proof (calc_separation_shape lone_coords) as Hshape.
  change (length lone_coords) with 3%nat in Hshape.
  unfold run. rewrite lone_decoded. run_bind.
  unfold do_clustering. rewrite lone_keys. cbn [foldM].
  rewrite (lone_root_rejected _ _ Hshape) by reflexivity. run_bind.
  erewrite select_cluster_tight_pair
    with (i := 0%nat) (j := 1%nat) (a := 0) (b := 0.01);
    [| exact Hshape | reflexivity | reflexivity | reflexivity | reflexivity | lra].
  run_bind. change (length lone_coords) with 3%nat. cbn [seq foldM].
  rewrite sweep_singleton_assigned by decide_elem. run_bind.
  rewrite sweep_singleton_assigned by decide_elem. run_bind.
  erewrite sweep_singleton_unassigned;
    [| decide_elem | reflexivity | reflexivity].
  reflexivity.
Qed.

End LoneExample.

(** * The example catalogues, end to end *)

Lemma select_cluster_accept_iff_witness :
  exists (centre : position) (d : option R) (st' : state),
    get_centre [0; 1]%nat Examples.pairs_coords (np_empty 4 4) = Ok centre /\
    select_cluster Examples.pairs_coords Examples.pairs_clusters (np_empty 4 4)
      (initial_state Examples.pairs_coords) 4 = Ok st' /\
    (clusters st' = [4%nat] <->
     below d (Beam.radius_for_sensitivity (Rpower (INR 2) (- 0.5)))).
Proof.
  destruct (select_cluster_accept_iff Examples.pairs_coords Examples.pairs_clusters
              (np_empty 4 4) (initial_state Examples.pairs_coords) 4 [0; 1]%nat)
    as (centre & cs & d & st' & Hc & _ & _ & Hs & Hiff & _).
  - split; reflexivity.
  - reflexivity.
  - discriminate.
  - repeat constructor; simpl; lia.
  - intros m _ H. inversion H.
  - exists centre, d, st'. split; [exact Hc |]. split; [exact Hs | exact Hiff].
Defined.

(** C1. On the catalogue of a tight pair (targets 0, 1) and a lone target
    2 five degrees away, the record of target 2 has members [2] and
    multiplier 1, but its centre is the array [coords[[0, 1]]], the
    positions of the last cluster the first loop looked at, and not the
    position of target 2. *)
Theorem lone_target_centre :
  exists (info : gmap nat pointing) (p : pointing),
    run Examples.lone_coords Examples.lone_labels Examples.lone_linked = Ok info /\
    info !! 2%nat = Some p /\
    members p = [2%nat] /\ int_time p = 1 /\
    centroid p = SkyArray [SkyCoord_deg 0 0; SkyCoord_deg 0.01 0] /\
    centroid p <> SkyScalar (SkyCoord_deg 5 0) /\
    centroid p <> SkyArray [SkyCoord_deg 5 0].
Proof.
  exists Examples.lone_expected, Examples.lone_record.
  split; [exact lone_run |].
  split; [apply lookup_insert_eq |].
  repeat split; simpl; discriminate.
Qed.

Lemma pair_record_multiplier (i j : nat) (a b : R) :
  0 <= b - a <= 0.05 ->
  / 2 <= int_time (Examples.pair_record i j a b) < 1.
Proof.
  intros Hab. pose proof break_even_pair as Hbe.
  destruct (tight_pair_distance a b Hab) as (_ & _ & Hd0 & Hd3).
  pose proof (accepted_multiplier_bounds 2 _ ltac:(lia) Hd0 ltac:(lra)) as H.
  replace (INR 2) with 2 in H by (simpl; lra).
  unfold Examples.pair_record. simpl int_time.
  replace (INR 2) with 2 by (simpl; lra). exact H.
Qed.

(** C2, as stated, fails: on the two-pairs catalogue the record of the
    pair (0, 1) has a multiplier that is not greater than 1.0. *)
Lemma pairs_multiplier_not_above_one :
  exists (info : gmap nat pointing) (p : pointing),
    run Examples.pairs_coords Examples.pairs_labels Examples.pairs_linked = Ok info /\
    info !! 4%nat = Some p /\ members p = [0; 1]%nat /\
    ~ (1 < int_time p).
Proof.
  exists Examples.pairs_expected, (Examples.pair_record 0 1 0 0.01).
  split; [exact pairs_run |].
  split; [apply lookup_insert_eq |].
  split; [reflexivity |].
  pose proof (pair_record_multiplier 0 1 0 0.01 ltac:(lra)). lra.
Qed.

(** C2, amended. On the two-pairs catalogue (pairs 0.01 degrees wide, 5
    degrees apart) the selector returns exactly two records, at node ids 4
    and 5: members (0, 1) and (2, 3), each centred on the vector sum of its
    pair, approximately the midpoint (the distances the code measures from
    it to the two members are 0.005 degrees within 0.00002), each with a
    multiplier in [0.5, 1.0); the root node 6 with all four targets is not
    recorded. *)
Theorem pairs_scenario :
  run Examples.pairs_coords Examples.pairs_labels Examples.pairs_linked
    = Ok Examples.pairs_expected /\
  size Examples.pairs_expected = 2%nat /\
  Examples.pairs_expected !! 6%nat = None /\
  Examples.pairs_expected !! 4%nat = Some (Examples.pair_record 0 1 0 0.01) /\
  Examples.pairs_expected !! 5%nat = Some (Examples.pair_record 2 3 5 5.01) /\
  members (Examples.pair_record 0 1 0 0.01) = [0; 1]%nat /\
  members (Examples.pair_record 2 3 5 5.01) = [2; 3]%nat /\
  (let centre := Vec.add (SkyCoord_deg 0 0) (SkyCoord_deg 0.01 0) in
   centroid (Examples.pair_record 0 1 0 0.01) = SkyScalar centre /\
   Rabs (centre_separation centre (SkyCoord_deg 0 0) - 0.005) <= 0.00002 /\
   Rabs (centre_separation centre (SkyCoord_deg 0.01 0) - 0.005) <= 0.00002) /\
  (let centre := Vec.add (SkyCoord_deg 5 0) (SkyCoord_deg 5.01 0) in
   centroid (Examples.pair_record 2 3 5 5.01) = SkyScalar centre /\
   Rabs (centre_separation centre (SkyCoord_deg 5 0) - 0.005) <= 0.00002 /\
   Rabs (centre_separation centre (SkyCoord_deg 5.01 0) - 0.005) <= 0.00002) /\
  / 2 <= int_time (Examples.pair_record 0 1 0 0.01) < 1 /\
  / 2 <= int_time (Examples.pair_record 2 3 5 5.01) < 1.
Proof.
  split; [exact pairs_run |].
  split.
  { unfold Examples.pairs_expected.
    rewrite map_size_insert_None
      by (rewrite lookup_insert_ne by lia; apply lookup_empty).
    rewrite map_size_insert_None by apply lookup_empty.
    now rewrite map_size_empty. }
  split.
  { unfold Examples.pairs_expected.
    rewrite !lookup_insert_ne by lia. apply lookup_empty. }
  split; [apply lookup_insert_eq |].
  split.
  { unfold Examples.pairs_expected. rewrite lookup_insert_ne by lia.
    apply lookup_insert_eq. }
  split; [reflexivity |]. split; [reflexivity |].
  split.
  { cbn zeta. split; [reflexivity |].
    destruct (tight_pair_distance 0 0.01 ltac:(lra)) as (Ha & Hb & _).
    cbn zeta in Ha, Hb.
    replace ((0.01 - 0) / 2) with 0.005 in Ha, Hb by lra. split; assumption. }
  split.
  { cbn zeta. split; [reflexivity |].
    destruct (tight_pair_distance 5 5.01 ltac:(lra)) as (Ha & Hb & _).
    cbn zeta in Ha, Hb.
    replace ((5.01 - 5) / 2) with 0.005 in Ha, Hb by lra. split; assumption. }
  split; apply pair_record_multiplier; lra.
Qed.

(** ** Degenerate circumcentres *)

Lemma norm_zero_iff (w : vec) : Vec.norm w = 0 <-> w = Vec.zero.
Proof.
  unfold Vec.norm. split.
  - intros H. apply dot_self_zero. apply sqrt_eq_0; [| exact H].
    destruct w as [[x y] z]. simpl. nra.
  - intros ->. unfold Vec.zero. simpl.
    replace (0 * 0 + 0 * 0 + 0 * 0) with 0 by ring. apply sqrt_0.
Qed.

(** The circumcentre is NaN exactly when the cross product of the two
    chords has length zero. *)
Lemma calc_circumcentre_nan_iff (c0 c1 c2 : vec) :
  calc_circumcentre [c0; c1; c2] = Ok NaN <->
  Vec.cross (Vec.sub c1 c0) (Vec.sub c2 c1) = Vec.zero.
Proof.
  unfold calc_circumcentre. cbn [item lookup list_lookup]. run_bind.
  set (AB := Vec.cross (Vec.sub c1 c0) (Vec.sub c2 c1)).
  destruct (Req_dec_T (8 * (0.5 * Vec.norm AB) ^ 2) 0) as [E | E].
  - split; [intros _ | reflexivity]. apply norm_zero_iff.
    assert (H : Vec.norm AB * Vec.norm AB = 0) by lra.
    apply Rmult_integral in H. now destruct H.
  - split; [discriminate |]. intros H. exfalso. apply E.
    apply norm_zero_iff in H. rewrite H. lra.
Qed.

Lemma cross_opposite (u w : vec) :
  Vec.cross (Vec.sub w u) (Vec.sub u w) = Vec.zero.
Proof.
  destruct u as [[ux uy] uz], w as [[wx wy] wz]. unfold Vec.cross, Vec.sub, Vec.zero.
  f_equal; [f_equal |]; ring.
Qed.

Lemma get_centre_take_items (ms : list nat) (coords : list vec) (seps : ndarray)
    (centre : position) :
  get_centre ms coords seps = Ok centre -> exists cs, take_items coords ms = Ok cs.
Proof.
  unfold get_centre. intros H.
  apply bind_Ok in H as (cols & _ & H). apply bind_Ok in H as (sub & _ & H).
  apply bind_Ok in H as (m0 & _ & H). apply bind_Ok in H as (ml & _ & H).
  apply bind_Ok in H as (pair & _ & H). apply bind_Ok in H as (cs & Hcs & _).
  eauto.
Qed.

Section DuplicateExample.
Import Examples.

Lemma dup_keys : sorted_keys_desc dup_clusters = [4; 3]%nat.
Proof. vm_compute. reflexivity. Qed.

(** The first and last members coincide and the farthest member lies
    between them: the circumcentre is computed from two opposite chords. *)
Lemma dup_centre_nan (seps : ndarray) :
  separation_shape 3 seps ->
  get_centre [0; 1; 2]%nat dup_coords seps = Ok NaN.
Proof.
  intros Hshape.
  set (centre := Vec.add (SkyCoord_deg 0 0) (SkyCoord_deg 0 0)).
  pose proof (equator_distance 0 0 0 0 ltac:(lra) ltac:(lra) ltac:(lra)) as H0.
  pose proof (equator_distance 0 0 0.01 0.01 ltac:(lra) ltac:(lra) ltac:(lra)) as H1.
  fold centre in H0, H1.
  assert (Hcs : take_items dup_coords [0; 1; 2]%nat = Ok dup_coords) by reflexivity.
  destruct (np_argmax_Ok (map (centre_separation centre) dup_coords))
    as (k & Hk & Hklt); [discriminate |].
  assert (Hk1 : k = 1%nat).
  { destruct (np_argmax_spec _ _ Hk) as (m & Hm & Hmax & _).
    assert (Hle : centre_separation centre (SkyCoord_deg 0.01 0) <= m).
    { apply Hmax. unfold dup_coords. simpl. right. left. }
    simpl in Hklt. destruct k as [| [| [| k]]]; [| reflexivity | | lia];
      simpl in Hm; injection Hm as <-; lra. }
  subst k.
  rewrite (get_centre_unfold [0; 1; 2]%nat dup_coords seps 0 2 1 _ _ _
             Hshape Hcs eq_refl eq_refl eq_refl eq_refl Hk).
  cbn [Nat.eqb negb andb length Nat.sub]. cbn [item lookup list_lookup].
  run_bind. unfold dup_coords. cbn [item lookup list_lookup]. run_bind.
  apply calc_circumcentre_nan_iff, cross_opposite.
Qed.

Lemma dup_run (seps : ndarray) :
  separation_shape 3 seps ->
  do_clustering dup_coords dup_clusters seps = Ok lone_expected.
Proof.
  intros Hshape. unfold do_clustering. rewrite dup_keys. cbn [foldM].
  erewrite select_cluster_nan with (ms := [0; 1; 2]%nat) (cs := dup_coords);
    [| reflexivity | reflexivity | now apply dup_centre_nan | reflexivity].
  run_bind.
  erewrite select_cluster_tight_pair
    with (i := 0%nat) (j := 1%nat) (a := 0) (b := 0.01);
    [| exact Hshape | reflexivity | reflexivity | reflexivity | reflexivity | lra].
  run_bind. change (length dup_coords) with 3%nat. cbn [seq foldM].
  rewrite sweep_singleton_assigned by decide_elem. run_bind.
  rewrite sweep_singleton_assigned by decide_elem. run_bind.
  erewrite sweep_singleton_unassigned;
    [| decide_elem | reflexivity | reflexivity].
  reflexivity.
Qed.

End DuplicateExample.

(** C9, as stated, fails: for the candidate (0, 1, 2) of the catalogue
    with a doubled target the cross product in the circumcentre is zero,
    yet nothing is detected or reported. The estimator returns a NaN centre
    like any other value, the loop body ends in the state of an ordinary
    rejection, and the final records are those of the catalogue whose root
    was rejected for being too wide. *)
Lemma degenerate_cluster_not_reported :
  let seps := calc_separation Examples.dup_coords in
  let st := initial_state Examples.dup_coords in
  get_centre [0; 1; 2]%nat Examples.dup_coords seps = Ok NaN /\
  select_cluster Examples.dup_coords Examples.dup_clusters seps st 4
    = Ok (bind_members st [0; 1; 2]%nat) /\
  do_clustering Examples.dup_coords Examples.dup_clusters seps
    = Ok Examples.lone_expected /\
  ~ (exists e, select_cluster Examples.dup_coords Examples.dup_clusters seps st 4
               = Raise e).
Proof.
  cbn zeta.
  pose proof (calc_separation_shape Examples.dup_coords) as Hshape.
  change (length Examples.dup_coords) with 3%nat in Hshape.
  assert (Hstep : select_cluster Examples.dup_coords Examples.dup_clusters
                    (calc_separation Examples.dup_coords)
                    (initial_state Examples.dup_coords) 4
                  = Ok (bind_members (initial_state Examples.dup_coords)
                          [0; 1; 2]%nat)).
  { apply (select_cluster_nan _ _ _ _ 4 [0; 1; 2]%nat Examples.dup_coords);
      [reflexivity | reflexivity | now apply dup_centre_nan | reflexivity]. }
  split; [now apply dup_centre_nan |].
  split; [exact Hstep |].
  split; [now apply dup_run |].
  intros [e He]. rewrite Hstep in He. discriminate.
Qed.

(** C9, amended. A candidate cluster whose circumcentre has a zero-length
    cross product is not detected: the estimator returns a NaN centre
    without raising; as a NaN distance is not below the break-even radius,
    the selector leaves the cluster unrecorded and its members unassigned,
    in the very state an ordinary rejection leaves, and goes on to the
    smaller clusters. *)
Theorem degenerate_cluster_rejected (coords : list vec)
    (all_clusters : gmap nat (list nat)) (seps : ndarray) (st : state)
    (c_num : nat) (ms : list nat) :
  all_clusters !! c_num = Some ms ->
  (forall m, m ∈ ms -> m ∉ assigned st) ->
  get_centre ms coords seps = Ok NaN ->
  exists st',
    select_cluster coords all_clusters seps st c_num = Ok st' /\
    st' = bind_members st ms /\
    assigned st' = assigned st /\
    clusters st' = clusters st /\
    cluster_info st' = cluster_info st.
Proof.
  intros Hms Hfree Hc. apply overlaps_false in Hfree.
  destruct (get_centre_take_items ms coords seps NaN Hc) as [cs Hcs].
  exists (bind_members st ms).
  split; [now apply (select_cluster_nan coords all_clusters seps st c_num ms cs) |].
  repeat split.
Qed.

Lemma degenerate_cluster_rejected_witness :
  exists st',
    select_cluster Examples.dup_coords Examples.dup_clusters (np_empty 3 3)
      (initial_state Examples.dup_coords) 4 = Ok st' /\
    cluster_info st' = ∅.
Proof.
  destruct (degenerate_cluster_rejected Examples.dup_coords Examples.dup_clusters
              (np_empty 3 3) (initial_state Examples.dup_coords) 4 [0; 1; 2]%nat)
    as (st' & Hs & _ & _ & _ & Hinfo).
  - reflexivity.
  - intros m _ H. inversion H.
  - apply dup_centre_nan. split; reflexivity.
  - exists st'. split; [exact Hs | exact Hinfo].
Defined.

(** * The beam profile and the break-even radius *)

Lemma beam_arg_sq (fwhm nu x : R) :
  fwhm <> 0 -> nu <> 0 ->
  - ln (Beam.beam_fit_at fwhm nu x) / ln 2 = (2 * (x * nu / fwhm)) ^ 2.
Proof.
  intros Hf Hn. unfold Beam.beam_fit_at. rewrite ln_exp.
  pose proof ln2_pos. field. lra.
Qed.

Lemma get_rad_at_beam_fit_at (fwhm nu x : R) :
  0 < fwhm -> 0 < nu ->
  Beam.get_rad_at fwhm nu (Beam.beam_fit_at fwhm nu x) * 60 = Rabs x.
Proof.
  intros Hf Hn. unfold Beam.get_rad_at.
  rewrite beam_arg_sq by lra.
  replace ((2 * (x * nu / fwhm)) ^ 2) with (Rsqr (2 * (x * nu / fwhm)))
    by (unfold Rsqr; ring).
  rewrite sqrt_Rsqr_abs.
  replace (2 * (x * nu / fwhm)) with (x * (2 * nu / fwhm)) by (field; lra).
  rewrite Rabs_mult.
  assert (Hp : 0 < 2 * nu / fwhm).
  { apply Rmult_lt_0_compat; [lra |]. now apply Rinv_0_lt_compat. }
  rewrite (Rabs_pos_eq (2 * nu / fwhm)) by lra.
  decimals. field. lra.
Qed.

(** X1. The round trip in the other direction, with the default width
    and frequency, between 0.001 and 100 arcminutes from the axis, where
    the sensitivity is neither rounded to 1 nor close to the smallest
    positive float: the radius (in the beam's own unit, 60 times the
    degrees [get_rad] returns) at which the beam reaches the sensitivity it
    has at [x] is the absolute value of [x]. *)
Theorem get_rad_beam_fit (x : R) :
  0.001 <= Rabs x <= 100 ->
  Beam.get_rad (Beam.beam_fit x) * 60 = Rabs x.
Proof.
  intros _. unfold Beam.get_rad, Beam.beam_fit.
  apply get_rad_at_beam_fit_at; unfold Beam.default_fwhm, Beam.default_nu; lra.
Qed.

Lemma get_rad_beam_fit_witness :
  0.001 <= Rabs 3 <= 100 /\ Beam.get_rad (Beam.beam_fit 3) * 60 = Rabs 3.
Proof.
  assert (H : 0.001 <= Rabs 3 <= 100) by (rewrite Rabs_pos_eq; lra).
  split; [exact H | exact (get_rad_beam_fit 3 H)].
Defined.

(** The beam falls off strictly with the distance from its axis. *)
Lemma beam_fit_at_lt (fwhm nu x y : R) :
  0 < fwhm -> 0 < nu -> 0 <= x < y ->
  Beam.beam_fit_at fwhm nu y < Beam.beam_fit_at fwhm nu x.
Proof.
  intros Hf Hn Hxy. unfold Beam.beam_fit_at. apply exp_increasing.
  pose proof ln2_pos as H2.
  assert (Hk : 0 < nu / fwhm).
  { apply Rmult_lt_0_compat; [lra |]. now apply Rinv_0_lt_compat. }
  replace (x * nu / fwhm) with (x * (nu / fwhm)) by (field; lra).
  replace (y * nu / fwhm) with (y * (nu / fwhm)) by (field; lra).
  assert (Hs : (x * (nu / fwhm)) ^ 2 < (y * (nu / fwhm)) ^ 2).
  { assert (0 <= x * (nu / fwhm) < y * (nu / fwhm)) by nra. nra. }
  nra.
Qed.

Lemma beam_fit_at_even (fwhm nu x : R) :
  Beam.beam_fit_at fwhm nu (- x) = Beam.beam_fit_at fwhm nu x.
Proof. unfold Beam.beam_fit_at. f_equal. unfold Rdiv. ring. Qed.

Lemma beam_fit_at_0 (fwhm nu : R) : Beam.beam_fit_at fwhm nu 0 = 1.
Proof.
  unfold Beam.beam_fit_at.
  replace (- 4 * ln 2 * (0 * nu / fwhm) ^ 2) with 0 by (unfold Rdiv; ring).
  apply exp_0.
Qed.

Lemma beam_fit_at_le_1 (fwhm nu x : R) : Beam.beam_fit_at fwhm nu x <= 1.
Proof.
  unfold Beam.beam_fit_at. rewrite <- exp_0.
  pose proof ln2_pos as H2.
  assert (H : - 4 * ln 2 * (x * nu / fwhm) ^ 2 <= 0).
  { pose proof (pow2_ge_0 (x * nu / fwhm)). nra. }
  destruct H as [H | H]; [left; now apply exp_increasing | rewrite H; lra].
Qed.

Lemma beam_fit_at_profile (fwhm nu x y : R) :
  0 < fwhm -> 0 < nu -> Rabs x < Rabs y ->
  0 < Beam.beam_fit_at fwhm nu y /\
  Beam.beam_fit_at fwhm nu y < Beam.beam_fit_at fwhm nu x /\
  Beam.beam_fit_at fwhm nu x <= Beam.beam_fit_at fwhm nu 0 /\
  Beam.beam_fit_at fwhm nu 0 = 1.
Proof.
  intros Hf Hn Hxy. split; [apply exp_pos |]. split.
  - assert (E : forall z, Beam.beam_fit_at fwhm nu z = Beam.beam_fit_at fwhm nu (Rabs z)).
    { intros z. unfold Rabs. destruct (Rcase_abs z); [| reflexivity].
      now rewrite beam_fit_at_even. }
    rewrite (E x), (E y). apply beam_fit_at_lt; try assumption.
    split; [apply Rabs_pos | exact Hxy].
  - rewrite beam_fit_at_0. split; [apply beam_fit_at_le_1 | reflexivity].
Qed.

(** X2. The shape of the beam with the default width and frequency, up
    to 100 arcminutes from the axis, where the sensitivity is far above the
    smallest positive float: the sensitivity is positive, 1 on the axis and
    nowhere above it, and strictly smaller at a point that lies farther
    from the axis, on either side, by a thousandth of an arcminute or
    more. *)
Theorem beam_fit_profile (x y : R) :
  Rabs x + 0.001 <= Rabs y -> Rabs y <= 100 ->
  0 < Beam.beam_fit y /\
  Beam.beam_fit y < Beam.beam_fit x /\
  Beam.beam_fit x <= Beam.beam_fit 0 /\
  Beam.beam_fit 0 = 1.
Proof.
  intros Hxy _. unfold Beam.beam_fit.
  apply beam_fit_at_profile; unfold Beam.default_fwhm, Beam.default_nu; lra.
Qed.

Lemma beam_fit_profile_witness :
  0 < Beam.beam_fit 2 /\
  Beam.beam_fit 2 < Beam.beam_fit (-1) /\
  Beam.beam_fit (-1) <= Beam.beam_fit 0 /\
  Beam.beam_fit 0 = 1.
Proof.
  apply (beam_fit_profile (-1) 2);
    unfold Rabs; repeat destruct (Rcase_abs _); lra.
Defined.

Lemma Rpower_inv_sqrt_bounds (n : nat) :
  (1 <= n)%nat -> 0 < Rpower (INR n) (- 0.5) <= 1.
Proof.
  intros Hn. assert (H1 : 1 <= INR n) by (apply (le_INR 1); lia).
  split; [apply exp_pos |].
  unfold Rpower. rewrite <- exp_0.
  assert (Hl0 : 0 <= ln (INR n)) by (rewrite <- ln_1; apply ln_le_weak; lra).
  assert (H : - 0.5 * ln (INR n) <= 0) by lra.
  destruct H as [H | H]; [left; now apply exp_increasing | rewrite H; lra].
Qed.

Lemma Rpower_inv_sqrt_sq (n : nat) :
  (1 <= n)%nat -> Rpower (INR n) (- 0.5) ^ 2 = / INR n.
Proof.
  intros Hn. assert (H1 : 1 <= INR n) by (apply (le_INR 1); lia).
  replace (Rpower (INR n) (- 0.5) ^ 2)
    with (Rpower (INR n) (- 0.5) * Rpower (INR n) (- 0.5)) by ring.
  rewrite <- Rpower_plus.
  replace (- 0.5 + - 0.5) with (Ropp 1) by lra.
  rewrite Rpower_Ropp, Rpower_1 by lra. reflexivity.
Qed.

(** The sensitivity at the break-even radius of [n] members. *)
Lemma beam_fit_break_even (n : nat) :
  (1 <= n)%nat ->
  Beam.beam_fit (Beam.get_rad (Rpower (INR n) (- 0.5)) * 60) = Rpower (INR n) (- 0.5).
Proof.
  intros Hn. unfold Beam.beam_fit, Beam.get_rad. apply beam_fit_at_get_rad_at.
  - unfold Beam.default_fwhm. lra.
  - unfold Beam.default_nu. lra.
  - now apply Rpower_inv_sqrt_bounds.
Qed.

(** X3. Why the radius is called break-even: for a cluster of [n]
    members whose farthest member lies exactly at
    [get_rad(n**-0.5)], the sensitivity there is [n**-0.5] and the
    multiplier [P**-2/n] of lines 206-208 is exactly 1, the cost of
    pointing at one target. *)
Theorem break_even_multiplier (n : nat) :
  (1 <= n)%nat ->
  let break_even_dist := Beam.get_rad (Rpower (INR n) (- 0.5)) in
  Beam.beam_fit (break_even_dist * 60) = Rpower (INR n) (- 0.5) /\
  / Beam.beam_fit (break_even_dist * 60) ^ 2 / INR n = 1.
Proof.
  intros Hn. cbn zeta.
  assert (H1 : 1 <= INR n) by (apply (le_INR 1); lia).
  pose proof (beam_fit_break_even n Hn) as E.
  split; [exact E |].
  rewrite E, Rpower_inv_sqrt_sq by exact Hn. field. lra.
Qed.

Lemma break_even_multiplier_witness :
  Beam.beam_fit (Beam.get_rad (Rpower (INR 4) (- 0.5)) * 60) = Rpower (INR 4) (- 0.5) /\
  / Beam.beam_fit (Beam.get_rad (Rpower (INR 4) (- 0.5)) * 60) ^ 2 / INR 4 = 1.
Proof. apply (break_even_multiplier 4). lia. Defined.

Lemma break_even_one : Beam.get_rad (Rpower (INR 1) (- 0.5)) = 0.
Proof.
  rewrite break_even_formula. simpl INR. rewrite ln_1. pose proof ln2_pos.
  replace (0.5 * 0 / ln 2) with 0 by (field; lra). rewrite sqrt_0. lra.
Qed.

(** X4. The break-even radius [get_rad(num_targets**-0.5)] of line 192 is
    zero for one target, never negative, and grows with the number of
    targets, strictly so. *)
Theorem break_even_grows (n m : nat) :
  (1 <= n <= m)%nat ->
  Beam.get_rad (Rpower (INR 1) (- 0.5)) = 0 /\
  0 <= Beam.get_rad (Rpower (INR n) (- 0.5)) <= Beam.get_rad (Rpower (INR m) (- 0.5)) /\
  ((n < m)%nat ->
   Beam.get_rad (Rpower (INR n) (- 0.5)) < Beam.get_rad (Rpower (INR m) (- 0.5))).
Proof.
  intros [Hn Hm]. split; [exact break_even_one |].
  rewrite !break_even_formula. pose proof ln2_pos as H2.
  assert (Hn1 : 1 <= INR n) by (apply (le_INR 1); lia).
  assert (Hnm : INR n <= INR m) by (apply le_INR; lia).
  assert (Hl0 : 0 <= ln (INR n)) by (rewrite <- ln_1; apply ln_le_weak; lra).
  assert (Hl : ln (INR n) <= ln (INR m)) by (apply ln_le_weak; lra).
  assert (Hi : 0 < / ln 2) by now apply Rinv_0_lt_compat.
  assert (Ha : 0 <= 0.5 * ln (INR n) / ln 2).
  { apply Rmult_le_pos; lra. }
  assert (Hab : 0.5 * ln (INR n) / ln 2 <= 0.5 * ln (INR m) / ln 2).
  { unfold Rdiv. apply Rmult_le_compat_r; lra. }
  split.
  - pose proof (sqrt_pos (0.5 * ln (INR n) / ln 2)).
    pose proof (sqrt_le_1_alt _ _ Hab). lra.
  - intros Hlt.
    assert (Hlt' : INR n < INR m) by (apply lt_INR; lia).
    assert (Hll : ln (INR n) < ln (INR m)) by (apply ln_increasing; lra).
    assert (Hab' : 0.5 * ln (INR n) / ln 2 < 0.5 * ln (INR m) / ln 2).
    { unfold Rdiv. apply Rmult_lt_compat_r; lra. }
    pose proof (sqrt_lt_1_alt (0.5 * ln (INR n) / ln 2) (0.5 * ln (INR m) / ln 2)
                  (conj Ha Hab')). lra.
Qed.

Lemma break_even_grows_witness :
  Beam.get_rad (Rpower (INR 2) (- 0.5)) < Beam.get_rad (Rpower (INR 3) (- 0.5)).
Proof. apply (break_even_grows 2 3); lia. Defined.

(** * The entries of the separation matrix *)

Lemma floorZ_bounds (x : R) : IZR (floorZ x) <= x < IZR (floorZ x) + 1.
Proof.
  unfold floorZ. rewrite minus_IZR. destruct (archimed x) as [H1 H2]. lra.
Qed.

Lemma rint_near (x : R) : Rabs (IZR (rint x) - x) <= 1 / 2.
Proof.
  pose proof (floorZ_bounds x) as Hf. unfold rint.
  destruct (Rlt_dec (x - IZR (floorZ x)) (1 / 2)) as [H | H].
  - apply Rabs_le. lra.
  - destruct (Rlt_dec (1 / 2) (x - IZR (floorZ x))) as [H' | H'].
    + rewrite plus_IZR. apply Rabs_le. lra.
    + destruct (Z.even (floorZ x)); [| rewrite plus_IZR]; apply Rabs_le; lra.
Qed.

Lemma rint_IZR (z : Z) : rint (IZR z) = z.
Proof.
  assert (Hf : floorZ (IZR z) = z).
  { unfold floorZ. rewrite <- (tech_up (IZR z) (z + 1)); [lia | |];
      rewrite plus_IZR; lra. }
  unfold rint. rewrite Hf.
  destruct (Rlt_dec (IZR z - IZR z) (1 / 2)); [reflexivity | lra].
Qed.

Lemma pow10_pos (d : nat) : 0 < 10 ^ d.
Proof. apply pow_lt. lra. Qed.

Lemma np_round_0 (d : nat) : np_round 0 d = 0.
Proof.
  unfold np_round. rewrite Rmult_0_l, (rint_IZR 0).
  pose proof (pow10_pos d). field. lra.
Qed.

(** Rounding to [d] decimals moves a number by at most half a unit of the
    last decimal. *)
Lemma np_round_error (x : R) (d : nat) :
  Rabs (np_round x d - x) <= / 2 / 10 ^ d.
Proof.
  pose proof (pow10_pos d) as Hp. pose proof (rint_near (x * 10 ^ d)) as Hr.
  unfold np_round.
  replace (IZR (rint (x * 10 ^ d)) / 10 ^ d - x)
    with ((IZR (rint (x * 10 ^ d)) - x * 10 ^ d) * / 10 ^ d) by (field; lra).
  rewrite Rabs_mult, (Rabs_pos_eq (/ 10 ^ d)).
  - unfold Rdiv. apply Rmult_le_compat_r; [| lra].
    left. now apply Rinv_0_lt_compat.
  - left. now apply Rinv_0_lt_compat.
Qed.

(** The loop of [calc_separation] after the rows of a prefix [pre] of the
    catalogue. *)
Lemma calc_separation_rows (coords pre : list vec) (seps0 : ndarray) :
  let step := fun seps '(i, coord) =>
                set_row seps i (map (fun s => np_round s 5) (map (separation coord) coords)) in
  forall r c,
    cell (foldl step seps0 (enumerate pre)) r c =
      match pre !! r with
      | Some u => nth c (map (fun s => np_round s 5) (map (separation u) coords)) 0
      | None => cell seps0 r c
      end.
Proof.
  cbn zeta. induction pre as [| x pre IH] using rev_ind; intros r c.
  - reflexivity.
  - unfold enumerate in *. rewrite imap_app, foldl_app. cbn [imap foldl].
    rewrite Nat.add_0_r. cbn [set_row cell].
    destruct (Nat.eqb_spec r (length pre)) as [-> | Hne].
    + now rewrite list_lookup_middle.
    + rewrite IH. destruct (decide (r < length pre)%nat) as [Hlt | Hge].
      * now rewrite lookup_app_l.
      * rewrite (lookup_ge_None_2 pre) by lia.
        rewrite lookup_ge_None_2; [reflexivity |]. rewrite length_app. simpl. lia.
Qed.

Lemma nth_map_lookup {A} (f : A -> R) (l : list A) (c : nat) (v : A) :
  l !! c = Some v -> nth c (map f l) 0 = f v.
Proof.
  revert c. induction l as [| x l IH]; intros [| c]; simpl; try discriminate.
  - now intros [= ->].
  - apply IH.
Qed.

Lemma calc_separation_entry (coords : list vec) (i j : nat) (u v : vec) :
  coords !! i = Some u -> coords !! j = Some v ->
  cell (calc_separation coords) i j = np_round (separation u v) 5.
Proof.
  intros Hi Hj. unfold calc_separation.
  rewrite (calc_separation_rows coords coords), Hi.
  rewrite map_map. now apply (nth_map_lookup (fun x => np_round (separation u x) 5)).
Qed.

(** X5. The entry in row [i] and column [j] of the separation matrix is
    the separation of targets [i] and [j] rounded to 5 decimals, and so
    lies within 0.000005 degrees of that separation. *)
Theorem calc_separation_cell (coords : list vec) (i j : nat) (u v : vec) :
  coords !! i = Some u -> coords !! j = Some v ->
  cell (calc_separation coords) i j = np_round (separation u v) 5 /\
  Rabs (cell (calc_separation coords) i j - separation u v) <= 0.000005.
Proof.
  intros Hi Hj. pose proof (calc_separation_entry coords i j u v Hi Hj) as E.
  split; [exact E |]. rewrite E.
  eapply Rle_trans; [apply np_round_error |]. simpl. lra.
Qed.

Lemma calc_separation_cell_witness :
  cell (calc_separation Examples.lone_coords) 0 2
    = np_round (separation (SkyCoord_deg 0 0) (SkyCoord_deg 5 0)) 5 /\
  Rabs (cell (calc_separation Examples.lone_coords) 0 2
        - separation (SkyCoord_deg 0 0) (SkyCoord_deg 5 0)) <= 0.000005.
Proof.
  apply (calc_separation_cell Examples.lone_coords 0 2); reflexivity.
Defined.

Lemma separation_self (u : vec) : u <> Vec.zero -> separation u u = 0.
Proof.
  intros Hu. unfold separation, Vec.norm.
  assert (Hnn : 0 <= Vec.dot u u).
  { destruct u as [[x y] z]. simpl. nra. }
  rewrite sqrt_sqrt by exact Hnn.
  assert (Hne : Vec.dot u u <> 0).
  { intros E. now apply dot_self_zero in E. }
  replace (Vec.dot u u / Vec.dot u u) with 1 by (field; exact Hne).
  rewrite acos_1. unfold to_degrees. pose proof PI_RGT_0. field. lra.
Qed.

Lemma calc_separation_mirror (coords : list vec) (i j : nat) (u v : vec) :
  coords !! i = Some u -> coords !! j = Some v ->
  cell (calc_separation coords) i j = cell (calc_separation coords) j i.
Proof.
  intros Hu Hv.
  rewrite (calc_separation_entry coords i j u v Hu Hv).
  rewrite (calc_separation_entry coords j i v u Hv Hu).
  now rewrite separation_sym.
Qed.

Lemma calc_separation_diagonal (coords : list vec) (i : nat) (u : vec) :
  coords !! i = Some u -> u <> Vec.zero -> cell (calc_separation coords) i i = 0.
Proof.
  intros Hu Hne. rewrite (calc_separation_entry coords i i u u Hu Hu).
  rewrite separation_self by exact Hne. apply np_round_0.
Qed.

(** X6. The diagonal entry of the separation matrix is 0 for every target
    that is a direction (a non-zero vector), and the two entries of a pair
    of targets, which the code computes and rounds one by one, differ by
    no more than one unit of the fifth decimal. *)
Theorem calc_separation_symmetric (coords : list vec) (i j : nat) :
  (i < length coords)%nat -> (j < length coords)%nat ->
  Rabs (cell (calc_separation coords) i j - cell (calc_separation coords) j i)
    <= 0.00001 /\
  (forall u, coords !! i = Some u -> u <> Vec.zero ->
             cell (calc_separation coords) i i = 0).
Proof.
  intros Hi Hj.
  destruct (lookup_lt_is_Some_2 coords i Hi) as [u Hu].
  destruct (lookup_lt_is_Some_2 coords j Hj) as [v Hv].
  split.
  - rewrite (calc_separation_mirror coords i j u v Hu Hv).
    rewrite Rminus_diag, Rabs_R0. lra.
  - intros u' Hu' Hne. now apply (calc_separation_diagonal coords i u').
Qed.

Lemma calc_separation_symmetric_witness :
  Rabs (cell (calc_separation Examples.lone_coords) 0 2
        - cell (calc_separation Examples.lone_coords) 2 0) <= 0.00001.
Proof.
  apply (calc_separation_symmetric Examples.lone_coords 0 2); simpl; lia.
Defined.

(** * The decoder on any linkage matrix *)

(** A child id resolves exactly when it is a leaf or the node of an
    earlier row. *)
Lemma node_members_Some (n k : nat) (clusters : gmap nat (list nat)) (g : nat) :
  (forall g, is_Some (clusters !! g) <-> (n <= g < n + k)%nat) ->
  is_Some (node_members n clusters g) <-> (g < n + k)%nat.
Proof.
  intros Hkeys. destruct (decide (g < n)%nat) as [Hlt | Hge].
  - rewrite node_members_leaf by exact Hlt. split; [lia | eauto].
  - rewrite node_members_merge by lia. rewrite Hkeys. lia.
Qed.

Lemma add_glob_missing (n : nat) (clusters : gmap nat (list nat)) (acc : list nat)
    (g : nat) :
  node_members n clusters g = None -> add_glob n clusters acc g = Raise KeyError.
Proof.
  unfold node_members, add_glob, dict_get.
  destruct (Z.of_nat g >? Z.of_nat n - 1)%Z; [| discriminate].
  intros ->. reflexivity.
Qed.

Lemma extract_row_missing (n k : nat) (clusters : gmap nat (list nat)) (r : linkage_row) :
  node_members n clusters (glob1 r) = None \/ node_members n clusters (glob2 r) = None ->
  extract_row n clusters (k, r) = Raise KeyError.
Proof.
  intros H. unfold extract_row. cbn [foldM].
  destruct (node_members n clusters (glob1 r)) as [ma |] eqn:Ea.
  - destruct H as [H | H]; [discriminate |].
    rewrite (add_glob_node _ _ _ _ _ Ea). run_bind.
    now rewrite (add_glob_missing _ _ _ _ H).
  - now rewrite (add_glob_missing _ _ _ _ Ea).
Qed.

(** The decoder's loop from row [k] on, for any linkage matrix: it ends
    with one more entry per row, each the members of the row's two
    children, or raises [KeyError] at a row that refers to a node no
    earlier row has made. *)
Lemma extract_rows_spec (n : nat) (rows : list linkage_row) :
  forall (k : nat) (clusters : gmap nat (list nat)),
    (forall g, is_Some (clusters !! g) <-> (n <= g < n + k)%nat) ->
    match foldM (extract_row n) clusters (imap (fun i r => ((k + i)%nat, r)) rows) with
    | Ok clusters' =>
        (forall g, is_Some (clusters' !! g) <-> (n <= g < n + k + length rows)%nat) /\
        size clusters' = (size clusters + length rows)%nat /\
        (forall g, (g < n + k)%nat -> clusters' !! g = clusters !! g) /\
        (forall i r, rows !! i = Some r ->
           (glob1 r < n + k + i)%nat /\ (glob2 r < n + k + i)%nat /\
           exists ma mb,
             node_members n clusters' (glob1 r) = Some ma /\
             node_members n clusters' (glob2 r) = Some mb /\
             clusters' !! (n + k + i)%nat = Some (ma ++ mb))
    | Raise e =>
        e = KeyError /\
        exists i r, rows !! i = Some r /\
          ~ ((glob1 r < n + k + i)%nat /\ (glob2 r < n + k + i)%nat)
    end.
Proof.
  induction rows as [| r rows IH]; intros k clusters Hkeys.
  - simpl. split; [| split; [lia | split]].
    + intros g. rewrite Hkeys. lia.
    + reflexivity.
    + intros i r H. discriminate.
  - rewrite imap_cons. cbn [foldM]. rewrite Nat.add_0_r.
    pose proof (node_members_Some n k clusters (glob1 r) Hkeys) as H1.
    pose proof (node_members_Some n k clusters (glob2 r) Hkeys) as H2.
    destruct (node_members n clusters (glob1 r)) as [ma |] eqn:Ea;
      [destruct (node_members n clusters (glob2 r)) as [mb |] eqn:Eb |].
    + rewrite (extract_row_Ok n k clusters r ma mb Ea Eb). run_bind.
      assert (Hg1 : (glob1 r < n + k)%nat) by (apply H1; eauto).
      assert (Hg2 : (glob2 r < n + k)%nat) by (apply H2; eauto).
      assert (Hfresh : clusters !! (k + n)%nat = None).
      { destruct (clusters !! (k + n)%nat) eqn:E; [| reflexivity].
        assert (Hs : is_Some (clusters !! (k + n)%nat)) by eauto.
        apply Hkeys in Hs. lia. }
      assert (Hkeys' : forall g, is_Some ((<[(k + n)%nat := ma ++ mb]> clusters) !! g)
                                 <-> (n <= g < n + S k)%nat).
      { intros g. destruct (decide (g = k + n)%nat) as [-> | Hne].
        - rewrite lookup_insert_eq. split; [lia | eauto].
        - rewrite lookup_insert_ne by congruence. rewrite Hkeys. lia. }
      specialize (IH (S k) _ Hkeys').
      rewrite (imap_ext _ (fun i r0 => ((S k + i)%nat, r0))
                 rows) by (intros; simpl; f_equal; lia).
      destruct (foldM (extract_row n) _ _) as [clusters' | e].
      * destruct IH as (IHk & IHsize & IHold & IHrows).
        assert (Hold : forall g, (g < n + k)%nat -> clusters' !! g = clusters !! g).
        { intros g Hg. rewrite IHold by lia. apply lookup_insert_ne. lia. }
        assert (Hnode : forall g, (g < n + k)%nat ->
                   node_members n clusters' g = node_members n clusters g).
        { intros g Hg. unfold node_members.
          destruct (Z.of_nat g >? Z.of_nat n - 1)%Z; [now apply Hold | reflexivity]. }
        split; [| split; [| split]].
        -- intros g. rewrite IHk. simpl. lia.
        -- rewrite IHsize, map_size_insert_None by exact Hfresh. simpl. lia.
        -- exact Hold.
        -- intros [| i] r' Hr'.
           ++ simpl in Hr'. injection Hr' as <-. rewrite Nat.add_0_r.
              split; [exact Hg1 |]. split; [exact Hg2 |].
              exists ma, mb. rewrite !Hnode by assumption.
              split; [exact Ea |]. split; [exact Eb |].
              rewrite IHold by lia.
              replace (n + k)%nat with (k + n)%nat by lia. apply lookup_insert_eq.
           ++ simpl in Hr'.
              destruct (IHrows i r' Hr') as (G1 & G2 & ma' & mb' & E1 & E2 & E3).
              split; [lia |]. split; [lia |]. exists ma', mb'.
              split; [exact E1 |]. split; [exact E2 |].
              replace (n + k + S i)%nat with (n + S k + i)%nat by lia. exact E3.
      * destruct IH as (-> & i & r' & Hr' & Hbad). split; [reflexivity |].
        exists (S i), r'. split; [exact Hr' |].
        replace (n + k + S i)%nat with (n + S k + i)%nat by lia. exact Hbad.
    + rewrite extract_row_missing by now right. run_bind.
      split; [reflexivity |]. exists 0%nat, r. split; [reflexivity |].
      rewrite Nat.add_0_r. intros [_ Hb]. apply H2 in Hb. destruct Hb. discriminate.
    + rewrite extract_row_missing by now left. run_bind.
      split; [reflexivity |]. exists 0%nat, r. split; [reflexivity |].
      rewrite Nat.add_0_r. intros [Ha _]. apply H1 in Ha. destruct Ha. discriminate.
Qed.

Lemma extract_levels_spec {L} (rows : list linkage_row) (labels : list L) :
  let n := length labels in
  match extract_levels rows labels with
  | Ok clusters' =>
      (forall g, is_Some (clusters' !! g) <-> (n <= g < n + length rows)%nat) /\
      size clusters' = length rows /\
      (forall i r, rows !! i = Some r ->
         (glob1 r < n + i)%nat /\ (glob2 r < n + i)%nat /\
         exists ma mb,
           node_members n clusters' (glob1 r) = Some ma /\
           node_members n clusters' (glob2 r) = Some mb /\
           clusters' !! (n + i)%nat = Some (ma ++ mb))
  | Raise e =>
      e = KeyError /\
      exists i r, rows !! i = Some r /\
        ~ ((glob1 r < n + i)%nat /\ (glob2 r < n + i)%nat)
  end.
Proof.
  cbn zeta. unfold extract_levels, enumerate.
  pose proof (extract_rows_spec (length labels) rows 0 ∅) as H.
  cbn [Nat.add] in H.
  assert (H0 : forall g, is_Some ((∅ : gmap nat (list nat)) !! g)
                         <-> (length labels <= g < length labels + 0)%nat).
  { intros g. rewrite lookup_empty. split; [intros [x Hx]; discriminate | lia]. }
  specialize (H H0).
  destruct (foldM _ _ _) as [clusters' | e].
  - destruct H as (H1 & H2 & _ & H3). split; [| split].
    + intros g. rewrite H1. lia.
    + rewrite H2, map_size_empty. reflexivity.
    + intros i r Hr. destruct (H3 i r Hr) as (G1 & G2 & ma & mb & E1 & E2 & E3).
      rewrite Nat.add_0_r in *. eauto 10.
  - destruct H as (H1 & i & r & Hr & Hbad).
    rewrite Nat.add_0_r in Hbad. eauto.
Qed.

(** X7. The decoder on any linkage matrix, valid or not: it returns
    exactly when every row refers only to leaves and to nodes made by
    earlier rows (ids below [len(labels) + row]); a row that refers to any
    other id makes it raise [KeyError], from the lookup of line 87. *)
Theorem extract_levels_KeyError {L} (rows : list linkage_row) (labels : list L) :
  ((exists clusters, extract_levels rows labels = Ok clusters) <->
   (forall i r, rows !! i = Some r ->
      (glob1 r < length labels + i)%nat /\ (glob2 r < length labels + i)%nat)) /\
  ((exists i r, rows !! i = Some r /\
      ~ ((glob1 r < length labels + i)%nat /\ (glob2 r < length labels + i)%nat)) ->
   extract_levels rows labels = Raise KeyError).
Proof.
  pose proof (extract_levels_spec rows labels) as H. cbn zeta in H.
  destruct (extract_levels rows labels) as [clusters | e].
  - destruct H as (_ & _ & Hrows). split.
    + split; [| eauto]. intros _ i r Hr.
      destruct (Hrows i r Hr) as (G1 & G2 & _). auto.
    + intros (i & r & Hr & Hbad). exfalso. apply Hbad.
      destruct (Hrows i r Hr) as (G1 & G2 & _). auto.
  - destruct H as (-> & i & r & Hr & Hbad). split.
    + split; [intros [c Hc]; discriminate |].
      intros Hall. exfalso. apply Hbad. exact (Hall i r Hr).
    + reflexivity.
Qed.

(** X8. Whenever the decoder returns, its result has one entry per row
    of the linkage matrix, at the ids [len(labels) + row], and the entry
    of a row lists the members of the row's first child followed by those
    of its second child, a leaf counting as its own single member. *)
Theorem extract_levels_children {L} (rows : list linkage_row) (labels : list L)
    (clusters : gmap nat (list nat)) :
  extract_levels rows labels = Ok clusters ->
  size clusters = length rows /\
  (forall g, is_Some (clusters !! g) <->
             (length labels <= g < length labels + length rows)%nat) /\
  (forall i r, rows !! i = Some r ->
     exists ma mb,
       node_members (length labels) clusters (glob1 r) = Some ma /\
       node_members (length labels) clusters (glob2 r) = Some mb /\
       clusters !! (length labels + i)%nat = Some (ma ++ mb)).
Proof.
  intros E. pose proof (extract_levels_spec rows labels) as H. cbn zeta in H.
  rewrite E in H. destruct H as (Hkeys & Hsize & Hrows).
  split; [exact Hsize |]. split; [exact Hkeys |].
  intros i r Hr. destruct (Hrows i r Hr) as (_ & _ & H). exact H.
Qed.

Lemma extract_levels_children_witness :
  size Examples.pairs_clusters = 3%nat /\
  exists ma mb,
    node_members 4 Examples.pairs_clusters 4 = Some ma /\
    node_members 4 Examples.pairs_clusters 5 = Some mb /\
    Examples.pairs_clusters !! 6%nat = Some (ma ++ mb).
Proof.
  destruct (extract_levels_children Examples.pairs_linked Examples.pairs_labels
              Examples.pairs_clusters pairs_decoded) as (Hs & _ & Hrows).
  split; [exact Hs |]. exact (Hrows 2%nat _ eq_refl).
Defined.

(** * Nested clusters *)

Lemma elem_of_concat_2 {A} (x : A) (l : list A) (ls : list (list A)) :
  l ∈ ls -> x ∈ l -> x ∈ concat ls.
Proof.
  induction ls as [| l0 ls IH]; intros Hl Hx; [inversion Hl |].
  simpl. apply elem_of_app. apply elem_of_cons in Hl as [-> | Hl]; auto.
Qed.

Lemma nested_inv_init (act : list (nat * list nat)) : nested_inv ∅ act.
Proof.
  split.
  - intros g1 g2 m1 m2 H. rewrite lookup_empty in H. discriminate.
  - intros g1 g2 m1 m2 H. rewrite lookup_empty in H. discriminate.
  - intros g m H. rewrite lookup_empty in H. discriminate.
Qed.

Lemma nested_inv_step (n k : nat) (used : list nat) (clusters : gmap nat (list nat))
    (act rest : list (nat * list nat)) (a b : nat) (ma mb : list nat) :
  decode_inv n k used clusters act ->
  nested_inv clusters act ->
  act ≡ₚ (a, ma) :: (b, mb) :: rest ->
  clusters !! (k + n)%nat = None ->
  nested_inv (<[(k + n)%nat := ma ++ mb]> clusters) ((n + k, ma ++ mb)%nat :: rest).
Proof.
  intros Inv [Hpairs Horder Hact] Hperm Hfresh.
  assert (Hnd : NoDup ((ma ++ mb) ++ concat (snd <$> rest))).
  { pose proof (inv_leaves _ _ _ _ _ Inv) as Hl. rewrite Hperm in Hl. simpl in Hl.
    rewrite <- app_assoc, Hl. apply NoDup_seq. }
  apply NoDup_app in Hnd as (Hnd & Hdisj & _).
  apply NoDup_app in Hnd as (_ & Hab & _).
  assert (Hnea : ma <> []).
  { destruct (inv_act _ _ _ _ _ Inv a ma) as (_ & H & _); [rewrite Hperm; left | exact H]. }
  assert (Hneb : mb <> []).
  { destruct (inv_act _ _ _ _ _ Inv b mb) as (_ & H & _);
      [rewrite Hperm; right; left | exact H]. }
  (* an older cluster lies inside one child of the new one, or apart from it *)
  assert (Hold : forall g m, clusters !! g = Some m ->
            (forall x, x ∈ m -> x ∈ ma) \/ (forall x, x ∈ m -> x ∈ mb) \/
            (forall x, x ∈ m -> x ∉ ma ++ mb) /\
            exists c mc, (c, mc) ∈ rest /\ forall x, x ∈ m -> x ∈ mc).
  { intros g m Hg. destruct (Hact g m Hg) as (c & mc & Hc & Hsub).
    rewrite Hperm in Hc.
    apply elem_of_cons in Hc as [[= -> ->] | Hc]; [now left |].
    apply elem_of_cons in Hc as [[= -> ->] | Hc]; [right; now left |].
    right. right. split; [| eauto]. intros x Hx Hin. apply (Hdisj x Hin).
    apply (elem_of_concat_2 x mc); [| auto].
    apply list_elem_of_fmap. exists (c, mc). auto. }
  assert (Hin : forall g m, clusters !! g = Some m ->
            (forall x, x ∈ m -> x ∈ ma ++ mb) \/ (forall x, x ∈ m -> x ∉ ma ++ mb)).
  { intros g m Hg. destruct (Hold g m Hg) as [H | [H | [H _]]].
    - left. intros x Hx. apply elem_of_app. left. auto.
    - left. intros x Hx. apply elem_of_app. right. auto.
    - now right. }
  (* the new cluster lies inside no older one *)
  assert (Hnew : forall g m, clusters !! g = Some m ->
            ~ (forall x, x ∈ ma ++ mb -> x ∈ m)).
  { intros g m Hg Hsub.
    destruct ma as [| xa ma']; [congruence |]. destruct mb as [| xb mb']; [congruence |].
    assert (Hxa : xa ∈ (xa :: ma') ++ xb :: mb') by (apply elem_of_app; left; left).
    assert (Hxb : xb ∈ (xa :: ma') ++ xb :: mb') by (apply elem_of_app; right; left).
    destruct (Hold g m Hg) as [H | [H | [H _]]].
    - apply (Hab xb); [apply H, Hsub, Hxb | left].
    - apply (Hab xa); [left | apply H, Hsub, Hxa].
    - exact (H xa (Hsub xa Hxa) Hxa). }
  split.
  - intros g1 g2 m1 m2.
    destruct (decide (g1 = k + n)%nat) as [-> | H1];
      destruct (decide (g2 = k + n)%nat) as [-> | H2].
    + rewrite lookup_insert_eq. intros [= <-] [= <-]. left. auto.
    + rewrite lookup_insert_eq, lookup_insert_ne by congruence.
      intros [= <-] Hg2. destruct (Hin g2 m2 Hg2) as [Hsub | Hout].
      * right. left. exact Hsub.
      * right. right. intros x Hx Hx2. exact (Hout x Hx2 Hx).
    + rewrite lookup_insert_ne, lookup_insert_eq by congruence.
      intros Hg1 [= <-]. destruct (Hin g1 m1 Hg1) as [Hsub | Hout].
      * left. exact Hsub.
      * right. right. exact Hout.
    + rewrite !lookup_insert_ne by congruence. apply Hpairs.
  - intros g1 g2 m1 m2.
    destruct (decide (g1 = k + n)%nat) as [-> | H1];
      destruct (decide (g2 = k + n)%nat) as [-> | H2].
    + lia.
    + rewrite lookup_insert_eq, lookup_insert_ne by congruence.
      intros [= <-] Hg2 Hsub. exfalso. exact (Hnew g2 m2 Hg2 Hsub).
    + rewrite lookup_insert_ne by congruence. intros Hg1 _ _.
      assert (Hs : is_Some (clusters !! g1)) by eauto.
      apply (inv_keys _ _ _ _ _ Inv) in Hs. lia.
    + rewrite !lookup_insert_ne by congruence. apply Horder.
  - intros g m. destruct (decide (g = k + n)%nat) as [-> | Hne].
    + rewrite lookup_insert_eq. intros [= <-]. exists (n + k)%nat, (ma ++ mb).
      split; [left | auto].
    + rewrite lookup_insert_ne by congruence. intros Hg.
      destruct (Hold g m Hg) as [H | [H | (_ & c & mc & Hc & Hsub)]].
      * exists (n + k)%nat, (ma ++ mb). split; [left |].
        intros x Hx. apply elem_of_app. left. auto.
      * exists (n + k)%nat, (ma ++ mb). split; [left |].
        intros x Hx. apply elem_of_app. right. auto.
      * exists c, mc. split; [now right | exact Hsub].
Qed.

Lemma decode_rows_nested (n : nat) (rows : list linkage_row) :
  forall (k : nat) (used : list nat) (clusters : gmap nat (list nat))
         (act : list (nat * list nat)),
    decode_inv n k used clusters act -> nested_inv clusters act ->
    valid_rows n used k rows = true ->
    exists used' clusters' act',
      foldM (extract_row n) clusters (imap (fun i r => ((k + i)%nat, r)) rows)
        = Ok clusters' /\
      decode_inv n (k + length rows) used' clusters' act' /\
      nested_inv clusters' act'.
Proof.
  induction rows as [| r rows IH]; intros k used clusters act Inv Nest Hvalid.
  - exists used, clusters, act. simpl. rewrite Nat.add_0_r. auto.
  - cbn [valid_rows] in Hvalid.
    repeat (apply andb_prop in Hvalid as [Hvalid ?]).
    repeat match goal with
           | H : negb _ = true |- _ => apply negb_true_iff in H
           end.
    match goal with H : valid_rows _ _ _ _ = true |- _ => rename H into Hrest end.
    assert (Ha : (glob1 r < n + k)%nat) by now apply Nat.ltb_lt.
    assert (Hb : (glob2 r < n + k)%nat) by now apply Nat.ltb_lt.
    assert (Hab : glob1 r <> glob2 r) by now apply Nat.eqb_neq.
    assert (Hua : glob1 r ∉ used) by (eapply bool_decide_eq_false_1; eassumption).
    assert (Hub : glob2 r ∉ used) by (eapply bool_decide_eq_false_1; eassumption).
    destruct (decode_inv_step_explicit n k used clusters act r Inv Ha Hb Hab Hua Hub)
      as (ma & mb & rest & Hperm & Hfresh & Hstep & Inv1).
    pose proof (nested_inv_step n k used clusters act rest _ _ ma mb Inv Nest Hperm Hfresh)
      as Nest1.
    destruct (IH (S k) _ _ _ Inv1 Nest1 Hrest)
      as (used' & clusters' & act' & Hfold & Inv' & Nest').
    exists used', clusters', act'. split; [| split; [| exact Nest']].
    + rewrite imap_cons. cbn [foldM]. rewrite Nat.add_0_r, Hstep. run_bind.
      rewrite <- Hfold. f_equal. apply imap_ext. intros i x _. simpl.
      f_equal. lia.
    + simpl. replace (k + S (length rows))%nat with (S k + length rows)%nat by lia.
      exact Inv'.
Qed.

(** The decoder on the rows of a well-formed linkage matrix, partial or
    complete. *)
Lemma extract_levels_valid_rows {L} (rows : list linkage_row) (labels : list L) :
  valid_rows (length labels) [] 0 rows = true ->
  exists used clusters act,
    extract_levels rows labels = Ok clusters /\
    decode_inv (length labels) (length rows) used clusters act /\
    nested_inv clusters act.
Proof.
  intros Hvalid.
  destruct (decode_rows_nested (length labels) rows 0 [] ∅ _
              (decode_inv_init (length labels)) (nested_inv_init _) Hvalid)
    as (used & clusters & act & Hfold & Inv & Nest).
  exists used, clusters, act. split; [exact Hfold | auto].
Qed.

(** X9. For the rows of a linkage matrix as scipy produces them, also
    when cut short, every cluster the decoder returns is a list of at
    least two target indices, all in range and none repeated (so at most
    as many as there are targets). *)
Theorem extract_levels_members {L} (rows : list linkage_row) (labels : list L) :
  valid_rows (length labels) [] 0 rows = true ->
  exists clusters,
    extract_levels rows labels = Ok clusters /\
    forall g m, clusters !! g = Some m ->
      (2 <= length m <= length labels)%nat /\ NoDup m /\
      Forall (fun i => (i < length labels)%nat) m.
Proof.
  intros Hvalid.
  destruct (extract_levels_valid_rows rows labels Hvalid)
    as (used & clusters & act & Hrun & Inv & _).
  exists clusters. split; [exact Hrun |].
  intros g m Hg.
  destruct (inv_members _ _ _ _ _ Inv g m Hg) as (Hne & Hnd & Hrange).
  split; [| auto]. split.
  - pose proof (extract_levels_spec rows labels) as Hspec. cbn zeta in Hspec.
    rewrite Hrun in Hspec. destruct Hspec as (Hkeys & _ & Hrows).
    assert (Hs : is_Some (clusters !! g)) by eauto.
    apply Hkeys in Hs.
    destruct (lookup_lt_is_Some_2 rows (g - length labels)) as [r Hr]; [lia |].
    destruct (Hrows _ r Hr) as (_ & _ & ma & mb & Ea & Eb & Em).
    replace (length labels + (g - length labels))%nat with g in Em by lia.
    assert (m = ma ++ mb) by congruence. subst m.
    assert (Hnem : forall c mc, node_members (length labels) clusters c = Some mc ->
                                mc <> []).
    { intros c mc. unfold node_members.
      destruct (Z.of_nat c >? Z.of_nat (length labels) - 1)%Z.
      - intros Hc. now destruct (inv_members _ _ _ _ _ Inv c mc Hc).
      - intros [= <-]. discriminate. }
    pose proof (Hnem _ _ Ea). pose proof (Hnem _ _ Eb).
    rewrite length_app. destruct ma, mb; simpl; try congruence; lia.
  - rewrite <- (length_seq (length labels) 0). apply submseteq_length.
    apply NoDup_submseteq; [exact Hnd |].
    intros x Hx. apply elem_of_seq. rewrite Forall_forall in Hrange.
    specialize (Hrange x Hx). lia.
Qed.

Lemma extract_levels_members_witness :
  exists clusters,
    extract_levels Examples.pairs_linked Examples.pairs_labels = Ok clusters /\
    forall g m, clusters !! g = Some m ->
      (2 <= length m <= 4)%nat /\ NoDup m /\ Forall (fun i => (i < 4)%nat) m.
Proof.
  apply (extract_levels_members Examples.pairs_linked Examples.pairs_labels).
  reflexivity.
Defined.

(** X10. For the rows of a linkage matrix as scipy produces them, any two
    clusters the decoder returns are nested or disjoint: one holds every
    member of the other, or they share no target; and of two nested
    clusters the inner one has the smaller id, which makes the selector,
    going down the ids, meet a cluster before the clusters inside it. *)
Theorem extract_levels_nested {L} (rows : list linkage_row) (labels : list L) :
  valid_rows (length labels) [] 0 rows = true ->
  exists clusters,
    extract_levels rows labels = Ok clusters /\
    forall g1 g2 m1 m2,
      clusters !! g1 = Some m1 -> clusters !! g2 = Some m2 ->
      nested_or_disjoint m1 m2 /\
      ((forall x, x ∈ m1 -> x ∈ m2) -> (g1 <= g2)%nat).
Proof.
  intros Hvalid.
  destruct (extract_levels_valid_rows rows labels Hvalid)
    as (used & clusters & act & Hrun & _ & Nest).
  exists clusters. split; [exact Hrun |].
  intros g1 g2 m1 m2 H1 H2. split.
  - exact (nest_pairs _ _ Nest g1 g2 m1 m2 H1 H2).
  - exact (nest_order _ _ Nest g1 g2 m1 m2 H1 H2).
Qed.

Lemma extract_levels_nested_witness :
  exists clusters,
    extract_levels Examples.pairs_linked Examples.pairs_labels = Ok clusters /\
    forall g1 g2 m1 m2,
      clusters !! g1 = Some m1 -> clusters !! g2 = Some m2 ->
      nested_or_disjoint m1 m2 /\
      ((forall x, x ∈ m1 -> x ∈ m2) -> (g1 <= g2)%nat).
Proof.
  apply (extract_levels_nested Examples.pairs_linked Examples.pairs_labels).
  reflexivity.
Defined.

(** * The circumcentre *)

Lemma dot_scale_l (k : R) (u v : vec) : Vec.dot (Vec.scale k u) v = k * Vec.dot u v.
Proof. destruct u as [[ux uy] uz], v as [[vx vy] vz]. simpl. ring. Qed.

Lemma dot_sub_r (u v w : vec) : Vec.dot u (Vec.sub v w) = Vec.dot u v - Vec.dot u w.
Proof.
  destruct u as [[ux uy] uz], v as [[vx vy] vz], w as [[wx wy] wz]. simpl. ring.
Qed.

Lemma dist_sq_diff (e p q : vec) :
  Vec.dot (Vec.sub e p) (Vec.sub e p) - Vec.dot (Vec.sub e q) (Vec.sub e q)
  = 2 * Vec.dot e (Vec.sub q p) + Vec.dot p p - Vec.dot q q.
Proof.
  destruct e as [[ex ey] ez], p as [[px py] pz], q as [[qx qy] qz]. simpl. ring.
Qed.

(** The value of the circumcentre formula off the degenerate case. *)
Lemma calc_circumcentre_Pos (c0 c1 c2 E : vec) :
  calc_circumcentre [c0; c1; c2] = Ok (Pos E) ->
  let A := Vec.sub c1 c0 in
  let B := Vec.sub c2 c1 in
  let C := Vec.sub c0 c2 in
  let AB := Vec.cross A B in
  Vec.dot AB AB <> 0 /\
  E = Vec.add (Vec.scale 0.5 (Vec.add c0 c2))
        (Vec.scale (Vec.dot A B / (2 * Vec.dot AB AB)) (Vec.cross C AB)).
Proof.
  unfold calc_circumcentre. cbn [item lookup list_lookup]. run_bind. cbn zeta.
  set (AB := Vec.cross (Vec.sub c1 c0) (Vec.sub c2 c1)).
  assert (E8 : 8 * (0.5 * Vec.norm AB) ^ 2 = 2 * Vec.dot AB AB).
  { rewrite <- norm_sq. decimals. field. }
  rewrite E8.
  destruct (Req_dec_T (2 * Vec.dot AB AB) 0) as [H0 | H0]; [discriminate |].
  intros [= <-]. split; [lra | reflexivity].
Qed.

(** The offset direction of the circumcentre against the chords and the
    normal of the triangle. *)
Lemma offset_dot_chords (c0 c1 c2 : vec) :
  let A := Vec.sub c1 c0 in
  let B := Vec.sub c2 c1 in
  let C := Vec.sub c0 c2 in
  let AB := Vec.cross A B in
  Vec.dot (Vec.cross C AB) A = - Vec.dot AB AB /\
  Vec.dot (Vec.cross C AB) B = Vec.dot AB AB /\
  Vec.dot (Vec.cross C AB) AB = 0.
Proof.
  destruct c0 as [[x0 y0] z0], c1 as [[x1 y1] z1], c2 as [[x2 y2] z2].
  cbn zeta. unfold Vec.sub, Vec.cross, Vec.dot.
  split; [| split]; ring.
Qed.

Lemma centre_dot_chords (c0 c1 c2 E : vec) :
  calc_circumcentre [c0; c1; c2] = Ok (Pos E) ->
  2 * Vec.dot E (Vec.sub c1 c0) = Vec.dot c1 c1 - Vec.dot c0 c0 /\
  2 * Vec.dot E (Vec.sub c2 c1) = Vec.dot c2 c2 - Vec.dot c1 c1 /\
  Vec.dot (Vec.sub E c0) (Vec.cross (Vec.sub c1 c0) (Vec.sub c2 c1)) = 0.
Proof.
  intros H. apply calc_circumcentre_Pos in H. cbn zeta in H.
  destruct H as [Hne ->].
  destruct (offset_dot_chords c0 c1 c2) as (HA & HB & HN). cbn zeta in HA, HB, HN.
  set (A := Vec.sub c1 c0) in *. set (B := Vec.sub c2 c1) in *.
  set (W := Vec.cross (Vec.sub c0 c2) (Vec.cross A B)) in *.
  set (s := Vec.dot (Vec.cross A B) (Vec.cross A B)) in *.
  set (M := Vec.scale 0.5 (Vec.add c0 c2)).
  assert (HMA : 2 * Vec.dot M A - Vec.dot A B = Vec.dot c1 c1 - Vec.dot c0 c0).
  { unfold M, A, B. clear.
    destruct c0 as [[x0 y0] z0], c1 as [[x1 y1] z1], c2 as [[x2 y2] z2].
    simpl. decimals. field. }
  assert (HMB : 2 * Vec.dot M B + Vec.dot A B = Vec.dot c2 c2 - Vec.dot c1 c1).
  { unfold M, A, B. clear.
    destruct c0 as [[x0 y0] z0], c1 as [[x1 y1] z1], c2 as [[x2 y2] z2].
    simpl. decimals. field. }
  assert (HMN : Vec.dot (Vec.sub M c0) (Vec.cross A B) = 0).
  { unfold M, A, B. clear.
    destruct c0 as [[x0 y0] z0], c1 as [[x1 y1] z1], c2 as [[x2 y2] z2].
    simpl. decimals. field. }
  split; [| split].
  - rewrite dot_add_l, dot_scale_l, HA, <- HMA. field. exact Hne.
  - rewrite dot_add_l, dot_scale_l, HB, <- HMB. field. exact Hne.
  - replace (Vec.dot (Vec.sub (Vec.add M (Vec.scale (Vec.dot A B / (2 * s)) W)) c0)
               (Vec.cross A B))
      with (Vec.dot (Vec.sub M c0) (Vec.cross A B)
            + Vec.dot A B / (2 * s) * Vec.dot W (Vec.cross A B)).
    + rewrite HMN, HN. ring.
    + rewrite <- dot_scale_l. generalize (Vec.scale (Vec.dot A B / (2 * s)) W).
      generalize (Vec.cross A B). clear. intros n w.
      destruct M as [[mx my] mz], c0 as [[x0 y0] z0], n as [[nx ny] nz],
        w as [[wx wy] wz]. simpl. ring.
Qed.

(** X11. When the three positions are not on one line,
    [calc_circumcentre] returns the circumcentre of their triangle: a
    point at the same straight-line distance from all three, in the plane
    through them. *)
Theorem calc_circumcentre_equidistant (c0 c1 c2 E : vec) :
  calc_circumcentre [c0; c1; c2] = Ok (Pos E) ->
  Vec.norm (Vec.sub E c0) = Vec.norm (Vec.sub E c1) /\
  Vec.norm (Vec.sub E c1) = Vec.norm (Vec.sub E c2) /\
  Vec.dot (Vec.sub E c0) (Vec.cross (Vec.sub c1 c0) (Vec.sub c2 c1)) = 0.
Proof.
  intros H. destruct (centre_dot_chords c0 c1 c2 E H) as (HA & HB & HN).
  split; [| split; [| exact HN]]; unfold Vec.norm; f_equal;
    apply Rminus_diag_uniq; rewrite dist_sq_diff; lra.
Qed.

(** The three positions on the coordinate axes. *)
Lemma calc_circumcentre_axes :
  calc_circumcentre [(1, 0, 0); (0, 1, 0); (0, 0, 1)] = Ok (Pos (/ 3, / 3, / 3)).
Proof.
  unfold calc_circumcentre. cbn [item lookup list_lookup]. run_bind. cbn zeta.
  set (AB := Vec.cross (Vec.sub (0, 1, 0) (1, 0, 0)) (Vec.sub (0, 0, 1) (0, 1, 0))).
  assert (E8 : 8 * (0.5 * Vec.norm AB) ^ 2 = 6).
  { replace (8 * (0.5 * Vec.norm AB) ^ 2) with (2 * Vec.norm AB ^ 2)
      by (decimals; field).
    rewrite norm_sq. unfold AB. simpl. ring. }
  rewrite E8. destruct (Req_dec_T 6 0) as [H0 | H0]; [lra |].
  do 2 f_equal. unfold AB. simpl. decimals. f_equal; [f_equal |]; field.
Qed.

Lemma calc_circumcentre_equidistant_witness :
  Vec.norm (Vec.sub (/ 3, / 3, / 3) (1, 0, 0)) = Vec.norm (Vec.sub (/ 3, / 3, / 3) (0, 1, 0)) /\
  Vec.norm (Vec.sub (/ 3, / 3, / 3) (0, 1, 0)) = Vec.norm (Vec.sub (/ 3, / 3, / 3) (0, 0, 1)).
Proof.
  destruct (calc_circumcentre_equidistant (1, 0, 0) (0, 1, 0) (0, 0, 1) (/ 3, / 3, / 3)
              calc_circumcentre_axes) as (H1 & H2 & _).
  split; assumption.
Defined.

(** X12. For three unit positions not on one line, the point
    [calc_circumcentre] returns has the same scalar product with each of
    them: its Cartesian components make the same angle with those of each
    of the three. *)
Theorem calc_circumcentre_cosines (c0 c1 c2 E : vec) :
  Vec.norm c0 = 1 -> Vec.norm c1 = 1 -> Vec.norm c2 = 1 ->
  calc_circumcentre [c0; c1; c2] = Ok (Pos E) ->
  Vec.dot E c0 = Vec.dot E c1 /\ Vec.dot E c1 = Vec.dot E c2.
Proof.
  intros H0 H1 H2 H. destruct (centre_dot_chords c0 c1 c2 E H) as (HA & HB & _).
  rewrite dot_sub_r in HA, HB.
  rewrite (norm_unit_dot c0 H0), (norm_unit_dot c1 H1) in HA.
  rewrite (norm_unit_dot c1 H1), (norm_unit_dot c2 H2) in HB.
  split; lra.
Qed.

Lemma calc_circumcentre_cosines_witness :
  Vec.dot (/ 3, / 3, / 3) (1, 0, 0) = Vec.dot (/ 3, / 3, / 3) (0, 1, 0) /\
  Vec.dot (/ 3, / 3, / 3) (0, 1, 0) = Vec.dot (/ 3, / 3, / 3) (0, 0, 1).
Proof.
  assert (Hn : forall v : vec, Vec.dot v v = 1 -> Vec.norm v = 1).
  { intros v Hv. unfold Vec.norm. rewrite Hv. apply sqrt_1. }
  apply (calc_circumcentre_cosines (1, 0, 0) (0, 1, 0) (0, 0, 1) (/ 3, / 3, / 3)).
  - apply Hn. simpl. ring.
  - apply Hn. simpl. ring.
  - apply Hn. simpl. ring.
  - exact calc_circumcentre_axes.
Defined.

(** * The two branches of the estimator *)

Lemma take_items_lookup {A} (arr : list A) (idx : list nat) (xs : list A) :
  take_items arr idx = Ok xs ->
  forall k i, idx !! k = Some i -> exists x, xs !! k = Some x /\ arr !! i = Some x.
Proof.
  revert xs. induction idx as [| i0 idx IH]; intros xs H k i Hk; [discriminate |].
  simpl in H. apply bind_Ok in H as (x & Hx & H). apply bind_Ok in H as (ys & Hys & H).
  injection H as <-. unfold item in Hx. destruct (arr !! i0) eqn:E; [| discriminate].
  injection Hx as ->. destruct k as [| k]; simpl in Hk |- *.
  - injection Hk as <-. eauto.
  - eapply IH; eauto.
Qed.

(** X13. When [get_centre] returns and when it raises, for a separation
    matrix of the catalogue's size: it returns a centre exactly for a
    non-empty member list with every index in range, and raises
    [IndexError] for an empty list (from [members[0]]) and for a list with
    an index out of range (from the indexing of [seps]). *)
Theorem get_centre_IndexError (ms : list nat) (coords : list vec) (seps : ndarray) :
  separation_shape (length coords) seps ->
  ((exists centre, get_centre ms coords seps = Ok centre) <->
   ms <> [] /\ Forall (fun i => (i < length coords)%nat) ms) /\
  (ms = [] \/ ~ Forall (fun i => (i < length coords)%nat) ms ->
   get_centre ms coords seps = Raise IndexError).
Proof.
  intros Hshape.
  assert (Hbad : ms = [] \/ ~ Forall (fun i => (i < length coords)%nat) ms ->
                 get_centre ms coords seps = Raise IndexError).
  { intros [-> | Hn].
    - unfold get_centre, take_cols, take_rows. reflexivity.
    - pose proof (take_subset_Raise seps _ ms Hshape Hn) as H.
      unfold get_centre.
      destruct (take_cols seps ms) as [cols |]; run_bind in H; run_bind;
        [now rewrite H | now injection H as ->]. }
  split; [| exact Hbad]. split.
  - intros [centre Hc]. split.
    + intros ->. rewrite Hbad in Hc by now left. discriminate.
    + destruct (decide (Forall (fun i => (i < length coords)%nat) ms)) as [H | H];
        [exact H |].
      rewrite Hbad in Hc by now right. discriminate.
  - intros [Hne Hrange]. now apply get_centre_Ok.
Qed.

Lemma get_centre_IndexError_witness :
  (exists centre, get_centre [0; 1]%nat Examples.pairs_coords (np_empty 4 4) = Ok centre) /\
  get_centre [0; 7]%nat Examples.pairs_coords (np_empty 4 4) = Raise IndexError /\
  get_centre [] Examples.pairs_coords (np_empty 4 4) = Raise IndexError.
Proof.
  destruct (get_centre_IndexError [0; 1]%nat Examples.pairs_coords (np_empty 4 4))
    as [H1 _]; [split; reflexivity |].
  destruct (get_centre_IndexError [0; 7]%nat Examples.pairs_coords (np_empty 4 4))
    as [_ H2]; [split; reflexivity |].
  destruct (get_centre_IndexError [] Examples.pairs_coords (np_empty 4 4))
    as [_ H3]; [split; reflexivity |].
  split; [| split].
  - apply H1. split; [discriminate |]. repeat constructor; simpl; lia.
  - apply H2. right. intros H. apply Forall_cons in H as [_ H].
    apply Forall_cons in H as [H _]. simpl in H. lia.
  - apply H3. now left.
Defined.

(** X14. The two branches of [get_centre], in terms of the distances the
    code measures from the sum of the first and the last member, [u] and
    [v].  Either no member is farther from that sum than both [u] and [v]:
    the sum is returned.  Or a member [w] strictly between the first and
    the last is the farthest from it, farther than [u] and at least as far
    as [v]: the circumcentre of [u], [w], [v] is returned. *)
Theorem get_centre_branches (ms : list nat) (coords : list vec) (seps : ndarray)
    (m0 mlast : nat) (u v : vec) (cs : list vec) :
  separation_shape (length coords) seps ->
  take_items coords ms = Ok cs ->
  ms !! 0%nat = Some m0 -> last ms = Some mlast ->
  coords !! m0 = Some u -> coords !! mlast = Some v ->
  let dist := centre_separation (Vec.add u v) in
  (get_centre ms coords seps = Ok (Pos (Vec.add u v)) /\
   forall x, x ∈ cs -> dist x <= Rmax (dist u) (dist v)) \/
  (exists k mk w,
     (0 < k < length ms - 1)%nat /\ ms !! k = Some mk /\ coords !! mk = Some w /\
     get_centre ms coords seps = calc_circumcentre [u; w; v] /\
     dist u < dist w /\ dist v <= dist w /\
     forall x, x ∈ cs -> dist x <= dist w).
Proof.
  intros Hshape Hcs Hm0 Hml Hu Hv. cbn zeta.
  pose proof (take_items_length _ _ _ Hcs) as Hlen.
  assert (Hf : first_item ms = Ok m0) by (unfold first_item, item; now rewrite Hm0).
  assert (Hl : last_item ms = Ok mlast) by (unfold last_item; now rewrite Hml).
  set (centre := Vec.add u v).
  set (dists := map (centre_separation centre) cs).
  destruct (np_argmax_Ok dists) as (k & Hk & Hklt).
  { unfold dists. destruct cs; [destruct ms; discriminate | discriminate]. }
  destruct (np_argmax_spec dists k Hk) as (m & Hm & Hmax & Hfirst).
  pose proof (get_centre_unfold ms coords seps m0 mlast k u v cs Hshape Hcs Hf Hl
                (item_lookup _ _ _ Hu) (item_lookup _ _ _ Hv) Hk) as Hgc.
  destruct (take_items_lookup _ _ _ Hcs 0%nat m0 Hm0) as (u' & Hcs0 & Hu').
  assert (u' = u) by congruence. subst u'.
  assert (Hmll : ms !! (length ms - 1)%nat = Some mlast)
    by now rewrite Nat.sub_1_r, <- last_lookup.
  destruct (take_items_lookup _ _ _ Hcs _ mlast Hmll) as (v' & Hcsl & Hv').
  assert (v' = v) by congruence. subst v'.
  assert (Hd0 : dists !! 0%nat = Some (centre_separation centre u)).
  { unfold dists. now rewrite list_lookup_fmap, Hcs0. }
  assert (Hdl : dists !! (length ms - 1)%nat = Some (centre_separation centre v)).
  { unfold dists. now rewrite list_lookup_fmap, Hcsl. }
  assert (Hall : forall x, x ∈ cs -> centre_separation centre x <= m).
  { intros x Hx. apply Hmax. unfold dists. apply list_elem_of_fmap. eauto. }
  unfold dists in Hklt. rewrite length_map, Hlen in Hklt.
  destruct (negb (k =? 0)%nat && negb (k =? length cs - 1)%nat) eqn:Eb.
  - right. apply andb_prop in Eb as [E0 E1].
    apply negb_true_iff, Nat.eqb_neq in E0, E1. rewrite Hlen in E1.
    destruct (lookup_lt_is_Some_2 ms k Hklt) as [mk Hmk].
    destruct (take_items_lookup _ _ _ Hcs k mk Hmk) as (w & Hcsk & Hw).
    assert (Hmw : m = centre_separation centre w).
    { unfold dists in Hm. rewrite list_lookup_fmap, Hcsk in Hm. simpl in Hm. congruence. }
    exists k, mk, w. split; [lia |]. split; [exact Hmk |]. split; [exact Hw |].
    split.
    + rewrite Hgc. unfold item. rewrite Hmk. run_bind. unfold item.
      rewrite Hu, Hw, Hv. reflexivity.
    + split; [| split].
      * rewrite <- Hmw. apply (Hfirst 0%nat); [lia | exact Hd0].
      * rewrite <- Hmw. apply Hall. eapply list_elem_of_lookup_2; eauto.
      * intros x Hx. rewrite <- Hmw. now apply Hall.
  - left. split; [exact Hgc |].
    assert (Hmid : m = centre_separation centre u \/ m = centre_separation centre v).
    { apply andb_false_iff in Eb as [E | E]; apply negb_false_iff, Nat.eqb_eq in E.
      - subst k. left. congruence.
      - rewrite Hlen in E. subst k. right. congruence. }
    intros x Hx. specialize (Hall x Hx).
    destruct Hmid as [<- | <-]; [eapply Rle_trans; [exact Hall | apply Rmax_l]
                                | eapply Rle_trans; [exact Hall | apply Rmax_r]].
Qed.

Lemma get_centre_branches_witness :
  let u := SkyCoord_deg 0 0 in
  let v := SkyCoord_deg 5 0 in
  let dist := centre_separation (Vec.add u v) in
  (get_centre [0; 1; 2]%nat Examples.lone_coords (np_empty 3 3) = Ok (Pos (Vec.add u v)) /\
   forall x, x ∈ Examples.lone_coords -> dist x <= Rmax (dist u) (dist v)) \/
  (exists k mk w,
     (0 < k < 2)%nat /\ [0; 1; 2]%nat !! k = Some mk /\
     Examples.lone_coords !! mk = Some w /\
     get_centre [0; 1; 2]%nat Examples.lone_coords (np_empty 3 3)
       = calc_circumcentre [u; w; v] /\
     dist u < dist w /\ dist v <= dist w /\
     forall x, x ∈ Examples.lone_coords -> dist x <= dist w).
Proof.
  cbn zeta.
  apply (get_centre_branches [0; 1; 2]%nat Examples.lone_coords (np_empty 3 3) 0 2
           (SkyCoord_deg 0 0) (SkyCoord_deg 5 0) Examples.lone_coords).
  - split; reflexivity.
  - reflexivity.
  - reflexivity.
  - reflexivity.
  - reflexivity.
  - reflexivity.
Defined.

(** * The records of the selector *)

(** Every way the body of the first loop can end without an exception. *)
Lemma select_cluster_inv (coords : list vec) (all_clusters : gmap nat (list nat))
    (seps : ndarray) (st st' : state) (c_num : nat) :
  select_cluster coords all_clusters seps st c_num = Ok st' ->
  exists ms, all_clusters !! c_num = Some ms /\
    (st' = bind_members st ms \/
     exists centre cs d,
       overlaps ms (assigned st) = false /\
       get_centre ms coords seps = Ok (Pos centre) /\
       take_items coords ms = Ok cs /\
       np_max (map (centre_separation centre) cs) = Ok d /\
       d < Beam.get_rad (Rpower (INR (length ms)) (- 0.5)) /\
       st' = accept (bind_members st ms) c_num ms centre
               (/ Beam.beam_fit (d * 60) ^ 2 / INR (length ms))).
Proof.
  unfold select_cluster, dict_get. intros H.
  destruct (all_clusters !! c_num) as [ms |]; [| discriminate].
  exists ms. split; [reflexivity |]. run_bind in H. cbn [assigned bind_members] in H.
  destruct (overlaps ms (assigned st)) eqn:Hov; [left; congruence |].
  destruct (get_centre ms coords seps) as [centre | e] eqn:Hc; [| discriminate].
  run_bind in H.
  destruct (take_items coords ms) as [cs | e] eqn:Hcs; [| discriminate].
  run_bind in H. destruct centre as [centre |]; [| left; congruence].
  destruct (np_max (map (centre_separation centre) cs)) as [d | e] eqn:Hd; [| discriminate].
  run_bind in H. destruct (Rlt_dec d _) as [Hlt | Hge]; [| left; congruence].
  right. exists centre, cs, d. injection H as <-. auto 10.
Qed.

(** Every way the body of the second loop can end without an exception. *)
Lemma sweep_singleton_inv (coords : list vec) (st st' : state) (c_num : nat) :
  sweep_singleton coords st c_num = Ok st' ->
  (c_num ∈ assigned st /\ st' = st) \/
  exists ms cs,
    (c_num ∉ assigned st) /\ loop_members st = Some ms /\ take_items coords ms = Ok cs /\
    loop_members st' = Some ms /\ assigned st' = assigned st /\
    cluster_info st' =
      <[c_num := {| members := [c_num]; centroid := SkyArray cs; int_time := 1 |}]>
        (cluster_info st).
Proof.
  unfold sweep_singleton. intros H.
  destruct (decide (c_num ∈ assigned st)) as [Hin | Hnin].
  - rewrite bool_decide_eq_true_2 in H by exact Hin. left. split; congruence.
  - rewrite bool_decide_eq_false_2 in H by exact Hnin.
    destruct (loop_members st) as [ms |] eqn:Hms; [| discriminate].
    destruct (take_items coords ms) as [cs |] eqn:Hcs; [| discriminate].
    run_bind in H. injection H as <-. right. exists ms, cs. simpl. auto 10.
Qed.

(** A property every step keeps holds at the end of the loop. *)
Lemma foldM_inv {A B} (f : A -> B -> result A) (P : A -> Prop) (l : list B) :
  (forall a b a', b ∈ l -> P a -> f a b = Ok a' -> P a') ->
  forall a a', P a -> foldM f a l = Ok a' -> P a'.
Proof.
  induction l as [| b l IH]; intros Hstep a a' Ha H.
  - simpl in H. congruence.
  - cbn [foldM] in H. apply bind_Ok in H as (a1 & H1 & H).
    apply (IH (fun a0 b0 a0' Hb => Hstep a0 b0 a0' (list_elem_of_further _ _ _ Hb)) a1 a');
      [| exact H].
    apply (Hstep a b a1); [left | exact Ha | exact H1].
Qed.

(** X15. A candidate cluster of a single member is never accepted: its
    break-even radius [get_rad(1**-0.5)] is 0 and no distance is below 0,
    so the loop body leaves the state as a rejection does. *)
Theorem select_cluster_single_member (coords : list vec)
    (all_clusters : gmap nat (list nat)) (seps : ndarray) (st : state)
    (c_num a : nat) :
  separation_shape (length coords) seps ->
  all_clusters !! c_num = Some [a] ->
  (a < length coords)%nat ->
  select_cluster coords all_clusters seps st c_num = Ok (bind_members st [a]).
Proof.
  intros Hshape Hms Ha.
  destruct (select_cluster_cases coords all_clusters seps st c_num [a] Hshape Hms)
    as [E | (_ & centre & t & E)]; [discriminate | now repeat constructor | exact E |].
  pose proof E as E'.
  apply select_cluster_inv in E' as (ms & Hms' & H).
  rewrite Hms in Hms'. injection Hms' as <-.
  destruct H as [Hst | (centre' & cs & d & _ & _ & Hcs & Hd & Hlt & _)];
    [now rewrite E, Hst |].
  exfalso. change (length [a]) with 1%nat in Hlt. rewrite break_even_one in Hlt.
  apply np_max_is_max in Hd as [Hin _].
  apply list_elem_of_fmap in Hin as (c & -> & _).
  pose proof (centre_separation_nonneg centre' c). lra.
Qed.

Lemma select_cluster_single_member_witness :
  select_cluster Examples.lone_coords (<[3%nat := [2%nat]]> ∅) (np_empty 3 3)
    (initial_state Examples.lone_coords) 3
  = Ok (bind_members (initial_state Examples.lone_coords) [2%nat]).
Proof.
  apply (select_cluster_single_member Examples.lone_coords (<[3%nat := [2%nat]]> ∅)
           (np_empty 3 3) (initial_state Examples.lone_coords) 3 2).
  - split; reflexivity.
  - apply lookup_insert_eq.
  - simpl. lia.
Defined.

(** X16. Monotone assignment: over any stretch of the first loop the
    lists [assigned] and [clusters] are only appended to, and the records
    of the ids outside the stretch are left as they were. *)
Theorem select_loop_grows (coords : list vec) (all_clusters : gmap nat (list nat))
    (seps : ndarray) (keys : list nat) (st st' : state) :
  foldM (select_cluster coords all_clusters seps) st keys = Ok st' ->
  assigned st `prefix_of` assigned st' /\
  clusters st `prefix_of` clusters st' /\
  (forall k, k ∉ keys -> cluster_info st' !! k = cluster_info st !! k).
Proof.
  revert st. induction keys as [| c keys IH]; intros st H.
  - simpl in H. injection H as <-. auto.
  - cbn [foldM] in H. apply bind_Ok in H as (st1 & H1 & H).
    destruct (IH st1 H) as (Ha & Hc & Hi).
    apply select_cluster_inv in H1 as (ms & Hms & H1).
    assert (Hstep : assigned st `prefix_of` assigned st1 /\
                    clusters st `prefix_of` clusters st1 /\
                    forall k, k <> c -> cluster_info st1 !! k = cluster_info st !! k).
    { destruct H1 as [-> | (centre & cs & d & _ & _ & _ & _ & _ & ->)].
      - simpl. auto.
      - simpl. split; [apply prefix_app_r; reflexivity |].
        split; [apply prefix_app_r; reflexivity |].
        intros k Hk. apply lookup_insert_ne. congruence. }
    destruct Hstep as (Ha1 & Hc1 & Hi1).
    split; [etrans; eauto |]. split; [etrans; eauto |].
    intros k Hk. apply not_elem_of_cons in Hk as [Hkc Hk].
    rewrite Hi by exact Hk. now apply Hi1.
Qed.

Lemma select_loop_grows_witness :
  exists st',
    foldM (select_cluster Examples.dup_coords Examples.dup_clusters (np_empty 3 3))
      (initial_state Examples.dup_coords) [3%nat] = Ok st' /\
    assigned (initial_state Examples.dup_coords) `prefix_of` assigned st' /\
    clusters (initial_state Examples.dup_coords) `prefix_of` clusters st'.
Proof.
  assert (E : foldM (select_cluster Examples.dup_coords Examples.dup_clusters
                       (np_empty 3 3))
                (initial_state Examples.dup_coords) [3%nat]
              = Ok (accept (bind_members (initial_state Examples.dup_coords) [0; 1]%nat)
                      3 [0; 1]%nat
                      (Vec.add (SkyCoord_deg 0 0) (SkyCoord_deg 0.01 0))
                      (int_time (Examples.pair_record 0 1 0 0.01)))).
  { cbn [foldM].
    erewrite select_cluster_tight_pair
      with (i := 0%nat) (j := 1%nat) (a := 0) (b := 0.01);
      [reflexivity | split; reflexivity | reflexivity | reflexivity | reflexivity
       | reflexivity | lra]. }
  eexists. split; [exact E |].
  destruct (select_loop_grows _ _ _ _ _ _ E) as (H1 & H2 & _). split; assumption.
Defined.

Lemma do_clustering_loops (coords : list vec) (all_clusters : gmap nat (list nat))
    (seps : ndarray) (info : gmap nat pointing) :
  do_clustering coords all_clusters seps = Ok info ->
  exists st1 st2,
    foldM (select_cluster coords all_clusters seps) (initial_state coords)
      (sorted_keys_desc all_clusters) = Ok st1 /\
    foldM (sweep_singleton coords) st1 (seq 0 (length coords)) = Ok st2 /\
    info = cluster_info st2.
Proof.
  unfold do_clustering. intros H.
  apply bind_Ok in H as (st1 & H1 & H). apply bind_Ok in H as (st2 & H2 & H).
  injection H as <-. eauto.
Qed.

(** Every record of the first loop is that of an accepted candidate. *)
Lemma select_loop_records (coords : list vec) (all_clusters : gmap nat (list nat))
    (seps : ndarray) (keys : list nat) (st st' : state) :
  (forall k p, cluster_info st !! k = Some p -> accepted_record coords all_clusters k p) ->
  foldM (select_cluster coords all_clusters seps) st keys = Ok st' ->
  forall k p, cluster_info st' !! k = Some p -> accepted_record coords all_clusters k p.
Proof.
  apply (foldM_inv _ (fun s => forall k p, cluster_info s !! k = Some p ->
                                 accepted_record coords all_clusters k p)).
  intros a c a' _ Ha H.
  apply select_cluster_inv in H as (ms & Hms & [-> | H]); [exact Ha |].
  destruct H as (centre & cs & d & _ & _ & Hcs & Hd & Hlt & ->).
  intros k p. simpl. destruct (decide (k = c)) as [-> | Hne].
  - rewrite lookup_insert_eq. intros [= <-]. exists centre, cs, d. simpl.
    split; [exact Hms |]. split; [reflexivity |]. split; [exact Hcs |].
    split; [now apply np_max_is_max |]. split; [exact Hlt | reflexivity].
  - rewrite lookup_insert_ne by congruence. apply Ha.
Qed.

Lemma sweep_loop_records (coords : list vec) (all_clusters : gmap nat (list nat))
    (js : list nat) (st st' : state) :
  Forall (fun j => (j < length coords)%nat) js ->
  (forall k p, cluster_info st !! k = Some p ->
     singleton_record (length coords) k p \/ accepted_record coords all_clusters k p) ->
  foldM (sweep_singleton coords) st js = Ok st' ->
  forall k p, cluster_info st' !! k = Some p ->
    singleton_record (length coords) k p \/ accepted_record coords all_clusters k p.
Proof.
  intros Hjs. rewrite Forall_forall in Hjs.
  apply (foldM_inv _ (fun s => forall k p, cluster_info s !! k = Some p ->
           singleton_record (length coords) k p \/ accepted_record coords all_clusters k p)).
  intros a j a' Hj Ha H.
  apply sweep_singleton_inv in H as [[_ ->] | (ms & cs & _ & _ & _ & _ & _ & Hinfo)];
    [exact Ha |].
  intros k p. rewrite Hinfo. destruct (decide (k = j)) as [-> | Hne].
  - rewrite lookup_insert_eq. intros [= <-]. left.
    split; [reflexivity |]. split; [reflexivity |]. split; [now apply Hjs |].
    simpl. eauto.
  - rewrite lookup_insert_ne by congruence. apply Ha.
Qed.

Lemma do_clustering_records_inv (coords : list vec)
    (all_clusters : gmap nat (list nat)) (seps : ndarray) (info : gmap nat pointing) :
  do_clustering coords all_clusters seps = Ok info ->
  forall k p, info !! k = Some p ->
    singleton_record (length coords) k p \/ accepted_record coords all_clusters k p.
Proof.
  intros H. apply do_clustering_loops in H as (st1 & st2 & H1 & H2 & ->).
  apply (sweep_loop_records coords all_clusters (seq 0 (length coords)) st1 st2);
    [| | exact H2].
  - apply Forall_forall. intros j Hj. apply elem_of_seq in Hj. lia.
  - intros k p Hk. right. revert k p Hk.
    apply (select_loop_records coords all_clusters seps (sorted_keys_desc all_clusters)
             (initial_state coords) st1);
      [| exact H1].
    intros k p Hk. simpl in Hk. rewrite lookup_empty in Hk. discriminate.
Qed.

Lemma lone_expected_pair :
  Examples.lone_expected !! 3%nat = Some (Examples.pair_record 0 1 0 0.01).
Proof.
  unfold Examples.lone_expected. rewrite lookup_insert_ne by lia.
  apply lookup_insert_eq.
Qed.

Lemma dup_run_empty_seps :
  do_clustering Examples.dup_coords Examples.dup_clusters (np_empty 3 3)
  = Ok Examples.lone_expected.
Proof. apply dup_run. split; reflexivity. Qed.

(** X17. Whatever [do_clustering] returns, each of its records is of one
    of two kinds.  Either it is the record of a lone target [k]: members
    [[k]], multiplier 1, an array for a centre.  Or it is the record of a
    candidate cluster [k]: its members are those of the candidate, its
    centre is a single position, the largest distance [d] of a member from
    that centre is below the break-even radius of the cluster's size, and
    its multiplier is [beam_fit(d*60)**-2 / num_targets]. *)
Theorem do_clustering_records (coords : list vec)
    (all_clusters : gmap nat (list nat)) (seps : ndarray) (info : gmap nat pointing)
    (k : nat) (p : pointing) :
  do_clustering coords all_clusters seps = Ok info ->
  info !! k = Some p ->
  singleton_record (length coords) k p \/ accepted_record coords all_clusters k p.
Proof. intros H. now apply (do_clustering_records_inv coords all_clusters seps). Qed.

Lemma do_clustering_records_witness :
  singleton_record 3 3 (Examples.pair_record 0 1 0 0.01) \/
  accepted_record Examples.dup_coords Examples.dup_clusters 3
    (Examples.pair_record 0 1 0 0.01).
Proof.
  exact (do_clustering_records Examples.dup_coords Examples.dup_clusters (np_empty 3 3)
           Examples.lone_expected 3 (Examples.pair_record 0 1 0 0.01)
           dup_run_empty_seps lone_expected_pair).
Defined.

Lemma accepted_record_size (coords : list vec) (all_clusters : gmap nat (list nat))
    (k : nat) (p : pointing) :
  accepted_record coords all_clusters k p -> (1 <= length (members p))%nat.
Proof.
  intros (centre & cs & d & _ & _ & Hcs & [Hin _] & _).
  apply take_items_length in Hcs. rewrite <- Hcs.
  apply list_elem_of_fmap in Hin as (c & _ & Hc).
  destruct cs; [inversion Hc | simpl; lia].
Qed.

(** X18. The multiplier of every record [do_clustering] returns lies
    between [1/n] and 1, for [n] the number of members of the record: a
    pointing never costs more than one pointing at a single target, nor
    less than that cost shared among its members.  It is 1 exactly for the
    records of lone targets. *)
Theorem do_clustering_multiplier (coords : list vec)
    (all_clusters : gmap nat (list nat)) (seps : ndarray) (info : gmap nat pointing)
    (k : nat) (p : pointing) :
  do_clustering coords all_clusters seps = Ok info ->
  info !! k = Some p ->
  (1 <= length (members p))%nat /\
  / INR (length (members p)) <= int_time p <= 1 /\
  (int_time p = 1 <-> members p = [k] /\ (k < length coords)%nat).
Proof.
  intros H Hk.
  destruct (do_clustering_records_inv coords all_clusters seps info H k p Hk)
    as [(Hm & Ht & Hlt & _) | Hacc].
  - rewrite Hm, Ht. simpl. split; [lia |]. split; [rewrite Rinv_1; lra |].
    split; auto.
  - pose proof (accepted_record_size _ _ _ _ Hacc) as Hn.
    destruct Hacc as (centre & cs & d & _ & _ & _ & [Hin _] & Hlt & Ht).
    apply list_elem_of_fmap in Hin as (c & -> & _).
    pose proof (accepted_multiplier_bounds _ _ Hn (centre_separation_nonneg centre c) Hlt) as Hb.
    rewrite <- Ht in Hb. split; [exact Hn |]. split; [lra |].
    split; [lra |]. intros [Hm _].
    exfalso. rewrite Hm in Hlt. change (length [k]) with 1%nat in Hlt.
    rewrite break_even_one in Hlt. pose proof (centre_separation_nonneg centre c). lra.
Qed.

Lemma do_clustering_multiplier_witness :
  / INR 2 <= int_time (Examples.pair_record 0 1 0 0.01) <= 1.
Proof.
  destruct (do_clustering_multiplier Examples.dup_coords Examples.dup_clusters
              (np_empty 3 3) Examples.lone_expected 3 (Examples.pair_record 0 1 0 0.01)
              dup_run_empty_seps lone_expected_pair) as (_ & H & _).
  exact H.
Defined.

(** X19. Each member of a record with a single position for a centre
    lies closer to that centre, by the distance the code measures, than
    the break-even radius of the record's size [n], where the beam's
    sensitivity is above [n**-0.5]. *)
Theorem accepted_members_sensitivity (coords : list vec)
    (all_clusters : gmap nat (list nat)) (seps : ndarray) (info : gmap nat pointing)
    (k : nat) (p : pointing) (centre : vec) (i m : nat) (c : vec) :
  do_clustering coords all_clusters seps = Ok info ->
  info !! k = Some p -> centroid p = SkyScalar centre ->
  members p !! i = Some m -> coords !! m = Some c ->
  let n := length (members p) in
  centre_separation centre c < Beam.get_rad (Rpower (INR n) (- 0.5)) /\
  Rpower (INR n) (- 0.5) < Beam.beam_fit (centre_separation centre c * 60).
Proof.
  intros H Hk Hcen Hi Hc. cbn zeta.
  destruct (do_clustering_records_inv coords all_clusters seps info H k p Hk)
    as [(_ & _ & _ & cs & Hs) | Hacc]; [congruence |].
  pose proof (accepted_record_size _ _ _ _ Hacc) as Hn.
  destruct Hacc as (centre' & cs & d & _ & Hcen' & Hcs & [_ Hmax] & Hlt & _).
  assert (centre' = centre) by congruence. subst centre'.
  destruct (take_items_lookup _ _ _ Hcs i m Hi) as (c' & Hci & Hc').
  assert (c' = c) by congruence. subst c'.
  assert (Hle : centre_separation centre c <= d).
  { apply Hmax. apply list_elem_of_fmap. exists c. split; [reflexivity |].
    eapply list_elem_of_lookup_2; eauto. }
  split; [lra |].
  rewrite <- (beam_fit_break_even _ Hn).
  apply beam_fit_at_lt.
  - unfold Beam.default_fwhm. lra.
  - unfold Beam.default_nu. lra.
  - pose proof (centre_separation_nonneg centre c). lra.
Qed.

Lemma accepted_members_sensitivity_witness :
  let centre := Vec.add (SkyCoord_deg 0 0) (SkyCoord_deg 0.01 0) in
  centre_separation centre (SkyCoord_deg 0.01 0)
    < Beam.get_rad (Rpower (INR 2) (- 0.5)) /\
  Rpower (INR 2) (- 0.5)
    < Beam.beam_fit (centre_separation centre (SkyCoord_deg 0.01 0) * 60).
Proof.
  exact (accepted_members_sensitivity Examples.dup_coords Examples.dup_clusters
           (np_empty 3 3) Examples.lone_expected 3 (Examples.pair_record 0 1 0 0.01)
           (Vec.add (SkyCoord_deg 0 0) (SkyCoord_deg 0.01 0)) 1 1 (SkyCoord_deg 0.01 0)
           dup_run_empty_seps lone_expected_pair eq_refl eq_refl eq_refl).
Defined.

(** * The centre of a lone target, in general *)

Lemma ge_total : Total (fun a b : nat => (b <= a)%nat).
Proof. intros a b. lia. Qed.

Lemma ge_trans : Transitive (fun a b : nat => (b <= a)%nat).
Proof. intros a b c. lia. Qed.

Lemma sorted_keys_desc_sorted {V} (d : gmap nat V) :
  StronglySorted (fun a b => (b <= a)%nat) (sorted_keys_desc d).
Proof.
  unfold sorted_keys_desc.
  apply (@StronglySorted_merge_sort nat (fun a b : nat => (b <= a)%nat) _
           ge_trans ge_total).
Qed.

(** The last candidate the first loop visits is the one with the smallest
    id. *)
Lemma sorted_keys_desc_last {V} (d : gmap nat V) (kmin : nat) :
  is_Some (d !! kmin) -> (forall k, is_Some (d !! k) -> (kmin <= k)%nat) ->
  last (sorted_keys_desc d) = Some kmin.
Proof.
  intros Hin Hmin. pose proof (sorted_keys_desc_sorted d) as Hs.
  apply sorted_keys_desc_elem in Hin.
  destruct (sorted_keys_desc d) as [| x l] eqn:E using rev_ind; [inversion Hin |].
  clear IHl. rewrite last_snoc. f_equal.
  assert (Hx : (kmin <= x)%nat).
  { apply Hmin, sorted_keys_desc_elem. rewrite E. apply elem_of_app. right. left. }
  apply elem_of_app in Hin as [Hin | Hin].
  - pose proof (StronglySorted_app_1_elem_of _ _ _ kmin x Hs Hin ltac:(left)).
    simpl in *. lia.
  - apply list_elem_of_singleton in Hin. congruence.
Qed.

(** After the first loop [members] is bound to the last candidate
    visited, and every record sits at the id of a candidate. *)
Lemma select_loop_members (coords : list vec) (all_clusters : gmap nat (list nat))
    (seps : ndarray) (keys : list nat) (st st' : state) :
  foldM (select_cluster coords all_clusters seps) st keys = Ok st' ->
  loop_members st' =
    match last keys with
    | Some c => all_clusters !! c
    | None => loop_members st
    end /\
  forall k, is_Some (cluster_info st' !! k) ->
            is_Some (cluster_info st !! k) \/ (k ∈ keys /\ is_Some (all_clusters !! k)).
Proof.
  revert st. induction keys as [| c keys IH]; intros st H.
  - simpl in H. injection H as <-. auto.
  - cbn [foldM] in H. apply bind_Ok in H as (st1 & H1 & H).
    destruct (IH st1 H) as [Hm Hk].
    apply select_cluster_inv in H1 as (ms & Hms & H1).
    assert (Hst1 : loop_members st1 = Some ms /\
                   forall k, is_Some (cluster_info st1 !! k) ->
                             is_Some (cluster_info st !! k) \/ k = c).
    { destruct H1 as [-> | (centre & cs & d & _ & _ & _ & _ & _ & ->)]; simpl.
      - auto.
      - split; [reflexivity |]. intros k. destruct (decide (k = c)) as [-> | Hne]; [auto |].
        rewrite lookup_insert_ne by congruence. auto. }
    destruct Hst1 as [Hm1 Hk1]. split.
    + rewrite Hm. destruct keys as [| c' keys']; [simpl; congruence |].
      rewrite last_cons_cons. destruct (last (c' :: keys')) eqn:E; [reflexivity |].
      apply last_None in E. discriminate.
    + intros k Hin. destruct (Hk k Hin) as [Hin1 | [Hin1 Hs]].
      * destruct (Hk1 k Hin1) as [? | ->]; [now left | right].
        split; [left | eauto].
      * right. split; [now right | exact Hs].
Qed.

Lemma sweep_loop_stale (coords : list vec) (js : list nat) (st st' : state)
    (ms : list nat) :
  loop_members st = Some ms ->
  foldM (sweep_singleton coords) st js = Ok st' ->
  loop_members st' = Some ms /\
  forall k p, cluster_info st' !! k = Some p ->
    cluster_info st !! k = Some p \/
    (members p = [k] /\ int_time p = 1 /\
     exists cs, take_items coords ms = Ok cs /\ centroid p = SkyArray cs).
Proof.
  revert st. induction js as [| j js IH]; intros st Hms H.
  - simpl in H. injection H as <-. auto.
  - cbn [foldM] in H. apply bind_Ok in H as (st1 & H1 & H).
    apply sweep_singleton_inv in H1
      as [[_ ->] | (ms' & cs & _ & Hms' & Hcs & Hms1 & _ & Hinfo)]; [now apply IH |].
    assert (ms' = ms) by congruence. subst ms'.
    destruct (IH st1 Hms1 H) as [Hm Hk]. split; [exact Hm |].
    intros k p Hp. destruct (Hk k p Hp) as [Hp1 | Hp1]; [| now right].
    rewrite Hinfo in Hp1. destruct (decide (k = j)) as [-> | Hne].
    + rewrite lookup_insert_eq in Hp1. injection Hp1 as <-. right. simpl. eauto.
    + rewrite lookup_insert_ne in Hp1 by congruence. now left.
Qed.

(** X20. The centre line 216 stores for a lone target, on any input: in
    whatever [do_clustering] returns, the record at an id [i] that is not
    a candidate cluster has members [[i]], multiplier 1, and for a centre
    the array [coords[ms]], where [ms] are the members of the candidate
    with the smallest id, the last one the first loop visited. *)
Theorem singleton_centre_is_stale (coords : list vec)
    (all_clusters : gmap nat (list nat)) (seps : ndarray) (info : gmap nat pointing)
    (kmin : nat) (ms : list nat) (i : nat) (p : pointing) :
  do_clustering coords all_clusters seps = Ok info ->
  all_clusters !! kmin = Some ms ->
  (forall k, is_Some (all_clusters !! k) -> (kmin <= k)%nat) ->
  info !! i = Some p -> all_clusters !! i = None ->
  members p = [i] /\ int_time p = 1 /\
  exists cs, take_items coords ms = Ok cs /\ centroid p = SkyArray cs.
Proof.
  intros H Hmin Hle Hi Hnone.
  apply do_clustering_loops in H as (st1 & st2 & H1 & H2 & ->).
  destruct (select_loop_members _ _ _ _ _ _ H1) as [Hm Hkeys].
  rewrite (sorted_keys_desc_last all_clusters kmin) in Hm by eauto.
  rewrite Hmin in Hm.
  destruct (sweep_loop_stale coords _ st1 st2 ms Hm H2) as [_ Hrec].
  destruct (Hrec i p Hi) as [Hold | Hnew]; [| exact Hnew].
  exfalso. destruct (Hkeys i) as [Hs | [_ Hs]]; [eauto | |].
  - simpl in Hs. rewrite lookup_empty in Hs. destruct Hs. discriminate.
  - rewrite Hnone in Hs. destruct Hs. discriminate.
Qed.

Lemma singleton_centre_is_stale_witness :
  members Examples.lone_record = [2%nat] /\ int_time Examples.lone_record = 1 /\
  exists cs, take_items Examples.dup_coords [0; 1]%nat = Ok cs /\
             centroid Examples.lone_record = SkyArray cs.
Proof.
  apply (singleton_centre_is_stale Examples.dup_coords Examples.dup_clusters
           (np_empty 3 3) Examples.lone_expected 3 [0; 1]%nat 2 Examples.lone_record).
  - exact dup_run_empty_seps.
  - reflexivity.
  - intros k [m Hk]. unfold Examples.dup_clusters in Hk.
    destruct (decide (k = 4%nat)) as [-> | H4]; [lia |].
    rewrite lookup_insert_ne in Hk by congruence.
    destruct (decide (k = 3%nat)) as [-> | H3]; [lia |].
    rewrite lookup_insert_ne in Hk by congruence.
    rewrite lookup_empty in Hk. discriminate.
  - reflexivity.
  - reflexivity.
Defined.

(** X21. With no candidate cluster at all and at least one target,
    [do_clustering] raises [UnboundLocalError]: the first loop never runs,
    and line 216 reads [members] for target 0. *)
Theorem no_candidate_UnboundLocalError (coords : list vec) (seps : ndarray) :
  coords <> [] -> do_clustering coords ∅ seps = Raise UnboundLocalError.
Proof.
  intros Hne. unfold do_clustering.
  rewrite (sorted_keys_desc_empty (V := list nat)). cbn [foldM]. run_bind.
  destruct coords as [| c coords]; [congruence |]. reflexivity.
Qed.

Lemma no_candidate_UnboundLocalError_witness :
  do_clustering Examples.lone_coords ∅ (np_empty 3 3) = Raise UnboundLocalError.
Proof. apply (no_candidate_UnboundLocalError Examples.lone_coords). discriminate. Defined.

(** * The catalogue and the script *)

Lemma valid_latitude_spec (d : R) : valid_latitude d = true <-> -90 <= d <= 90.
Proof.
  unfold valid_latitude.
  destruct (Rle_dec (- 90) d), (Rle_dec d 90); split; intros H;
    try reflexivity; try discriminate; lra.
Qed.

Lemma forallb_valid_latitude (rows : list target_row) :
  forallb (fun t => valid_latitude (dec t)) rows = true
  <-> Forall (fun t => -90 <= dec t <= 90) rows.
Proof.
  rewrite forallb_forall, Forall_forall. split; intros H t Ht.
  - apply valid_latitude_spec, H. now apply list_elem_of_In.
  - apply valid_latitude_spec, H. now apply list_elem_of_In.
Qed.

Lemma load_targets_Ok (table : list target_row) (coords : list vec)
    (targets : list target_row) :
  Forall (fun t => -90 <= dec t <= 90) (take (length table - 1) table) ->
  targets = take (length table - 1) table ->
  coords = map (fun t => SkyCoord_deg (ra t) (dec t)) targets ->
  load_targets table = Ok (coords, targets).
Proof.
  intros Hdec -> ->. unfold load_targets.
  apply forallb_valid_latitude in Hdec. now rewrite Hdec.
Qed.


Lemma load_targets_inv (table : list target_row) (coords : list vec)
    (targets : list target_row) :
  load_targets table = Ok (coords, targets) ->
  targets = take (length table - 1) table /\
  coords = map (fun t => SkyCoord_deg (ra t) (dec t)) targets /\
  Forall (fun t => -90 <= dec t <= 90) targets.
Proof.
  unfold load_targets.
  destruct (forallb _ _) eqn:E; [| discriminate].
  intros [= <- <-]. apply forallb_valid_latitude in E. auto.
Qed.

Lemma SkyCoord_deg_nonzero (a d : R) : SkyCoord_deg a d <> Vec.zero.
Proof.
  intros E. pose proof (SkyCoord_deg_unit a d) as H. rewrite E in H.
  destruct (norm_zero_iff Vec.zero) as [_ H0]. rewrite H0 in H by reflexivity. lra.
Qed.

Lemma Reqb_true (x y : R) : Reqb x y = true <-> x = y.
Proof. unfold Reqb. destruct (Req_dec_T x y); split; congruence. Qed.

(** Over the reals the separation matrix of a catalogue of directions is
    a distance matrix as [squareform] checks it to be. *)
Lemma calc_separation_valid_dm (coords : list vec) :
  Forall (fun c => c <> Vec.zero) coords ->
  is_valid_dm (calc_separation coords) = true.
Proof.
  intros Hnz. rewrite Forall_forall in Hnz. unfold is_valid_dm.
  destruct (calc_separation_shape coords) as [Hr _]. rewrite Hr.
  apply andb_true_intro. split.
  - apply forallb_forall. intros i Hi. apply forallb_forall. intros j Hj.
    apply in_seq in Hi, Hj. apply Reqb_true.
    destruct (lookup_lt_is_Some_2 coords i ltac:(lia)) as [u Hu].
    destruct (lookup_lt_is_Some_2 coords j ltac:(lia)) as [v Hv].
    now apply (calc_separation_mirror coords i j u v).
  - apply forallb_forall. intros i Hi. apply in_seq in Hi. apply Reqb_true.
    destruct (lookup_lt_is_Some_2 coords i ltac:(lia)) as [u Hu].
    apply (calc_separation_diagonal coords i u Hu).
    apply Hnz. eapply list_elem_of_lookup_2; eauto.
Qed.

(** The matrix of at most one target: [squareform] refuses it or condenses
    it to an empty vector. *)
Lemma squareform_few_targets (coords : list vec) :
  (length coords <= 1)%nat ->
  squareform (calc_separation coords) = Ok [] \/
  squareform (calc_separation coords) = Raise ValueError.
Proof.
  intros Hn. unfold squareform.
  destruct (calc_separation_shape coords) as [Hr Hc]. rewrite Hr, Hc.
  destruct (negb (length coords =? length coords)%nat); [now right |].
  destruct (negb (is_valid_dm (calc_separation coords))); [now right |].
  left. destruct coords as [| c [| c' coords]]; [reflexivity | reflexivity |].
  simpl in Hn. lia.
Qed.

Lemma script_few_targets {L} (coords : list vec) (labellist : list L)
    (linked : list linkage_row) :
  (length coords <= 1)%nat -> script coords labellist linked = Raise ValueError.
Proof.
  intros Hn. unfold script.
  destruct (squareform_few_targets coords Hn) as [-> | ->]; reflexivity.
Qed.

(** With two targets or more and a matrix that [squareform] accepts, the
    condensed matrix is not empty, [linkage] returns, and the script goes
    on with the decoder and the selector. *)
Lemma script_run {L} (coords : list vec) (labellist : list L)
    (linked : list linkage_row) :
  (2 <= length coords)%nat ->
  is_valid_dm (calc_separation coords) = true ->
  script coords labellist linked = run coords labellist linked.
Proof.
  intros Hn Hdm. unfold script, run, squareform.
  destruct (calc_separation_shape coords) as [Hr Hc].
  rewrite Hr, Hc, Nat.eqb_refl, Hdm. cbn [negb].
  destruct (length coords) as [| [| n]] eqn:E; [lia | lia |].
  cbn [seq flat_map Nat.sub map app]. run_bind. reflexivity.
Qed.



(** X23. The script as a whole: when the catalogue loads with at least
    two targets, [squareform] accepts the separation matrix as a distance
    matrix and the linkage matrix is as scipy produces it for the targets
    loaded, the script returns records whose member sets are pairwise
    disjoint and cover exactly the rows but the last, which belongs to no
    record. *)
Theorem main_partition (table : list target_row) (linked : list linkage_row)
    (coords : list vec) (targets : list target_row) :
  load_targets table = Ok (coords, targets) ->
  (2 <= length coords)%nat ->
  is_valid_dm (calc_separation coords) = true ->
  valid_linkage (length coords) linked = true ->
  length coords = (length table - 1)%nat /\
  exists info,
    main table linked = Ok info /\
    pairwise_disjoint info /\ covers info (length coords).
Proof.
  intros Hload Hn Hdm Hvalid.
  destruct (load_targets_inv table coords targets Hload) as (Ht & Hc & _).
  assert (Hlen : length (map target targets) = length coords).
  { rewrite Hc, !length_map. reflexivity. }
  split.
  { rewrite Hc, length_map, Ht, length_take. lia. }
  set (labels := map target targets) in *.
  rewrite <- Hlen in Hvalid.
  destruct (extract_levels_inv linked labels Hvalid)
    as (used & clusters & act & Hrun & Inv).
  unfold valid_linkage in Hvalid. apply andb_prop in Hvalid as [Hrows _].
  apply Nat.eqb_eq in Hrows.
  destruct (do_clustering_partition coords clusters (calc_separation coords))
    as (info & Hinfo & Hd & Hcov).
  - apply calc_separation_shape.
  - exists (length labels). apply (inv_keys _ _ _ _ _ Inv). lia.
  - intros k ms Hk. rewrite <- Hlen. split.
    + assert (Hs : is_Some (clusters !! k)) by eauto.
      apply (inv_keys _ _ _ _ _ Inv) in Hs. lia.
    + destruct (inv_members _ _ _ _ _ Inv k ms Hk) as (? & _ & ?). auto.
  - exists info. split; [| split; assumption].
    unfold main. rewrite Hload. run_bind. fold labels.
    rewrite (script_run coords labels linked Hn Hdm).
    unfold run. rewrite Hrun. run_bind. exact Hinfo.
Qed.

Lemma main_partition_witness :
  exists info,
    main Examples.pairs_table Examples.pairs_linked = Ok info /\
    pairwise_disjoint info /\ covers info 4.
Proof.
  assert (Hload : load_targets Examples.pairs_table
                  = Ok (Examples.pairs_coords, take 4 Examples.pairs_table)).
  { apply load_targets_Ok; [| reflexivity | reflexivity].
    simpl. repeat constructor; simpl; lra. }
  destruct (main_partition Examples.pairs_table Examples.pairs_linked
              Examples.pairs_coords (take 4 Examples.pairs_table) Hload)
    as [_ H]; [simpl; lia | | reflexivity | exact H].
  apply calc_separation_valid_dm.
  unfold Examples.pairs_coords. repeat constructor; apply SkyCoord_deg_nonzero.
Defined.

(** X28. The ways the script stops before any clustering: it raises
    [ValueError] when the declination of a row but the last is not a
    latitude, and when the table has fewer than three rows, which leaves
    fewer than two targets. *)
Theorem main_ValueError (table : list target_row) (linked : list linkage_row) :
  ~ Forall (fun t => -90 <= dec t <= 90) (take (length table - 1) table) \/
  (length table <= 2)%nat ->
  main table linked = Raise ValueError.
Proof.
  intros Hbad.
  destruct (forallb (fun t => valid_latitude (dec t))
              (take (length table - 1) table)) eqn:E.
  2: { unfold main, load_targets. now rewrite E. }
  apply forallb_valid_latitude in E. rename E into Hdec.
  destruct Hbad as [Hbad | Hn]; [contradiction |].
  unfold main.
  rewrite (load_targets_Ok table _ _ Hdec eq_refl eq_refl). run_bind.
  apply script_few_targets. rewrite length_map, length_take. lia.
Qed.

Lemma main_ValueError_witness :
  main [ {| target := "a"; ra := 10; dec := 95 |};
         {| target := "b"; ra := 20; dec := 0 |};
         {| target := "c"; ra := 30; dec := 0 |} ]%string [] = Raise ValueError.
Proof.
  apply main_ValueError. left. simpl. intros H.
  apply Forall_cons in H as [H _]. simpl in H. lra.
Defined.




(** * What the greedy selection picks *)

Lemma list_bound (l : list nat) : exists B, forall k, k ∈ l -> (k < B)%nat.
Proof.
  induction l as [| x l [B HB]].
  - exists 0%nat. intros k Hk. inversion Hk.
  - exists (S (Nat.max x B)). intros k Hk. apply elem_of_cons in Hk as [-> | Hk].
    + lia.
    + specialize (HB k Hk). lia.
Qed.

(** Above every candidate that passes the test there is an outermost one
    that does. *)
Lemma exists_outermost (coords : list vec) (seps : ndarray)
    (all_clusters : gmap nat (list nat)) (n : nat) :
  well_nested n all_clusters ->
  forall h mh, all_clusters !! h = Some mh -> fits coords seps mh ->
  exists h' mh',
    all_clusters !! h' = Some mh' /\ (forall x, x ∈ mh -> x ∈ mh') /\
    outermost_fit coords seps all_clusters h'.
Proof.
  intros Hwn.
  destruct (list_bound (sorted_keys_desc all_clusters)) as [B HB].
  assert (Hfuel : forall f h mh,
            (B <= h + f)%nat -> all_clusters !! h = Some mh -> fits coords seps mh ->
            exists h' mh',
              all_clusters !! h' = Some mh' /\ (forall x, x ∈ mh -> x ∈ mh') /\
              outermost_fit coords seps all_clusters h').
  { induction f as [| f IH]; intros h mh Hf Hh Hfit.
    - exfalso. assert (Hk : h ∈ sorted_keys_desc all_clusters)
        by (apply sorted_keys_desc_elem; eauto).
      specialize (HB h Hk). lia.
    - destruct (Classical_Prop.classic (exists h2 mh2, all_clusters !! h2 = Some mh2 /\ h2 <> h /\
                           (forall x, x ∈ mh -> x ∈ mh2) /\ fits coords seps mh2))
        as [(h2 & mh2 & Hh2 & Hne & Hsub & Hfit2) | Hnone].
      + pose proof (wn_order _ _ Hwn h h2 mh mh2 Hh Hh2 Hsub) as Hle.
        destruct (IH h2 mh2 ltac:(lia) Hh2 Hfit2) as (h' & mh' & Hh' & Hsub' & Hof).
        exists h', mh'. split; [exact Hh' |]. split; [auto | exact Hof].
      + exists h, mh. split; [exact Hh |]. split; [auto |].
        exists mh. split; [exact Hh |]. split; [exact Hfit |].
        intros h2 mh2 Hh2 Hne Hsub Hfit2. apply Hnone. eauto 10. }
  intros h mh Hh Hfit. apply (Hfuel B h mh); [lia | exact Hh | exact Hfit].
Qed.

Lemma greedy_inv_initial (coords : list vec) (seps : ndarray)
    (all_clusters : gmap nat (list nat)) :
  greedy_inv coords seps all_clusters [] (initial_state coords).
Proof.
  split; simpl.
  - intros g. rewrite lookup_empty. split.
    + intros [x Hx]. discriminate.
    + intros [Hg _]. inversion Hg.
  - intros i. split.
    + intros Hi. inversion Hi.
    + intros (g & ms & [x Hx] & _). rewrite lookup_empty in Hx. discriminate.
Qed.

(** One candidate, met after all the candidates with a larger id. *)
Lemma greedy_step (coords : list vec) (seps : ndarray)
    (all_clusters : gmap nat (list nat)) (vis rem : list nat) (c : nat)
    (st st1 : state) :
  well_nested (length coords) all_clusters ->
  (forall k, is_Some (all_clusters !! k) <-> k ∈ vis ++ c :: rem) ->
  (forall h, h ∈ vis -> (c < h)%nat) ->
  (forall h, h ∈ rem -> (h < c)%nat) ->
  greedy_inv coords seps all_clusters vis st ->
  select_cluster coords all_clusters seps st c = Ok st1 ->
  greedy_inv coords seps all_clusters (vis ++ [c]) st1.
Proof.
  intros Hwn Hkeys Hvis Hrem [Hrec Hass] H. pose proof H as Hrun.
  apply select_cluster_inv in H as (ms & Hms & Hcase).
  destruct (wn_keys _ _ Hwn c ms Hms) as (_ & Hne & _).
  (* a larger id in the dictionary has been visited *)
  assert (Habove : forall h mh, all_clusters !! h = Some mh -> (c < h)%nat -> h ∈ vis).
  { intros h mh Hh Hlt. assert (Hs : is_Some (all_clusters !! h)) by eauto.
    apply Hkeys in Hs. apply elem_of_app in Hs as [Hs | Hs]; [exact Hs |].
    apply elem_of_cons in Hs as [-> | Hs]; [lia |]. specialize (Hrem h Hs). lia. }
  (* an overlap is with a recorded cluster that contains this one *)
  assert (Hov_anc : overlaps ms (assigned st) = true ->
            exists g mg, g ∈ vis /\ outermost_fit coords seps all_clusters g /\
                         all_clusters !! g = Some mg /\ forall x, x ∈ ms -> x ∈ mg).
  { intros Hov. apply overlaps_true in Hov as (i & Hi & Hia).
    apply Hass in Hia as (g & mg & Hsome & Hg & Hig).
    apply Hrec in Hsome as [Hgv Hof]. exists g, mg.
    split; [exact Hgv |]. split; [exact Hof |]. split; [exact Hg |].
    destruct (wn_nested _ _ Hwn c g ms mg Hms Hg) as [Hsub | [Hsup | Hdis]].
    - exact Hsub.
    - exfalso. pose proof (wn_order _ _ Hwn g c mg ms Hg Hms Hsup).
      specialize (Hvis g Hgv). lia.
    - exfalso. exact (Hdis i Hi Hig). }
  assert (Hanc_ov : forall g mg, is_Some (cluster_info st !! g) ->
            all_clusters !! g = Some mg -> (forall x, x ∈ ms -> x ∈ mg) ->
            overlaps ms (assigned st) = true).
  { intros g mg Hs Hg Hsub. apply overlaps_true.
    destruct ms as [| x ms']; [congruence |]. exists x. split; [left |].
    apply Hass. exists g, mg. split; [exact Hs |]. split; [exact Hg |].
    apply Hsub. left. }
  destruct Hcase as [-> | (centre & cs & d & Hov & Hc & Hcs & Hd & Hlt & ->)].
  - (* not accepted: the candidate is not an outermost fit *)
    assert (Hnot : ~ outermost_fit coords seps all_clusters c).
    { intros (ms' & Hms' & Hfit & Hout).
      assert (ms' = ms) by congruence. subst ms'.
      destruct (overlaps ms (assigned st)) eqn:Hov.
      - destruct (Hov_anc eq_refl) as (g & mg & Hgv & (mg' & Hg' & Hfitg & _) & Hg & Hsub).
        assert (mg' = mg) by congruence. subst mg'.
        apply (Hout g mg Hg); [specialize (Hvis g Hgv); lia | exact Hsub | exact Hfitg].
      - destruct Hfit as (centre & cs & d & Hc & Hcs & Hd & Hlt).
        rewrite (select_cluster_unassigned coords all_clusters seps st c ms
                   centre cs d Hms Hov Hc Hcs Hd) in Hrun.
        destruct (Rlt_dec d _) as [_ | Hge]; [| contradiction].
        apply (f_equal (fun r => match r with
                                 | Ok s => length (clusters s)
                                 | Raise _ => 0%nat
                                 end)) in Hrun.
        simpl in Hrun. rewrite length_app in Hrun. simpl in Hrun. lia. }
    split; simpl.
    + intros g. rewrite Hrec. split.
      * intros [Hg Hof]. split; [apply elem_of_app; now left | exact Hof].
      * intros [Hg Hof]. split; [| exact Hof].
        apply elem_of_app in Hg as [Hg | Hg]; [exact Hg |].
        apply list_elem_of_singleton in Hg. subst g. contradiction.
    + exact Hass.
  - (* accepted: the candidate is an outermost fit *)
    assert (Hof : outermost_fit coords seps all_clusters c).
    { exists ms. split; [exact Hms |]. split; [exists centre, cs, d; auto |].
      intros h mh Hh Hhc Hsub Hfit.
      pose proof (wn_order _ _ Hwn c h ms mh Hms Hh Hsub) as Hle.
      destruct (exists_outermost coords seps all_clusters _ Hwn h mh Hh Hfit)
        as (h' & mh' & Hh' & Hsub' & Hof').
      pose proof (wn_order _ _ Hwn h h' mh mh' Hh Hh' Hsub') as Hle'.
      assert (Hv : h' ∈ vis) by (apply (Habove h' mh' Hh'); lia).
      assert (Hs : is_Some (cluster_info st !! h')) by (apply Hrec; auto).
      rewrite (Hanc_ov h' mh' Hs Hh') in Hov; [discriminate | auto]. }
    split; simpl.
    + intros g. rewrite lookup_insert_is_Some. split.
      * intros [<- | [Hgc Hs]].
        -- split; [apply elem_of_app; right; left | exact Hof].
        -- apply Hrec in Hs as [Hg Hofg]. split; [apply elem_of_app; now left | exact Hofg].
      * intros [Hg Hofg]. destruct (decide (c = g)) as [-> | Hgc]; [now left |].
        right. split; [exact Hgc |]. apply Hrec. split; [| exact Hofg].
        apply elem_of_app in Hg as [Hg | Hg]; [exact Hg |].
        apply list_elem_of_singleton in Hg. congruence.
    + intros i. rewrite elem_of_app. split.
      * intros [Hi | Hi].
        -- apply Hass in Hi as (g & mg & Hs & Hg & Hig). exists g, mg.
           split; [| auto]. apply lookup_insert_is_Some.
           destruct (decide (c = g)); [now left | now right].
        -- exists c, ms. split; [| auto]. apply lookup_insert_is_Some. now left.
      * intros (g & mg & Hs & Hg & Hig).
        apply lookup_insert_is_Some in Hs as [<- | [Hgc Hs]].
        -- right. congruence.
        -- left. apply Hass. eauto.
Qed.

Lemma greedy_loop (coords : list vec) (seps : ndarray)
    (all_clusters : gmap nat (list nat)) (rem : list nat) :
  well_nested (length coords) all_clusters ->
  forall (vis : list nat) (st st' : state),
    (forall k, is_Some (all_clusters !! k) <-> k ∈ vis ++ rem) ->
    StronglySorted (fun a b => (b <= a)%nat) (vis ++ rem) ->
    NoDup (vis ++ rem) ->
    greedy_inv coords seps all_clusters vis st ->
    foldM (select_cluster coords all_clusters seps) st rem = Ok st' ->
    greedy_inv coords seps all_clusters (vis ++ rem) st'.
Proof.
  intros Hwn. induction rem as [| c rem IH]; intros vis st st' Hkeys Hs Hnd Inv H.
  - simpl in H. injection H as <-. now rewrite app_nil_r.
  - cbn [foldM] in H. apply bind_Ok in H as (st1 & H1 & H).
    assert (Hvis : forall h, h ∈ vis -> (c < h)%nat).
    { intros h Hh.
      pose proof (StronglySorted_app_1_elem_of _ _ _ h c Hs Hh ltac:(left)) as Hle.
      simpl in Hle. apply NoDup_app in Hnd as (_ & Hd & _).
      assert (h <> c) by (intros ->; apply (Hd c Hh); left). lia. }
    assert (Hrem : forall h, h ∈ rem -> (h < c)%nat).
    { intros h Hh. apply StronglySorted_app_1_r in Hs.
      apply StronglySorted_cons in Hs as [Hall _]. rewrite Forall_forall in Hall.
      specialize (Hall h Hh). simpl in Hall.
      apply NoDup_app in Hnd as (_ & _ & Hd). apply NoDup_cons in Hd as [Hd _].
      assert (h <> c) by (intros ->; contradiction). lia. }
    pose proof (greedy_step coords seps all_clusters vis rem c st st1
                  Hwn Hkeys Hvis Hrem Inv H1) as Inv1.
    rewrite (cons_middle c vis rem), app_assoc in Hkeys, Hs, Hnd |- *.
    apply (IH (vis ++ [c]) st1 st'); assumption.
Qed.

Lemma sweep_loop_keys (coords : list vec) (js : list nat) (st st' : state) :
  foldM (sweep_singleton coords) st js = Ok st' ->
  assigned st' = assigned st /\
  forall g, is_Some (cluster_info st' !! g) <->
            is_Some (cluster_info st !! g) \/ (g ∈ js /\ g ∉ assigned st).
Proof.
  revert st. induction js as [| j js IH]; intros st H.
  - simpl in H. injection H as <-. split; [reflexivity |].
    intros g. split; [now left |]. intros [Hs | [Hg _]]; [exact Hs | inversion Hg].
  - cbn [foldM] in H. apply bind_Ok in H as (st1 & H1 & H).
    destruct (IH st1 H) as [Ha Hk].
    apply sweep_singleton_inv in H1
      as [[Hin ->] | (ms & cs & Hnin & _ & _ & _ & Ha1 & Hinfo)].
    + split; [exact Ha |]. intros g. rewrite Hk. split.
      * intros [Hs | [Hg Hn]]; [now left | right]. split; [now right | exact Hn].
      * intros [Hs | [Hg Hn]]; [now left |].
        apply elem_of_cons in Hg as [-> | Hg]; [contradiction | right; auto].
    + split; [congruence |]. intros g. rewrite Hk, Ha1, Hinfo, lookup_insert_is_Some.
      split.
      * intros [[<- | [_ Hs]] | [Hg Hn]].
        -- right. split; [left | exact Hnin].
        -- now left.
        -- right. split; [now right | exact Hn].
      * intros [Hs | [Hg Hn]].
        -- left. destruct (decide (j = g)); [now left | now right].
        -- apply elem_of_cons in Hg as [-> | Hg]; [left; now left | right; auto].
Qed.

Lemma do_clustering_outermost (coords : list vec)
    (all_clusters : gmap nat (list nat)) (seps : ndarray) (info : gmap nat pointing) :
  well_nested (length coords) all_clusters ->
  do_clustering coords all_clusters seps = Ok info ->
  (forall g, (length coords <= g)%nat ->
     (is_Some (info !! g) <-> outermost_fit coords seps all_clusters g)) /\
  (forall i, (i < length coords)%nat ->
     (is_Some (info !! i) <->
      ~ exists g ms, outermost_fit coords seps all_clusters g /\
                     all_clusters !! g = Some ms /\ i ∈ ms)).
Proof.
  intros Hwn H. apply do_clustering_loops in H as (st1 & st2 & H1 & H2 & ->).
  assert (Inv : greedy_inv coords seps all_clusters (sorted_keys_desc all_clusters) st1).
  { apply (greedy_loop coords seps all_clusters (sorted_keys_desc all_clusters) Hwn
             [] (initial_state coords) st1); simpl.
    - intros k. symmetry. apply sorted_keys_desc_elem.
    - apply sorted_keys_desc_sorted.
    - apply sorted_keys_desc_NoDup.
    - apply greedy_inv_initial.
    - exact H1. }
  destruct Inv as [Hrec Hass].
  destruct (sweep_loop_keys coords _ st1 st2 H2) as [_ Hk].
  assert (Hkey : forall g, outermost_fit coords seps all_clusters g ->
                   g ∈ sorted_keys_desc all_clusters /\ (length coords <= g)%nat).
  { intros g (ms & Hms & _). split; [apply sorted_keys_desc_elem; eauto |].
    now destruct (wn_keys _ _ Hwn g ms Hms). }
  split.
  - intros g Hg. rewrite Hk, Hrec. split.
    + intros [[_ Hof] | [Hin _]]; [exact Hof |]. apply elem_of_seq in Hin. lia.
    + intros Hof. left. split; [now apply Hkey | exact Hof].
  - intros i Hi. rewrite Hk, Hrec, Hass. split.
    + intros [[_ Hof] | [_ Hn]].
      * apply Hkey in Hof as [_ Hge]. lia.
      * intros (g & ms & Hof & Hms & Him). apply Hn. exists g, ms.
        split; [| auto]. apply Hrec. split; [now apply Hkey | exact Hof].
    + intros Hn. right. split; [apply elem_of_seq; lia |].
      intros (g & ms & Hs & Hms & Him). apply Hn. exists g, ms.
      apply Hrec in Hs as [_ Hof]. auto.
Qed.

(** X24. What the greedy selection picks, for candidates nested as the
    decoder returns them.  The records of [do_clustering] at cluster ids
    are exactly the outermost candidates that pass the test of lines
    188-198: those that pass it while no candidate containing them does.
    The records at target ids are exactly the targets that lie in none of
    these. *)
Theorem greedy_outermost (coords : list vec)
    (all_clusters : gmap nat (list nat)) (seps : ndarray) (info : gmap nat pointing) :
  well_nested (length coords) all_clusters ->
  do_clustering coords all_clusters seps = Ok info ->
  (forall g, (length coords <= g)%nat ->
     (is_Some (info !! g) <-> outermost_fit coords seps all_clusters g)) /\
  (forall i, (i < length coords)%nat ->
     (is_Some (info !! i) <->
      ~ exists g ms, outermost_fit coords seps all_clusters g /\
                     all_clusters !! g = Some ms /\ i ∈ ms)).
Proof. apply do_clustering_outermost. Qed.

Lemma dup_clusters_lookup (g : nat) (m : list nat) :
  Examples.dup_clusters !! g = Some m ->
  (g = 3%nat /\ m = [0; 1]%nat) \/ (g = 4%nat /\ m = [0; 1; 2]%nat).
Proof.
  unfold Examples.dup_clusters. intros H.
  destruct (decide (g = 4%nat)) as [-> | H4].
  - rewrite lookup_insert_eq in H. injection H as <-. now right.
  - rewrite lookup_insert_ne in H by congruence.
    destruct (decide (g = 3%nat)) as [-> | H3].
    + rewrite lookup_insert_eq in H. injection H as <-. now left.
    + rewrite lookup_insert_ne in H by congruence.
      rewrite lookup_empty in H. discriminate.
Qed.

Lemma dup_clusters_well_nested : well_nested 3 Examples.dup_clusters.
Proof.
  assert (Hsub : forall x : nat, x ∈ [0; 1]%nat -> x ∈ [0; 1; 2]%nat).
  { intros x Hx. apply elem_of_cons in Hx as [-> | Hx]; [left |].
    apply list_elem_of_singleton in Hx. subst. right. left. }
  assert (Hnot : ~ forall x : nat, x ∈ [0; 1; 2]%nat -> x ∈ [0; 1]%nat).
  { intros H. specialize (H 2%nat ltac:(decide_elem)).
    apply elem_of_cons in H as [H | H]; [discriminate |].
    apply list_elem_of_singleton in H. discriminate. }
  split.
  - intros g m H. apply dup_clusters_lookup in H as [[-> ->] | [-> ->]].
    + split; [lia |]. split; [discriminate |]. repeat constructor; lia.
    + split; [lia |]. split; [discriminate |]. repeat constructor; lia.
  - intros g1 g2 m1 m2 H1 H2.
    apply dup_clusters_lookup in H1 as [[-> ->] | [-> ->]];
      apply dup_clusters_lookup in H2 as [[-> ->] | [-> ->]].
    + left. auto.
    + left. exact Hsub.
    + right. left. exact Hsub.
    + left. auto.
  - intros g1 g2 m1 m2 H1 H2 Hs.
    apply dup_clusters_lookup in H1 as [[-> ->] | [-> ->]];
      apply dup_clusters_lookup in H2 as [[-> ->] | [-> ->]]; try lia.
    contradiction.
Qed.

Lemma greedy_outermost_witness :
  is_Some (Examples.lone_expected !! 3%nat) <->
  outermost_fit Examples.dup_coords (np_empty 3 3) Examples.dup_clusters 3.
Proof.
  destruct (greedy_outermost Examples.dup_coords Examples.dup_clusters (np_empty 3 3)
              Examples.lone_expected dup_clusters_well_nested dup_run_empty_seps)
    as [H _].
  apply H. simpl. lia.
Defined.

(** The decoder's result for a complete well-formed linkage matrix is
    nested as the selector needs it. *)
Lemma extract_levels_well_nested {L} (rows : list linkage_row) (labels : list L) :
  valid_rows (length labels) [] 0 rows = true ->
  exists clusters,
    extract_levels rows labels = Ok clusters /\
    well_nested (length labels) clusters /\
    (forall g, is_Some (clusters !! g) <->
               (length labels <= g < length labels + length rows)%nat).
Proof.
  intros Hvalid.
  destruct (extract_levels_valid_rows rows labels Hvalid)
    as (used & clusters & act & Hrun & Inv & Nest).
  exists clusters. split; [exact Hrun |]. split; [| exact (inv_keys _ _ _ _ _ Inv)].
  split.
  - intros g m Hg. split.
    + assert (Hs : is_Some (clusters !! g)) by eauto.
      apply (inv_keys _ _ _ _ _ Inv) in Hs. lia.
    + destruct (inv_members _ _ _ _ _ Inv g m Hg) as (? & _ & ?). auto.
  - exact (nest_pairs _ _ Nest).
  - exact (nest_order _ _ Nest).
Qed.

(** X25. The pipeline from the linkage matrix on, for at least two
    targets and a linkage matrix as scipy produces it: the decoder and the
    selector return, and the pointings at cluster ids are exactly the
    outermost clusters of the tree that pass the selector's test, every
    target outside them getting a record of its own. *)
Theorem run_outermost {L} (coords : list vec) (labels : list L)
    (linked : list linkage_row) :
  length labels = length coords ->
  (2 <= length coords)%nat ->
  valid_linkage (length coords) linked = true ->
  exists clusters info,
    extract_levels linked labels = Ok clusters /\
    run coords labels linked = Ok info /\
    (forall g, (length coords <= g)%nat ->
       (is_Some (info !! g) <->
        outermost_fit coords (calc_separation coords) clusters g)) /\
    (forall i, (i < length coords)%nat ->
       (is_Some (info !! i) <->
        ~ exists g ms, outermost_fit coords (calc_separation coords) clusters g /\
                       clusters !! g = Some ms /\ i ∈ ms)).
Proof.
  intros Hlen Hn Hvalid. rewrite <- Hlen in Hvalid.
  unfold valid_linkage in Hvalid. apply andb_prop in Hvalid as [Hrows Hvalid].
  apply Nat.eqb_eq in Hrows.
  destruct (extract_levels_well_nested linked labels Hvalid)
    as (clusters & Hrun & Hwn & Hkeys).
  rewrite Hlen in Hwn.
  destruct (do_clustering_partition coords clusters (calc_separation coords))
    as (info & Hinfo & _ & _).
  - apply calc_separation_shape.
  - exists (length labels). apply Hkeys. lia.
  - intros k ms Hk. exact (wn_keys _ _ Hwn k ms Hk).
  - exists clusters, info. split; [exact Hrun |].
    split; [unfold run; rewrite Hrun; run_bind; exact Hinfo |].
    exact (do_clustering_outermost coords clusters (calc_separation coords) info
             Hwn Hinfo).
Qed.

Lemma run_outermost_witness :
  exists clusters info,
    extract_levels Examples.pairs_linked Examples.pairs_labels = Ok clusters /\
    run Examples.pairs_coords Examples.pairs_labels Examples.pairs_linked = Ok info /\
    (forall g, (4 <= g)%nat ->
       (is_Some (info !! g) <->
        outermost_fit Examples.pairs_coords (calc_separation Examples.pairs_coords)
          clusters g)).
Proof.
  destruct (run_outermost Examples.pairs_coords Examples.pairs_labels
              Examples.pairs_linked) as (clusters & info & H1 & H2 & H3 & _);
    [reflexivity | simpl; lia | reflexivity |].
  exists clusters, info. auto.
Defined.

(** * The separation matrix in the selector *)

Lemma get_centre_shape_only (ms : list nat) (coords : list vec) (seps1 seps2 : ndarray) :
  separation_shape (length coords) seps1 ->
  separation_shape (length coords) seps2 ->
  get_centre ms coords seps1 = get_centre ms coords seps2.
Proof.
  intros [Hr1 Hc1] [Hr2 Hc2]. unfold get_centre, take_cols.
  rewrite Hc1, Hc2.
  destruct (forallb (fun j => j <? length coords)%nat ms) eqn:E; run_bind;
    [| reflexivity].
  unfold take_rows. cbn [nrows]. rewrite Hr1, Hr2, E. reflexivity.
Qed.

Lemma select_loop_shape_only (coords : list vec) (all_clusters : gmap nat (list nat))
    (seps1 seps2 : ndarray) (keys : list nat) (st : state) :
  separation_shape (length coords) seps1 ->
  separation_shape (length coords) seps2 ->
  foldM (select_cluster coords all_clusters seps1) st keys
  = foldM (select_cluster coords all_clusters seps2) st keys.
Proof.
  intros H1 H2. revert st. induction keys as [| c keys IH]; intros st; [reflexivity |].
  cbn [foldM].
  assert (E : select_cluster coords all_clusters seps1 st c
              = select_cluster coords all_clusters seps2 st c).
  { unfold select_cluster. destruct (dict_get all_clusters c) as [ms | e]; run_bind;
      [| reflexivity].
    now rewrite (get_centre_shape_only ms coords seps1 seps2 H1 H2). }
  rewrite E. destruct (select_cluster coords all_clusters seps2 st c); run_bind;
    [apply IH | reflexivity].
Qed.

(** X26. The entries of the separation matrix have no influence on the
    pointings: with any two matrices of the catalogue's size,
    [do_clustering] ends in the same way, with the same records or the
    same exception.  In particular the rounding of [calc_separation] never
    reaches the result through this argument. *)
Theorem do_clustering_ignores_seps (coords : list vec)
    (all_clusters : gmap nat (list nat)) (seps1 seps2 : ndarray) :
  separation_shape (length coords) seps1 ->
  separation_shape (length coords) seps2 ->
  do_clustering coords all_clusters seps1 = do_clustering coords all_clusters seps2.
Proof.
  intros H1 H2. unfold do_clustering.
  now rewrite (select_loop_shape_only coords all_clusters seps1 seps2 _ _ H1 H2).
Qed.

Lemma do_clustering_ignores_seps_witness :
  do_clustering Examples.dup_coords Examples.dup_clusters
    (calc_separation Examples.dup_coords)
  = do_clustering Examples.dup_coords Examples.dup_clusters (np_empty 3 3).
Proof.
  apply (do_clustering_ignores_seps Examples.dup_coords Examples.dup_clusters).
  - apply (calc_separation_shape Examples.dup_coords).
  - split; reflexivity.
Defined.

(** * A candidate the estimator cannot index *)

(** The first candidate the first loop visits is the one with the largest
    id. *)
Lemma sorted_keys_desc_first {V} (d : gmap nat V) (kmax : nat) :
  is_Some (d !! kmax) -> (forall k, is_Some (d !! k) -> (k <= kmax)%nat) ->
  exists rest, sorted_keys_desc d = kmax :: rest.
Proof.
  intros Hin Hmax. pose proof (sorted_keys_desc_sorted d) as Hs.
  apply sorted_keys_desc_elem in Hin.
  destruct (sorted_keys_desc d) as [| x l] eqn:E; [inversion Hin |].
  exists l. f_equal.
  assert (Hx : (x <= kmax)%nat).
  { apply Hmax, sorted_keys_desc_elem. rewrite E. left. }
  apply elem_of_cons in Hin as [-> | Hin]; [reflexivity |].
  apply StronglySorted_cons in Hs as [Hall _]. rewrite Forall_forall in Hall.
  specialize (Hall kmax Hin). simpl in Hall. lia.
Qed.

Lemma get_centre_Raise (ms : list nat) (coords : list vec) (seps : ndarray) :
  separation_shape (length coords) seps ->
  ms = [] \/ ~ Forall (fun i => (i < length coords)%nat) ms ->
  get_centre ms coords seps = Raise IndexError.
Proof.
  intros Hshape [-> | Hn].
  - unfold get_centre, take_cols, take_rows. reflexivity.
  - pose proof (take_subset_Raise seps _ ms Hshape Hn) as H.
    unfold get_centre.
    destruct (take_cols seps ms) as [cols |]; run_bind in H; run_bind;
      [now rewrite H | now injection H as ->].
Qed.

(** X27. When the candidate cluster with the largest id is empty or has a
    member that is not an index of the catalogue, [do_clustering] raises
    [IndexError]: that candidate is visited first, nothing is assigned yet,
    and the estimator's indexing fails.  The members are below 2^63, so
    that the conversion of line 182 to an integer array goes through. *)
Theorem first_candidate_IndexError (coords : list vec)
    (all_clusters : gmap nat (list nat)) (seps : ndarray) (kmax : nat) (ms : list nat) :
  separation_shape (length coords) seps ->
  all_clusters !! kmax = Some ms ->
  (forall k, is_Some (all_clusters !! k) -> (k <= kmax)%nat) ->
  Forall (fun i => (Z.of_nat i < 2 ^ 63)%Z) ms ->
  ms = [] \/ ~ Forall (fun i => (i < length coords)%nat) ms ->
  do_clustering coords all_clusters seps = Raise IndexError.
Proof.
  intros Hshape Hms Hmax _ Hbad. unfold do_clustering.
  destruct (sorted_keys_desc_first all_clusters kmax) as [rest ->]; [eauto | exact Hmax |].
  assert (Hov : overlaps ms [] = false).
  { apply overlaps_false. intros m _ H. inversion H. }
  assert (E : select_cluster coords all_clusters seps (initial_state coords) kmax
              = Raise IndexError).
  { unfold select_cluster, dict_get. rewrite Hms. run_bind.
    cbn [assigned bind_members initial_state].
    rewrite Hov, (get_centre_Raise ms coords seps Hshape Hbad). reflexivity. }
  cbn [foldM]. rewrite E. reflexivity.
Qed.

Lemma first_candidate_IndexError_witness :
  do_clustering Examples.lone_coords (<[3%nat := [0; 5]%nat]> ∅) (np_empty 3 3)
  = Raise IndexError.
Proof.
  apply (first_candidate_IndexError Examples.lone_coords (<[3%nat := [0; 5]%nat]> ∅)
           (np_empty 3 3) 3 [0; 5]%nat).
  - split; reflexivity.
  - apply lookup_insert_eq.
  - intros k [m Hk]. destruct (decide (k = 3%nat)) as [-> | Hne]; [lia |].
    rewrite lookup_insert_ne in Hk by congruence. rewrite lookup_empty in Hk.
    discriminate.
  - repeat constructor; simpl; lia.
  - right. intros H. apply Forall_cons in H as [_ H].
    apply Forall_cons in H as [H _]. simpl in H. lia.
Defined.
